(** * The HarfBuzz object-graph repacker (src/hb-repacker.hh)

    A shallow embedding of [graph_t] and [hb_resolve_overflows], and the
    properties of the two topological sorts, the overflow oracle, the
    distance computation and the re-emission that the specification
    states about them, followed by properties read off the code
    itself: what each method does at its edges, what it keeps and in
    which order the sorts take the objects. *)

From Stdlib Require Import ZArith List Lia Bool.
From stdpp Require Import base numbers option list gmap relations.

Local Open Scope Z_scope.

(** ** Machine integers

    [unsigned] and [hb_codepoint_t] are 32-bit, [int] is 32-bit two's
    complement, [int64_t] and [ptrdiff_t] are 64-bit two's complement.
    Values are kept in [Z]; each conversion or arithmetic step that can
    leave the range of its C++ type is wrapped explicitly. *)

Definition wrap_u32 (z : Z) : Z := z mod 2 ^ 32.
Definition wrap_s32 (z : Z) : Z := (z + 2 ^ 31) mod 2 ^ 32 - 2 ^ 31.
Definition wrap_s64 (z : Z) : Z := (z + 2 ^ 63) mod 2 ^ 64 - 2 ^ 63.

(** [hb_int_max (int64_t)] *)
Definition INT64_MAX : Z := 2 ^ 63 - 1.

(** ** Outcomes

    The source signals every fatal condition with [assert]; the three
    fatal kinds are the names the specification gives to them.  A loop
    whose round bound is exhausted yields [OutOfFuel]; dereferencing a
    null object pointer yields [Undefined]. *)

Inductive error : Set := InvalidInput | GraphStructureError | OffsetUnderflow.

Inductive result (A : Type) : Type :=
| Ok (a : A)
| Fatal (e : error)
| OutOfFuel
| Undefined.
Arguments Ok {A} a.
Arguments Fatal {A} e.
Arguments OutOfFuel {A}.
Arguments Undefined {A}.

Definition rbind {A B} (r : result A) (k : A -> result B) : result B :=
  match r with
  | Ok a => k a
  | Fatal e => Fatal e
  | OutOfFuel => OutOfFuel
  | Undefined => Undefined
  end.

Notation "x <- e ;; k" := (rbind e (fun x => k))
  (at level 100, e at next level, k at level 200, right associativity).

(** ** hb_map_t

    Modelled from the spec: [hb_map_t] (hb-map.hh is not part of the
    sources at hand) is the map<index, count> of the specification, a
    finite map from 32-bit keys to 32-bit values in which the value
    [HB_MAP_VALUE_INVALID] stands for "no entry": [get] answers it for
    a missing key, [set] with it removes the key, and the key
    [HB_MAP_VALUE_INVALID] itself is never stored. *)

Module hb_map.

Definition INVALID : Z := 2 ^ 32 - 1.

Definition get (m : gmap Z Z) (k : Z) : Z := default INVALID (m !! k).

Definition has (m : gmap Z Z) (k : Z) : bool := negb (get m k =? INVALID).

Definition set (k v : Z) (m : gmap Z Z) : gmap Z Z :=
  if k =? INVALID then m
  else if v =? INVALID then delete k m
  else <[k := v]> m.

End hb_map.

Abbreviation hb_map_t := (gmap Z Z).

(** ** hb_set_t

    Modelled from the spec: [hb_set_t] (hb-set.hh is not part of the
    sources at hand) is the ready set of the specification: a set of
    32-bit values, iterated in increasing order, that never holds
    [HB_SET_VALUE_INVALID].  It is kept as an increasing list without
    repetitions. *)

Module hb_set.

Definition INVALID : Z := 2 ^ 32 - 1.

Definition t : Set := list Z.

Fixpoint insert_sorted (x : Z) (s : t) : t :=
  match s with
  | [] => [x]
  | y :: s' =>
      if x <? y then x :: s
      else if x =? y then s
      else y :: insert_sorted x s'
  end.

Definition add (x : Z) (s : t) : t :=
  if x =? INVALID then s else insert_sorted x s.

Definition del (x : Z) (s : t) : t :=
  List.filter (fun y => negb (y =? x)) s.

Definition has (s : t) (x : Z) : bool := existsb (fun y => y =? x) s.

Definition get_population (s : t) : nat := length s.

Definition is_empty (s : t) : bool :=
  match s with [] => true | _ => false end.

(** [add_range (a, b)]: both ends are included. *)
Definition add_range (a b : Z) (s : t) : t :=
  fold_left (fun acc x => add x acc) (seqZ a (b - a + 1)) s.

End hb_set.

(** ** The object graph (hb_serialize_context_t::object_t) *)

Inductive whence_t : Set := Head | Tail | Absolute.

Record link_t : Set := mk_link {
  is_wide : bool;
  is_signed : bool;
  whence : whence_t;
  position : Z;
  bias : Z;
  objidx : Z
}.

(** [head] and [tail] are the byte anchors of the payload, as
    addresses. *)
Record object_t : Set := mk_object {
  head : Z;
  tail : Z;
  links : list link_t
}.

(** The payload size [tail - head], a [ptrdiff_t]. *)
Definition payload_size (o : object_t) : Z := wrap_s64 (tail o - head o).

Record graph_t : Set := mk_graph { objects_ : list object_t }.

(** Indexing an [hb_vector_t] out of its range answers the Null object
    (for [object_t]: no payload, no links). *)
Definition Null_object : object_t := mk_object 0 0 [].

(** The length of an [hb_vector_t], an [unsigned]. *)
Definition vec_length {A} (v : list A) : Z := Z.of_nat (length v).

Definition vec_get (v : list object_t) (i : Z) : object_t :=
  if (0 <=? i) && (i <? vec_length v)
  then default Null_object (v !! Z.to_nat i)
  else Null_object.

(** ** Methods of graph_t: state and failure *)

Definition M (A : Type) : Type := graph_t -> result (A * graph_t).

Definition mret {A} (a : A) : M A := fun g => Ok (a, g).

Definition mbind {A B} (m : M A) (k : A -> M B) : M B :=
  fun g => match m g with
           | Ok (a, g') => k a g'
           | Fatal e => Fatal e
           | OutOfFuel => OutOfFuel
           | Undefined => Undefined
           end.

Definition get_objects : M (list object_t) := fun g => Ok (objects_ g, g).

Definition put_objects (objs : list object_t) : M unit :=
  fun _ => Ok (tt, mk_graph objs).

Definition lift {A} (r : result A) : M A :=
  fun g => match r with
           | Ok a => Ok (a, g)
           | Fatal e => Fatal e
           | OutOfFuel => OutOfFuel
           | Undefined => Undefined
           end.

Notation "x <~ e ;; k" := (mbind e (fun x => k))
  (at level 100, e at next level, k at level 200, right associativity).

(** ** The overflow oracle *)

(** [compute_offset].  The positions are [hb_map_t] values, so each
    difference is taken in [unsigned] arithmetic before it is widened
    to [int64_t]; the failed [assert] is the specification's
    [OffsetUnderflow]. *)
Definition compute_offset (parent_idx : Z) (link : link_t)
    (start_positions end_positions : hb_map_t) : result Z :=
  let child_idx := objidx link in
  let offset :=
    match whence link with
    | Head => wrap_u32 (hb_map.get start_positions child_idx
                        - hb_map.get start_positions parent_idx)
    | Tail => wrap_u32 (hb_map.get start_positions child_idx
                        - hb_map.get end_positions parent_idx)
    | Absolute => hb_map.get start_positions child_idx
    end in
  if offset <? bias link then Fatal OffsetUnderflow
  else Ok (offset - bias link).

(** [is_valid_offset] *)
Definition is_valid_offset (offset : Z) (link : link_t) : bool :=
  if is_signed link then
    if is_wide link then (- 2 ^ 31 <=? offset) && (offset <? 2 ^ 31)
    else (- 2 ^ 15 <=? offset) && (offset <? 2 ^ 15)
  else
    if is_wide link then (0 <=? offset) && (offset <? 2 ^ 32)
    else (0 <=? offset) && (offset <? 2 ^ 16).

(** The first loop of [will_overflow]: [i] runs from [k - 1] down to 0,
    [current_pos] is an [unsigned]. *)
Fixpoint layout_positions (k : nat) (objs : list object_t)
    (start_positions end_positions : hb_map_t) (current_pos : Z)
    : hb_map_t * hb_map_t :=
  match k with
  | O => (start_positions, end_positions)
  | S i' =>
      let i := Z.of_nat i' in
      let start_positions := hb_map.set i current_pos start_positions in
      let current_pos :=
        wrap_u32 (current_pos + payload_size (vec_get objs i)) in
      let end_positions := hb_map.set i current_pos end_positions in
      layout_positions i' objs start_positions end_positions current_pos
  end.

(** The inner loop of [will_overflow] over the links of one parent:
    [true] as soon as one offset does not fit. *)
Fixpoint links_overflow (parent_idx : Z) (ls : list link_t)
    (start_positions end_positions : hb_map_t) : result bool :=
  match ls with
  | [] => Ok false
  | link :: ls' =>
      offset <- compute_offset parent_idx link start_positions end_positions ;;
      if negb (is_valid_offset offset link) then Ok true
      else links_overflow parent_idx ls' start_positions end_positions
  end.

(** The outer loop of [will_overflow]: [parent_idx] counts up from its
    start value over the objects that remain. *)
Fixpoint objects_overflow (parent_idx : Z) (objs : list object_t)
    (start_positions end_positions : hb_map_t) : result bool :=
  match objs with
  | [] => Ok false
  | o :: objs' =>
      r <- links_overflow parent_idx (links o) start_positions end_positions ;;
      if (r : bool) then Ok true
      else objects_overflow (parent_idx + 1) objs' start_positions end_positions
  end.

(** The first loop of [will_overflow] with its start values;
    [int i = objects_.length - 1] converts the [unsigned] difference
    to [int]. *)
Definition layout (objs : list object_t) : hb_map_t * hb_map_t :=
  layout_positions
    (Z.to_nat (wrap_s32 (wrap_u32 (vec_length objs - 1)) + 1)) objs ∅ ∅ 0.

(** [will_overflow ()] *)
Definition will_overflow : M bool :=
  objs <~ get_objects ;;
  let '(start_positions, end_positions) := layout objs in
  lift (objects_overflow 0 objs start_positions end_positions).

(** ** Construction from the packed object list *)

Definition set_objidx (id : Z) (l : link_t) : link_t :=
  mk_link (is_wide l) (is_signed l) (whence l) (position l) (bias l) id.

(** [copy->links[i].objidx--] on every link of the copy. *)
Definition decrement_links (o : object_t) : object_t :=
  mk_object (head o) (tail o)
    (map (fun l => set_objidx (wrap_u32 (objidx l - 1)) l) (links o)).

(** The loop of the constructor from index [i] on; a null pointer is
    [None].  Only [objects[0]] is tested for null before it is
    dereferenced. *)
Fixpoint graph_import (i : Z) (removed_nil : bool)
    (objects : list (option object_t)) (objects_ : list object_t)
    : result (list object_t) :=
  match objects with
  | [] => Ok objects_
  | o :: objects' =>
      match o with
      | None =>
          if i =? 0 then graph_import (i + 1) true objects' objects_
          else Undefined
      | Some obj =>
          let copy := if removed_nil then decrement_links obj else obj in
          graph_import (i + 1) removed_nil objects' (objects_ ++ [copy])
      end
  end.

(** [graph_t::graph_t (objects)] *)
Definition graph_t_new (objects : list (option object_t)) : result graph_t :=
  objs <- graph_import 0 false objects [] ;;
  Ok (mk_graph objs).

(** ** Incoming edge counts and index remapping *)

Definition count_link (out : hb_map_t) (l : link_t) : hb_map_t :=
  let id := objidx l in
  if hb_map.has out id
  then hb_map.set id (wrap_u32 (hb_map.get out id + 1)) out
  else hb_map.set id 1 out.

Fixpoint incoming_edge_count_from (i : Z) (objs : list object_t)
    (out : hb_map_t) : hb_map_t :=
  match objs with
  | [] => out
  | o :: objs' =>
      let out := if hb_map.has out i then out else hb_map.set i 0 out in
      let out := fold_left count_link (links o) out in
      incoming_edge_count_from (i + 1) objs' out
  end.

(** [incoming_edge_count (out)] *)
Definition incoming_edge_count (objs : list object_t) (out : hb_map_t)
    : hb_map_t :=
  incoming_edge_count_from 0 objs out.

Fixpoint remap_links (id_map : hb_map_t) (ls : list link_t)
    : result (list link_t) :=
  match ls with
  | [] => Ok []
  | l :: ls' =>
      if negb (hb_map.has id_map (objidx l)) then Fatal GraphStructureError
      else
        ls'' <- remap_links id_map ls' ;;
        Ok (set_objidx (hb_map.get id_map (objidx l)) l :: ls'')
  end.

(** [remap_obj_indices (id_map, sorted_graph)] *)
Fixpoint remap_obj_indices (id_map : hb_map_t) (sorted_graph : list object_t)
    : result (list object_t) :=
  match sorted_graph with
  | [] => Ok []
  | o :: os =>
      ls <- remap_links id_map (links o) ;;
      os' <- remap_obj_indices id_map os ;;
      Ok (mk_object (head o) (tail o) ls :: os')
  end.

(** ** Kahn sort *)

(** The local variables of the two sort loops.  The queue is an
    [hb_vector_t<unsigned>] in [sort_kahn] and an [hb_set_t] in
    [sort_shortest_distance]. *)
Record sort_state : Type := mk_state {
  st_queue : list Z;
  st_sorted_graph : list object_t;
  st_id_map : hb_map_t;
  st_edge_count : hb_map_t;
  st_new_id : Z
}.

(** The body of the loop over [next.links]: the count of the child is
    lowered by one in [unsigned] arithmetic, and the child joins the
    end of the queue when its count is then zero. *)
Definition kahn_visit (acc : hb_map_t * list Z) (link : link_t)
    : hb_map_t * list Z :=
  let '(edge_count, queue) := acc in
  let edge_count :=
    hb_map.set (objidx link)
      (wrap_u32 (hb_map.get edge_count (objidx link) - 1)) edge_count in
  if hb_map.get edge_count (objidx link) =? 0
  then (edge_count, queue ++ [objidx link])
  else (edge_count, queue).

(** [while (queue.length)], for at most [fuel] rounds. *)
Fixpoint sort_kahn_loop (fuel : nat) (objs : list object_t) (st : sort_state)
    : result sort_state :=
  match st_queue st with
  | [] => Ok st
  | next_id :: queue =>
      match fuel with
      | O => OutOfFuel
      | S fuel' =>
          let next := vec_get objs next_id in
          let sorted_graph := st_sorted_graph st ++ [next] in
          let id_map :=
            hb_map.set next_id (wrap_u32 (st_new_id st)) (st_id_map st) in
          let new_id := wrap_s32 (st_new_id st - 1) in
          let '(edge_count, queue) :=
            fold_left kahn_visit (links next) (st_edge_count st, queue) in
          sort_kahn_loop fuel' objs
            (mk_state queue sorted_graph id_map edge_count new_id)
      end
  end.

(** [sort_kahn ()].  Every round lowers [new_id] by one from
    [length - 1], and only [new_id = -1] passes the check after the
    loop, so a run that returns makes [length] rounds: the loop is
    given that many.  [OutOfFuel] stands for a run that goes past
    them, as on a cycle through the root: the source goes on, and
    cannot return but through the failed check. *)
Definition sort_kahn : M unit :=
  objs <~ get_objects ;;
  if vec_length objs <=? 1 then mret tt
  else
    let edge_count := incoming_edge_count objs ∅ in
    let queue := [wrap_u32 (vec_length objs - 1)] in
    let new_id := wrap_s32 (wrap_u32 (vec_length objs - 1)) in
    st <~ lift (sort_kahn_loop (length objs) objs
                  (mk_state queue [] ∅ edge_count new_id)) ;;
    if negb (st_new_id st =? -1) then lift (Fatal GraphStructureError)
    else
      sorted_graph <~
        lift (remap_obj_indices (st_id_map st) (st_sorted_graph st)) ;;
      put_objects (reverse sorted_graph).

(** ** Distances and the shortest-distance sort *)

(** Indexing an [hb_vector_t<int64_t>] out of its range answers 0. *)
Definition dist_get (v : list Z) (i : Z) : Z :=
  if (0 <=? i) && (i <? vec_length v) then default 0 (v !! Z.to_nat i) else 0.

Definition dist_set (v : list Z) (i : Z) (x : Z) : list Z :=
  if (0 <=? i) && (i <? vec_length v) then <[Z.to_nat i := x]> v else v.

Definition closest_step (distance_to : list Z) (acc : Z * Z) (i : Z)
    : Z * Z :=
  let '(closest_distance, closest_index) := acc in
  if dist_get distance_to i <? closest_distance
  then (dist_get distance_to i, i)
  else (closest_distance, closest_index).

(** [closest_object (queue, distance_to)]; the failed [assert] is the
    specification's [GraphStructureError]. *)
Definition closest_object (queue : hb_set.t) (distance_to : list Z)
    : result Z :=
  let '(_, closest_index) :=
    fold_left (closest_step distance_to) queue (INT64_MAX, wrap_u32 (-1)) in
  if closest_index =? wrap_u32 (-1) then Fatal GraphStructureError
  else Ok closest_index.

(** The body of the loop over [next.links] in [compute_distances]. *)
Definition relax (objs : list object_t) (unvisited : hb_set.t)
    (next_distance : Z) (distance_to : list Z) (link : link_t) : list Z :=
  if negb (hb_set.has unvisited (objidx link)) then distance_to
  else
    let child := vec_get objs (objidx link) in
    let child_weight :=
      wrap_s64 (payload_size child
                + (if negb (is_wide link) then 2 ^ 16 else 2 ^ 32)) in
    let child_distance := wrap_s64 (next_distance + child_weight) in
    if child_distance <? dist_get distance_to (objidx link)
    then dist_set distance_to (objidx link) child_distance
    else distance_to.

(** [while (!unvisited.is_empty ())], for at most [fuel] rounds;
    [next_distance] is declared [int]. *)
Fixpoint compute_distances_loop (fuel : nat) (objs : list object_t)
    (unvisited : hb_set.t) (distance_to : list Z) : result (list Z) :=
  if hb_set.is_empty unvisited then Ok distance_to
  else
    match fuel with
    | O => OutOfFuel
    | S fuel' =>
        next_idx <- closest_object unvisited distance_to ;;
        let next := vec_get objs next_idx in
        let next_distance := wrap_s32 (dist_get distance_to next_idx) in
        let unvisited := hb_set.del next_idx unvisited in
        let distance_to :=
          fold_left (relax objs unvisited next_distance) (links next)
            distance_to in
        compute_distances_loop fuel' objs unvisited distance_to
    end.

(** [compute_distances (distance_to)].  Every round removes one member
    of [unvisited], which starts with [length] members. *)
Definition compute_distances (objs : list object_t) : result (list Z) :=
  let distance_to := replicate (length objs) INT64_MAX in
  let distance_to := dist_set distance_to (wrap_u32 (vec_length objs - 1)) 0 in
  let unvisited := hb_set.add_range 0 (wrap_u32 (vec_length objs - 1)) [] in
  compute_distances_loop (length objs) objs unvisited distance_to.

Definition dist_visit (acc : hb_map_t * hb_set.t) (link : link_t)
    : hb_map_t * hb_set.t :=
  let '(edge_count, queue) := acc in
  let edge_count :=
    hb_map.set (objidx link)
      (wrap_u32 (hb_map.get edge_count (objidx link) - 1)) edge_count in
  if hb_map.get edge_count (objidx link) =? 0
  then (edge_count, hb_set.add (objidx link) queue)
  else (edge_count, queue).

(** [while (queue.get_population ())], for at most [fuel] rounds. *)
Fixpoint sort_shortest_distance_loop (fuel : nat) (objs : list object_t)
    (distance_to : list Z) (st : sort_state) : result sort_state :=
  match hb_set.get_population (st_queue st) with
  | O => Ok st
  | S _ =>
      match fuel with
      | O => OutOfFuel
      | S fuel' =>
          next_id <- closest_object (st_queue st) distance_to ;;
          let queue := hb_set.del next_id (st_queue st) in
          let next := vec_get objs next_id in
          let sorted_graph := st_sorted_graph st ++ [next] in
          let id_map :=
            hb_map.set next_id (wrap_u32 (st_new_id st)) (st_id_map st) in
          let new_id := wrap_s32 (st_new_id st - 1) in
          let '(edge_count, queue) :=
            fold_left dist_visit (links next) (st_edge_count st, queue) in
          sort_shortest_distance_loop fuel' objs distance_to
            (mk_state queue sorted_graph id_map edge_count new_id)
      end
  end.

(** [sort_shortest_distance ()]; the loop bound is that of
    [sort_kahn]. *)
Definition sort_shortest_distance : M unit :=
  objs <~ get_objects ;;
  if vec_length objs <=? 1 then mret tt
  else
    distance_to <~ lift (compute_distances objs) ;;
    let edge_count := incoming_edge_count objs ∅ in
    let queue := hb_set.add (wrap_u32 (vec_length objs - 1)) [] in
    let new_id := wrap_s32 (wrap_u32 (vec_length objs - 1)) in
    st <~ lift (sort_shortest_distance_loop (length objs) objs distance_to
                  (mk_state queue [] ∅ edge_count new_id)) ;;
    if negb (st_new_id st =? -1) then lift (Fatal GraphStructureError)
    else
      sorted_graph <~
        lift (remap_obj_indices (st_id_map st) (st_sorted_graph st)) ;;
      put_objects (reverse sorted_graph).

(** ** Re-emission

    Modelled from the spec: the serialization sink
    ([hb_serialize_context_t], hb-serialize.hh, is not part of the
    sources at hand) is the outbound interface of the specification:
    begin, push_object, allocate_bytes, register_link, pop_object and
    end.  It is kept as the sequence of operations performed on it,
    with the room left for payload bytes; an allocation beyond that
    room answers no span. *)

Inductive int_type : Set := HBINT16 | HBUINT16 | HBINT32 | HBUINT32.

Definition static_size (O : int_type) : Z :=
  match O with HBINT16 | HBUINT16 => 2 | HBINT32 | HBUINT32 => 4 end.

Definition type_is_signed (O : int_type) : bool :=
  match O with HBINT16 | HBINT32 => true | HBUINT16 | HBUINT32 => false end.

Inductive sink_op : Set :=
| start_serialize
| push
| allocate_size (size : Z) (granted : bool)
| memcpy (src size : Z)
| store_zero (at_position width : Z)
| add_link (at_position width : Z) (signed : bool) (target : Z)
    (anchor : whence_t) (link_bias : Z)
| pop_pack (share : bool)
| end_serialize.

Record sink : Set := mk_sink { ops : list sink_op; room : Z }.

Definition sink_do (op : sink_op) (c : sink) : sink :=
  mk_sink (ops c ++ [op]) (room c).

Definition sink_allocate (size : Z) (c : sink) : bool * sink :=
  if size <=? room c
  then (true, mk_sink (ops c ++ [allocate_size size true]) (room c - size))
  else (false, mk_sink (ops c ++ [allocate_size size false]) (room c)).

(** [serialize_link_of_type<O> (link, head, c)]: the field at
    [head + link.position] is cleared, then registered with the target
    [link.objidx + 1], an [unsigned] sum. *)
Definition serialize_link_of_type (O : int_type) (link : link_t) (c : sink)
    : sink :=
  let c := sink_do (store_zero (position link) (static_size O)) c in
  sink_do (add_link (position link) (static_size O) (type_is_signed O)
             (wrap_u32 (objidx link + 1)) (whence link) (bias link)) c.

(** [serialize_link (link, head, c)] *)
Definition serialize_link (link : link_t) (c : sink) : sink :=
  if is_wide link then
    if is_signed link then serialize_link_of_type HBINT32 link c
    else serialize_link_of_type HBUINT32 link c
  else
    if is_signed link then serialize_link_of_type HBINT16 link c
    else serialize_link_of_type HBUINT16 link c.

(** The loop of [serialize]; [size] is a [size_t].  The answer is the
    sink and whether the loop ran to its end. *)
Fixpoint serialize_objects (objs : list object_t) (c : sink) : sink * bool :=
  match objs with
  | [] => (c, true)
  | o :: objs' =>
      let c := sink_do push c in
      let size := (tail o - head o) mod 2 ^ 64 in
      let '(start, c) := sink_allocate size c in
      if negb start then (c, false)
      else
        let c := sink_do (memcpy (head o) size) c in
        let c := fold_left (fun c link => serialize_link link c) (links o) c in
        let c := sink_do (pop_pack false) c in
        serialize_objects objs' c
  end.

(** [serialize (c)] *)
Definition serialize (c : sink) : M sink :=
  objs <~ get_objects ;;
  let c := sink_do start_serialize c in
  let '(c, finished) := serialize_objects objs c in
  if finished then mret (sink_do end_serialize c) else mret c.

(** ** The driver *)

(** [hb_resolve_overflows (packed, c)] *)
Definition hb_resolve_overflows (packed : list (option object_t)) (c : sink)
    : result sink :=
  sorted_graph <- graph_t_new packed ;;
  r <- (_ <~ sort_kahn ;;
        overflow <~ will_overflow ;;
        _ <~ (if (overflow : bool) then sort_shortest_distance else mret tt) ;;
        serialize c) sorted_graph ;;
  Ok (fst r).

(** ** Graph structure

    The structural conditions the specification puts on a Graph, over
    the object sequence. *)

(** The child indexes of the links of object [p], in link order. *)
Definition children (objs : list object_t) (p : Z) : list Z :=
  map objidx (links (vec_get objs p)).

Definition edge (objs : list object_t) (p c : Z) : Prop :=
  c ∈ children objs p.

Definition links_in_range (objs : list object_t) : Prop :=
  ∀ p c, edge objs p c → 0 <= c < vec_length objs.

Definition acyclic (objs : list object_t) : Prop :=
  ∀ v, ¬ tc (edge objs) v v.

(** Every object is reachable from the root, the last index. *)
Definition root_connected (objs : list object_t) : Prop :=
  ∀ v, 0 <= v < vec_length objs →
       rtc (edge objs) (vec_length objs - 1) v.

(** Reverse topological order: every link goes from its parent to a
    strictly lower index. *)
Definition reverse_topological (objs : list object_t) : Prop :=
  ∀ p c, edge objs p c → 0 <= c < p.

(** All child indexes of the graph, in object order then link order. *)
Definition all_children (objs : list object_t) : list Z :=
  flat_map (fun o => map objidx (links o)) objs.

(** A payload with consistent anchors and a 32-bit size. *)
Definition payload_ok (o : object_t) : Prop := 0 <= tail o - head o < 2 ^ 32.

(** An acyclic, root-connected graph with valid child indexes, within
    the limits of the representation: the length fits an [int] and the
    link counts fit the values of an [hb_map_t]. *)
Record well_formed (objs : list object_t) : Prop := mk_wf {
  wf_length : vec_length objs < 2 ^ 31;
  wf_links : Z.of_nat (length (all_children objs)) < 2 ^ 32 - 1;
  wf_range : links_in_range objs;
  wf_acyclic : acyclic objs;
  wf_connected : root_connected objs
}.

(** ** Scenarios *)

Definition narrow_unsigned (child : Z) : link_t :=
  mk_link false false Head 0 0 child.

Definition wide_unsigned (child : Z) : link_t :=
  mk_link true false Head 0 0 child.

(** root -> A -> B with 10-byte payloads, packed behind the nil
    object. *)
Definition chain_packed : list (option object_t) :=
  [ None;
    Some (mk_object 120 130 []);
    Some (mk_object 110 120 [narrow_unsigned 1]);
    Some (mk_object 100 110 [narrow_unsigned 2]) ].

(** ** The vocabulary of the specification *)

(** The representable range of a link, in the words of the
    specification. *)
Definition fits (link : link_t) (encoded : Z) : Prop :=
  match is_signed link, is_wide link with
  | true, false => - 2 ^ 15 <= encoded < 2 ^ 15
  | true, true => - 2 ^ 31 <= encoded < 2 ^ 31
  | false, false => 0 <= encoded < 2 ^ 16
  | false, true => 0 <= encoded < 2 ^ 32
  end.

(** The raw offset of a link in the words of the specification, over
    the integers. *)
Definition raw_offset (parent_idx : Z) (link : link_t)
    (start_positions end_positions : hb_map_t) : Z :=
  match whence link with
  | Head => hb_map.get start_positions (objidx link)
            - hb_map.get start_positions parent_idx
  | Tail => hb_map.get start_positions (objidx link)
            - hb_map.get end_positions parent_idx
  | Absolute => hb_map.get start_positions (objidx link)
  end.

(** A two-object sequence whose only link goes from index 0 up to
    index 1: the child starts 4 bytes before its parent. *)
Definition backward_link : link_t := mk_link false false Head 0 0 1.

Definition backward_objects : list object_t :=
  [ mk_object 0 4 [backward_link]; mk_object 4 8 [] ].

(** Every child index of a packed list names a place of that list;
    behind a nil object, place 0 is not a child. *)
Definition packed_children_in_range (packed : list (option object_t)) : bool :=
  let lowest := match packed with None :: _ => 1 | _ => 0 end in
  forallb
    (fun o =>
       match o with
       | None => true
       | Some obj =>
           forallb (fun l => (lowest <=? objidx l)
                             && (objidx l <? vec_length packed)) (links obj)
       end) packed.

(** A packed list whose root has its anchors inverted and its link
    field 100 bytes into a payload of no bytes. *)
Definition inverted_packed : list (option object_t) :=
  [ None;
    Some (mk_object 0 4 []);
    Some (mk_object 8 4 [mk_link false false Head 100 0 1]) ].

(** A packed list whose root links to place 9 of a list of three. *)
Definition dangling_packed : list (option object_t) :=
  [ None;
    Some (mk_object 0 4 []);
    Some (mk_object 4 8 [mk_link false false Head 0 0 9]) ].

(** What re-emission registers for a link of the packed list, in the
    words of the specification: the field is cleared over its width,
    then registered with the child index the link had in the packed
    list. *)
Definition link_ops (l : link_t) : list sink_op :=
  let width := if is_wide l then 4 else 2 in
  [ store_zero (position l) width;
    add_link (position l) width (is_signed l) (objidx l) (whence l) (bias l) ].

(** What re-emission sends to the sink for one object of the packed
    list, in the words of the specification: the object is opened, its
    payload copied, its links registered, and the object packed
    without sharing. *)
Definition object_ops (o : object_t) : list sink_op :=
  [ push;
    allocate_size ((tail o - head o) mod 2 ^ 64) true;
    memcpy (head o) ((tail o - head o) mod 2 ^ 64) ]
  ++ flat_map link_ops (links o) ++ [ pop_pack false ].

(** The bytes the payloads of a sequence take from the sink, each
    size as the [size_t] the code computes. *)
Definition payload_bytes (objs : list object_t) : Z :=
  fold_right (fun o n => (tail o - head o) mod 2 ^ 64 + n) 0 objs.

(** A check of reverse topological order that computes. *)
Fixpoint reverse_topological_from (i : Z) (objs : list object_t) : bool :=
  match objs with
  | [] => true
  | o :: objs' =>
      forallb (fun l => (0 <=? objidx l) && (objidx l <? i)) (links o)
      && reverse_topological_from (i + 1) objs'
  end.

(** The bytes of a sequence of payloads, over the integers. *)
Definition payload_total (objs : list object_t) : Z :=
  fold_right (fun o n => (tail o - head o) + n) 0 objs.

(** The number of times [v] occurs in [l]. *)
Fixpoint occ (v : Z) (l : list Z) : Z :=
  match l with
  | [] => 0
  | x :: l' => (if x =? v then 1 else 0) + occ v l'
  end.

(** The children of a sequence of parents. *)
Definition children_of (objs : list object_t) (parents : list Z) : list Z :=
  flat_map (children objs) parents.

(** The links into [v] that come from objects outside [popped]. *)
Definition remaining (objs : list object_t) (popped : list Z) (v : Z) : Z :=
  occ v (all_children objs) - occ v (children_of objs popped).

(** The count an [hb_map_t] holds for a key, 0 where it has none. *)
Definition held_count (m : hb_map_t) (v : Z) : Z :=
  if hb_map.has m v then hb_map.get m v else 0.

(** ** The two sort loops as one

    [sort_kahn] and [sort_shortest_distance] run the same loop; they
    differ in how the next object is taken from the queue and in how a
    ready child joins it. *)

Section generic_sort.

Variable pick : list Z -> result (Z * list Z).
Variable push : Z -> list Z -> list Z.

Definition visit_child (acc : hb_map_t * list Z) (c : Z)
    : hb_map_t * list Z :=
  let '(edge_count, queue) := acc in
  let edge_count :=
    hb_map.set c (wrap_u32 (hb_map.get edge_count c - 1)) edge_count in
  if hb_map.get edge_count c =? 0
  then (edge_count, push c queue)
  else (edge_count, queue).

Definition sort_round (objs : list object_t) (st : sort_state)
    : result sort_state :=
  picked <- pick (st_queue st) ;;
  let next := vec_get objs (fst picked) in
  let visited :=
    fold_left visit_child (map objidx (links next))
      (st_edge_count st, snd picked) in
  Ok (mk_state (snd visited) (st_sorted_graph st ++ [next])
        (hb_map.set (fst picked) (wrap_u32 (st_new_id st)) (st_id_map st))
        (fst visited) (wrap_s32 (st_new_id st - 1))).

Fixpoint sort_loop (fuel : nat) (objs : list object_t) (st : sort_state)
    : result sort_state :=
  match st_queue st with
  | [] => Ok st
  | _ :: _ =>
      match fuel with
      | O => OutOfFuel
      | S fuel' => st' <- sort_round objs st ;; sort_loop fuel' objs st'
      end
  end.

End generic_sort.

(** Taking from and adding to the FIFO queue of [sort_kahn]. *)
Definition fifo_pick (q : list Z) : result (Z * list Z) :=
  match q with
  | [] => Fatal GraphStructureError
  | x :: q' => Ok (x, q')
  end.

Definition fifo_push (x : Z) (q : list Z) : list Z := q ++ [x].

(** Taking the closest object from the ready set of
    [sort_shortest_distance]. *)
Definition closest_pick (distance_to : list Z) (q : list Z)
    : result (Z * list Z) :=
  next_id <- closest_object q distance_to ;;
  Ok (next_id, hb_set.del next_id q).

(** What taking and adding must do for the loop to be a Kahn sort of
    a graph of [n] objects. *)
Definition pick_spec (n : Z) (pick : list Z -> result (Z * list Z)) : Prop :=
  ∀ q, q ≠ [] → NoDup q → (∀ y, y ∈ q → 0 <= y < n) →
       ∃ x q', pick q = Ok (x, q') ∧ x ∈ q ∧ NoDup q'
               ∧ ∀ y, y ∈ q' ↔ y ∈ q ∧ y ≠ x.

Definition push_spec (n : Z) (push : Z -> list Z -> list Z) : Prop :=
  ∀ x q, 0 <= x < n →
         (∀ y, y ∈ push x q ↔ y = x ∨ y ∈ q)
         ∧ (x ∉ q → NoDup q → NoDup (push x q)).

(** The state of a sort loop after the objects [popped] have been
    taken, in that order. *)
Record sort_inv (objs : list object_t) (popped : list Z) (st : sort_state)
    : Prop := mk_sort_inv {
  inv_nodup : NoDup (popped ++ st_queue st);
  inv_range : ∀ v, v ∈ popped ++ st_queue st → 0 <= v < vec_length objs;
  inv_first :
    match popped with
    | [] => st_queue st = [vec_length objs - 1]
    | v :: _ => v = vec_length objs - 1
    end;
  inv_sorted : st_sorted_graph st = map (vec_get objs) popped;
  inv_new_id : st_new_id st = vec_length objs - 1 - Z.of_nat (length popped);
  inv_id_in : ∀ (i : nat) v, popped !! i = Some v →
      hb_map.get (st_id_map st) v = vec_length objs - 1 - Z.of_nat i;
  inv_id_out : ∀ v, v ∉ popped →
      hb_map.get (st_id_map st) v = hb_map.INVALID;
  inv_count : ∀ v, 0 <= v < vec_length objs →
      hb_map.get (st_edge_count st) v = remaining objs popped v;
  inv_ready : ∀ v, v ∈ popped ++ st_queue st → v ≠ vec_length objs - 1 →
      remaining objs popped v = 0;
  inv_reach : ∀ v, v ∈ popped ++ st_queue st →
      rtc (edge objs) (vec_length objs - 1) v;
  inv_order : ∀ (i : nat) c p, popped !! i = Some c →
      c ≠ vec_length objs - 1 → edge objs p c →
      ∃ j : nat, (j < i)%nat ∧ popped !! j = Some p
}.

(** Every object that is ready and not yet taken is in the queue. *)
Definition sort_complete (objs : list object_t) (popped : list Z)
    (st : sort_state) : Prop :=
  ∀ v, 0 <= v < vec_length objs → v ∉ popped →
       remaining objs popped v = 0 → v ∈ st_queue st.

(** A chain of objects, each linked from the one after it. *)
Fixpoint is_chain (objs : list object_t) (l : list Z) : Prop :=
  match l with
  | [] => True
  | a :: l' =>
      match l' with
      | [] => True
      | b :: _ => edge objs b a ∧ is_chain objs l'
      end
  end.

(** An object with its child indexes mapped through [σ]. *)
Definition renumber (σ : Z -> Z) (o : object_t) : object_t :=
  mk_object (head o) (tail o)
    (map (fun l => set_objidx (σ (objidx l)) l) (links o)).

(** [objs'] is [objs] with the object at every index [v] moved to
    index [σ v], the root staying last. *)
Record renumbering (objs objs' : list object_t) (σ : Z -> Z) : Prop :=
  mk_renumbering {
  rn_length : vec_length objs' = vec_length objs;
  rn_range : ∀ v, 0 <= v < vec_length objs → 0 <= σ v < vec_length objs;
  rn_inj : ∀ a b, 0 <= a < vec_length objs → 0 <= b < vec_length objs →
                  σ a = σ b → a = b;
  rn_surj : ∀ j, 0 <= j < vec_length objs →
                 ∃ v, 0 <= v < vec_length objs ∧ σ v = j;
  rn_object : ∀ v, 0 <= v < vec_length objs →
                   vec_get objs' (σ v) = renumber σ (vec_get objs v);
  rn_root : σ (vec_length objs - 1) = vec_length objs - 1
}.

(** The state in which both sort loops start. *)
Definition sort_start (objs : list object_t) : sort_state :=
  mk_state [vec_length objs - 1] [] ∅ (incoming_edge_count objs ∅)
    (vec_length objs - 1).

(** What both sorts do with the outcome of their loop. *)
Definition sort_outcome (r : result sort_state) : result (unit * graph_t) :=
  st <- r ;;
  if negb (st_new_id st =? -1) then Fatal GraphStructureError
  else
    sorted_graph <- remap_obj_indices (st_id_map st) (st_sorted_graph st) ;;
    Ok (tt, mk_graph (reverse sorted_graph)).

(** The state of the loop of [compute_distances] on a well-formed
    graph. *)
Record dist_inv (objs : list object_t) (unvisited : list Z)
    (distance_to : list Z) : Prop := mk_dist_inv {
  di_nodup : NoDup unvisited;
  di_range : ∀ y, y ∈ unvisited → 0 <= y < vec_length objs;
  di_length : vec_length distance_to = vec_length objs;
  di_root : dist_get distance_to (vec_length objs - 1) < INT64_MAX;
  di_child : ∀ p c, edge objs p c → p ∉ unvisited →
                    dist_get distance_to c < INT64_MAX;
  di_visited : ∀ v, 0 <= v < vec_length objs → v ∉ unvisited →
                    dist_get distance_to v < INT64_MAX
}.

(** The state of the loop of [sort_kahn] on a graph and that of the
    loop on the graph renumbered by [σ]. *)
Record sort_sim (objs : list object_t) (σ : Z -> Z) (st st' : sort_state)
    : Prop := mk_sort_sim {
  sim_queue : st_queue st' = map σ (st_queue st);
  sim_queue_range : ∀ y, y ∈ st_queue st → 0 <= y < vec_length objs;
  sim_count : ∀ v, 0 <= v < vec_length objs →
      hb_map.get (st_edge_count st') (σ v) = hb_map.get (st_edge_count st) v;
  sim_new_id : st_new_id st' = st_new_id st;
  sim_id : ∀ v, 0 <= v < vec_length objs →
      hb_map.get (st_id_map st') (σ v) = hb_map.get (st_id_map st) v;
  sim_sorted : st_sorted_graph st' = map (renumber σ) (st_sorted_graph st)
}.

(** The weight of a link in the words of the specification: the size
    of the child's payload plus the penalty of the link's width. *)
Definition link_weight (objs : list object_t) (link : link_t) : Z :=
  (tail (vec_get objs (objidx link)) - head (vec_get objs (objidx link)))
  + (if is_wide link then 2 ^ 32 else 2 ^ 16).

(** Forced narrow overflow: the root links to X (80000 bytes) and to Y
    (4 bytes); Y is at index 0, X at index 1, the root last. *)
Definition forced_objects : list object_t :=
  [ mk_object 0 4 [];
    mk_object 0 80000 [];
    mk_object 0 4 [narrow_unsigned 1; narrow_unsigned 0] ].

(** The root reaches C directly over a wide link, and over a wide link
    to A, a narrow link to P and a narrow link to C.  C is at index 0,
    P at 1, A at 2, the root last; A has 8 bytes, the others 4. *)
Definition detour_objects : list object_t :=
  [ mk_object 0 4 [];
    mk_object 4 8 [narrow_unsigned 0];
    mk_object 8 16 [narrow_unsigned 1];
    mk_object 16 20 [wide_unsigned 0; wide_unsigned 2] ].

(** A root that links to itself, and an object nothing links to. *)
Definition self_linked_objects : list object_t :=
  [ mk_object 0 4 []; mk_object 0 4 [narrow_unsigned 1] ].

(** A root whose two links name indexes 7 and 8 of a graph of three
    objects. *)
Definition dangling_objects : list object_t :=
  [ mk_object 0 4 []; mk_object 0 4 [];
    mk_object 0 4 [narrow_unsigned 7; narrow_unsigned 8] ].

(** A root with one child, and an object nothing links to. *)
Definition orphan_objects : list object_t :=
  [ mk_object 0 4 []; mk_object 0 4 []; mk_object 0 4 [narrow_unsigned 1] ].

(** A root that links to A (index 1); A and B (index 2) link to each
    other; nothing links to the object at index 0. *)
Definition cyclic_orphan_objects : list object_t :=
  [ mk_object 0 4 [];
    mk_object 0 4 [narrow_unsigned 2];
    mk_object 0 4 [narrow_unsigned 1];
    mk_object 0 4 [narrow_unsigned 1] ].

(** The chain root -> A -> B as imported from [chain_packed]. *)
Definition chain_objects : list object_t :=
  [ mk_object 120 130 [];
    mk_object 110 120 [narrow_unsigned 0];
    mk_object 100 110 [narrow_unsigned 1] ].

(** A root that links to A (index 0) and then to B (index 1). *)
Definition fanout_objects : list object_t :=
  [ mk_object 0 4 []; mk_object 4 12 [];
    mk_object 12 16 [narrow_unsigned 0; narrow_unsigned 1] ].

(** ** Re-emission, placement, distances and the order of the sorts *)

(** An object as [serialize] hands it to the sink: every child index
    raised by one, an [unsigned] sum. *)
Definition increment_links (o : object_t) : object_t :=
  mk_object (head o) (tail o)
    (map (fun l => set_objidx (wrap_u32 (objidx l + 1)) l) (links o)).

(** Every child index of a sequence of objects has an entry in
    [id_map]. *)
Definition all_mapped (id_map : hb_map_t) (sorted_graph : list object_t)
    : bool :=
  forallb (fun o => forallb (fun l => hb_map.has id_map (objidx l)) (links o))
    sorted_graph.

(** The byte at which the oracle places object [i], and the byte
    behind its payload, over the integers: the objects are placed
    from the last index down, so an object starts behind the payloads
    of the objects above it. *)
Definition start_of (objs : list object_t) (i : Z) : Z :=
  payload_total (drop (S (Z.to_nat i)) objs).

Definition end_of (objs : list object_t) (i : Z) : Z :=
  payload_total (drop (Z.to_nat i) objs).

(** The offset a link of object [parent_idx] encodes in that
    placement, over the integers. *)
Definition encoded_offset (objs : list object_t) (parent_idx : Z)
    (link : link_t) : Z :=
  match whence link with
  | Head => start_of objs (objidx link) - start_of objs parent_idx
  | Tail => start_of objs (objidx link) - end_of objs parent_idx
  | Absolute => start_of objs (objidx link)
  end - bias link.

(** The state of the loop of [compute_distances] while no distance it
    reads back is cut by the [int] it is read into: the objects
    visited are no farther than the objects still to visit, and over
    every link of a visited object the distance of the child is at
    most that of the parent plus the weight of the link. *)
Record relaxed_inv (objs : list object_t) (unvisited : list Z)
    (distance_to : list Z) : Prop := mk_relaxed_inv {
  ri_length : vec_length distance_to = vec_length objs;
  ri_range : ∀ y, y ∈ unvisited → 0 <= y < vec_length objs;
  ri_nonneg : ∀ v, 0 <= dist_get distance_to v;
  ri_order : ∀ u v, 0 <= u < vec_length objs → u ∉ unvisited →
                    v ∈ unvisited →
                    dist_get distance_to u <= dist_get distance_to v;
  ri_links : ∀ p l, 0 <= p < vec_length objs → p ∉ unvisited →
                    l ∈ links (vec_get objs p) →
                    dist_get distance_to (objidx l)
                    <= dist_get distance_to p + link_weight objs l
}.

(** An [hb_set_t] is iterated in increasing order. *)
Fixpoint increasing (s : list Z) : Prop :=
  match s with
  | [] => True
  | x :: s' => (∀ y, y ∈ s' → x < y) ∧ increasing s'
  end.

(** Every object of [popped] was, when it was taken, the nearest of
    the objects that were ready and not yet taken, and the one with
    the lowest index among the nearest. *)
Definition nearest_first (objs : list object_t) (distance_to : list Z)
    (popped : list Z) : Prop :=
  ∀ before a after b,
    popped = before ++ a :: after →
    0 <= b < vec_length objs → b ∉ before ++ [a] →
    remaining objs before b = 0 →
    dist_get distance_to a <= dist_get distance_to b
    ∧ (dist_get distance_to a = dist_get distance_to b → a < b).

(** Object [a] was ready no later than object [b]: at every moment
    at which all parents of [b] had been taken, all parents of [a]
    had been taken as well. *)
Definition ready_before (objs : list object_t) (popped : list Z) (a b : Z)
    : Prop :=
  ∀ k : nat, (∀ p, edge objs p b → p ∈ take k popped) →
             (∀ p, edge objs p a → p ∈ take k popped).

(** The objects taken and the objects in the queue stand in the order
    in which they became ready. *)
Definition ready_order (objs : list object_t) (popped queue : list Z)
    : Prop :=
  ∀ (i j : nat) a b,
    (popped ++ queue) !! i = Some a → (popped ++ queue) !! j = Some b →
    (i < j)%nat → ready_before objs popped a b.

(** * Properties *)

(** ** Machine integers *)

Lemma wrap_u32_id z : 0 <= z < 2 ^ 32 → wrap_u32 z = z.
Proof. intros H. unfold wrap_u32. apply Z.mod_small. lia. Qed.

Lemma wrap_u32_range z : 0 <= wrap_u32 z < 2 ^ 32.
Proof. unfold wrap_u32. apply Z.mod_pos_bound. lia. Qed.

Lemma wrap_s32_id z : - 2 ^ 31 <= z < 2 ^ 31 → wrap_s32 z = z.
Proof. intros H. unfold wrap_s32. rewrite Z.mod_small; lia. Qed.

Lemma wrap_s32_range z : - 2 ^ 31 <= wrap_s32 z < 2 ^ 31.
Proof.
  unfold wrap_s32.
  pose proof (Z.mod_pos_bound (z + 2 ^ 31) (2 ^ 32)). lia.
Qed.

Lemma wrap_s64_id z : - 2 ^ 63 <= z < 2 ^ 63 → wrap_s64 z = z.
Proof. intros H. unfold wrap_s64. rewrite Z.mod_small; lia. Qed.

Lemma wrap_s64_range z : - 2 ^ 63 <= wrap_s64 z < 2 ^ 63.
Proof.
  unfold wrap_s64.
  pose proof (Z.mod_pos_bound (z + 2 ^ 63) (2 ^ 64)). lia.
Qed.

(** Decrementing and incrementing an [unsigned] cancel. *)
Lemma wrap_u32_pred_succ z :
  0 <= z < 2 ^ 32 → wrap_u32 (wrap_u32 (z - 1) + 1) = z.
Proof.
  intros H. unfold wrap_u32.
  rewrite Zplus_mod_idemp_l. replace (z - 1 + 1) with z by lia.
  apply Z.mod_small. lia.
Qed.

(** ** The fits check (C4) *)

Lemma is_valid_offset_fits offset link :
  is_valid_offset offset link = true ↔ fits link offset.
Proof.
  unfold is_valid_offset, fits.
  destruct (is_signed link), (is_wide link);
    rewrite andb_true_iff, Z.leb_le, Z.ltb_lt; reflexivity.
Qed.

(** C4: [is_valid_offset] accepts an encoded offset exactly when it
    lies in the representable range of the link's width and
    signedness, [-2^15, 2^15) for signed narrow, [-2^31, 2^31) for
    signed wide, [0, 2^16) for unsigned narrow and [0, 2^32) for
    unsigned wide; on a signed narrow link -32768 and 32767 are
    accepted, -32769 and 32768 are not. *)
Theorem is_valid_offset_representable_range :
  (∀ offset link, is_valid_offset offset link = true ↔ fits link offset)
  ∧ (∀ w p b c offset,
       (is_valid_offset offset (mk_link false true w p b c) = true
          ↔ - 2 ^ 15 <= offset < 2 ^ 15)
       ∧ (is_valid_offset offset (mk_link true true w p b c) = true
          ↔ - 2 ^ 31 <= offset < 2 ^ 31)
       ∧ (is_valid_offset offset (mk_link false false w p b c) = true
          ↔ 0 <= offset < 2 ^ 16)
       ∧ (is_valid_offset offset (mk_link true false w p b c) = true
          ↔ 0 <= offset < 2 ^ 32))
  ∧ (∀ w p b c,
       is_valid_offset (-32768) (mk_link false true w p b c) = true
       ∧ is_valid_offset 32767 (mk_link false true w p b c) = true
       ∧ is_valid_offset (-32769) (mk_link false true w p b c) = false
       ∧ is_valid_offset 32768 (mk_link false true w p b c) = false).
Proof.
  split; [exact is_valid_offset_fits|]. split.
  - intros w p b c offset.
    rewrite !is_valid_offset_fits. unfold fits. simpl. tauto.
  - intros w p b c. repeat split; reflexivity.
Qed.

(** ** The oracle leaves the graph alone (C10) *)

Lemma links_overflow_outcome parent_idx ls s e :
  links_overflow parent_idx ls s e = Fatal OffsetUnderflow
  ∨ ∃ b, links_overflow parent_idx ls s e = Ok b.
Proof.
  induction ls as [|l ls IH]; simpl; [right; eauto|].
  unfold compute_offset.
  destruct (_ <? bias l); simpl; [left; reflexivity|].
  destruct (negb _); [right; eauto | exact IH].
Qed.

Lemma objects_overflow_outcome parent_idx objs s e :
  objects_overflow parent_idx objs s e = Fatal OffsetUnderflow
  ∨ ∃ b, objects_overflow parent_idx objs s e = Ok b.
Proof.
  revert parent_idx.
  induction objs as [|o objs IH]; intros parent_idx; simpl; [right; eauto|].
  destruct (links_overflow_outcome parent_idx (links o) s e) as [->|[b ->]];
    simpl; [left; reflexivity|].
  destruct b; [right; eauto | apply IH].
Qed.

Lemma will_overflow_outcome (g : graph_t) :
  will_overflow g = Fatal OffsetUnderflow
  ∨ ∃ b : bool, will_overflow g = Ok (b, g).
Proof.
  unfold will_overflow, mbind, get_objects, lift.
  destruct (layout (objects_ g)) as [s e].
  destruct (objects_overflow_outcome 0 (objects_ g) s e) as [->|[b ->]];
    [left; reflexivity | right; eauto].
Qed.

(** C10: [will_overflow] is a pure query.  Whenever it answers, true or
    false, the graph after the call is the graph before it: the same
    object sequence with the same anchors and the same links; the only
    other outcome is the fatal [OffsetUnderflow], which ends the run. *)
Theorem will_overflow_leaves_graph_unchanged (g : graph_t) :
  will_overflow g = Fatal OffsetUnderflow
  ∨ ∃ b : bool, will_overflow g = Ok (b, g).
Proof. exact (will_overflow_outcome g). Qed.

(** ** Construction (C6) *)

Lemma graph_import_objects i removed_nil objs acc :
  graph_import i removed_nil (map Some objs) acc =
    Ok (acc ++ map (fun o => if removed_nil then decrement_links o else o) objs).
Proof.
  revert i acc. induction objs as [|o objs IH]; intros i acc; simpl.
  - by rewrite app_nil_r.
  - rewrite IH, <- app_assoc. reflexivity.
Qed.

Lemma graph_t_new_nil_first objs :
  graph_t_new (None :: map Some objs) = Ok (mk_graph (map decrement_links objs)).
Proof.
  unfold graph_t_new. simpl. rewrite graph_import_objects. reflexivity.
Qed.

Lemma graph_t_new_object_first o objs :
  graph_t_new (Some o :: map Some objs) = Ok (mk_graph (o :: objs)).
Proof.
  unfold graph_t_new. simpl. rewrite graph_import_objects. simpl.
  by rewrite map_id.
Qed.

(** C6, the claim as stated fails: a packed list with inverted anchors
    and a link position outside the payload, and one with a child
    index out of range, are both accepted; no [InvalidInput] is
    raised. *)
Lemma graph_t_new_accepts_malformed_input :
  (∃ g, graph_t_new inverted_packed = Ok g)
  ∧ (∃ g, graph_t_new dangling_packed = Ok g)
  ∧ graph_t_new inverted_packed ≠ Fatal InvalidInput
  ∧ graph_t_new dangling_packed ≠ Fatal InvalidInput.
Proof. vm_compute. repeat split; eauto; discriminate. Qed.

(** C6 (amended): the constructor validates neither payload anchors nor
    link positions.  For every packed list, led by the nil object or by
    an object and followed by objects, whose child indexes are in
    range, construction succeeds whatever the anchors and the link
    positions are: the objects are copied in order, and behind a nil
    object every child index is lowered by one. *)
Theorem graph_t_new_succeeds (first : option object_t) (objs : list object_t) :
  packed_children_in_range (first :: map Some objs) = true →
  graph_t_new (first :: map Some objs) =
    Ok (mk_graph match first with
                 | None => map decrement_links objs
                 | Some o => o :: objs
                 end).
Proof.
  intros _. destruct first.
  - apply graph_t_new_object_first.
  - apply graph_t_new_nil_first.
Qed.

Lemma graph_t_new_succeeds_witness :
  packed_children_in_range inverted_packed = true
  ∧ graph_t_new inverted_packed =
      Ok (mk_graph [ mk_object 0 4 [];
                     mk_object 8 4 [mk_link false false Head 100 0 0] ]).
Proof.
  split; [reflexivity|].
  exact (graph_t_new_succeeds None
           [mk_object 0 4 []; mk_object 8 4 [mk_link false false Head 100 0 1]]
           eq_refl).
Defined.

Lemma sink_do_ops op c : sink_do op c = mk_sink (ops c ++ [op]) (room c).
Proof. reflexivity. Qed.

Lemma serialize_link_decremented l c :
  0 <= objidx l < 2 ^ 32 →
  serialize_link (set_objidx (wrap_u32 (objidx l - 1)) l) c =
    mk_sink (ops c ++ link_ops l) (room c).
Proof.
  intros H. unfold serialize_link, serialize_link_of_type, link_ops, sink_do.
  simpl. rewrite (wrap_u32_pred_succ _ H).
  destruct (is_wide l), (is_signed l); simpl; by rewrite <- app_assoc.
Qed.

Lemma serialize_links_decremented ls c :
  Forall (fun l => 0 <= objidx l < 2 ^ 32) ls →
  fold_left (fun c link => serialize_link link c)
    (map (fun l => set_objidx (wrap_u32 (objidx l - 1)) l) ls) c =
    mk_sink (ops c ++ flat_map link_ops ls) (room c).
Proof.
  intros H. revert c. induction H as [|l ls Hl _ IH]; intros c; simpl.
  - rewrite app_nil_r. by destruct c.
  - rewrite (serialize_link_decremented _ _ Hl), IH. simpl.
    by rewrite <- app_assoc.
Qed.

Lemma payload_bytes_nonneg objs : 0 <= payload_bytes objs.
Proof.
  induction objs as [|o objs IH]; simpl; [lia|].
  pose proof (Z.mod_pos_bound (tail o - head o) (2 ^ 64)). lia.
Qed.

Lemma serialize_objects_decremented objs c :
  Forall (fun o => Forall (fun l => 0 <= objidx l < 2 ^ 32) (links o)) objs →
  payload_bytes objs <= room c →
  serialize_objects (map decrement_links objs) c =
    (mk_sink (ops c ++ flat_map object_ops objs) (room c - payload_bytes objs),
     true).
Proof.
  intros H. revert c. induction H as [|o objs Ho _ IH]; intros c Hroom; simpl.
  - rewrite app_nil_r, Z.sub_0_r. by destruct c.
  - simpl in Hroom. pose proof (payload_bytes_nonneg objs) as Hnn.
    pose proof (Z.mod_pos_bound (tail o - head o) (2 ^ 64)) as Hsz.
    unfold sink_allocate. simpl.
    destruct (Z.leb_spec ((tail o - head o) mod 2 ^ 64) (room c)); [|lia].
    simpl. rewrite (serialize_links_decremented _ _ Ho). simpl.
    rewrite IH by (simpl; lia). simpl. f_equal. f_equal.
    + unfold object_ops. rewrite <- !app_assoc. reflexivity.
    + lia.
Qed.

(** C9: the sentinel adjustment round-trips.  Importing a packed list
    led by the nil object drops the nil object and lowers every child
    index by one (as an [unsigned]); re-emitting the imported graph in
    its order clears, for every link, the field at the link's position
    over the link's width and then registers the link with one added
    back, which is the child index the link had in the packed list. *)
Theorem sentinel_adjustment_round_trip (objs : list object_t) (c : sink) :
  Forall (fun o => Forall (fun l => 0 <= objidx l < 2 ^ 32) (links o)) objs →
  payload_bytes objs <= room c →
  ∃ g,
    graph_t_new (None :: map Some objs) = Ok g
    ∧ objects_ g =
        map (fun o =>
               mk_object (head o) (tail o)
                 (map (fun l => set_objidx (wrap_u32 (objidx l - 1)) l)
                    (links o))) objs
    ∧ serialize c g =
        Ok (mk_sink (ops c ++ [start_serialize] ++ flat_map object_ops objs
                     ++ [end_serialize])
              (room c - payload_bytes objs), g).
Proof.
  intros Hidx Hroom. eexists. split; [apply graph_t_new_nil_first|].
  split; [reflexivity|].
  unfold serialize, mbind, get_objects. simpl.
  rewrite (serialize_objects_decremented _ _ Hidx) by exact Hroom.
  unfold mret, sink_do. simpl. rewrite <- !app_assoc. reflexivity.
Qed.

Lemma sentinel_adjustment_round_trip_witness :
  ∃ g,
    graph_t_new chain_packed = Ok g
    ∧ map (fun o => map objidx (links o)) (objects_ g) = [[]; [0]; [1]]
    ∧ ∃ c, serialize (mk_sink [] 100) g = Ok (c, g)
           ∧ ops c =
               [ start_serialize;
                 push; allocate_size 10 true; memcpy 120 10; pop_pack false;
                 push; allocate_size 10 true; memcpy 110 10;
                 store_zero 0 2; add_link 0 2 false 1 Head 0; pop_pack false;
                 push; allocate_size 10 true; memcpy 100 10;
                 store_zero 0 2; add_link 0 2 false 2 Head 0; pop_pack false;
                 end_serialize ].
Proof.
  destruct (sentinel_adjustment_round_trip
              [ mk_object 120 130 [];
                mk_object 110 120 [narrow_unsigned 1];
                mk_object 100 110 [narrow_unsigned 2] ]
              (mk_sink [] 100)) as (g & Hg & Hobjs & Hser).
  - repeat constructor; simpl; lia.
  - vm_compute. discriminate.
  - exists g. split; [exact Hg|]. split; [rewrite Hobjs; reflexivity|].
    eexists. split; [exact Hser|]. reflexivity.
Defined.

(** ** hb_map_t and hb_set_t *)

Lemma hb_map_get_empty k : hb_map.get ∅ k = hb_map.INVALID.
Proof. unfold hb_map.get. by rewrite lookup_empty. Qed.

Lemma hb_map_get_set_eq k v m :
  k ≠ hb_map.INVALID → hb_map.get (hb_map.set k v m) k = v.
Proof.
  intros Hk. unfold hb_map.get, hb_map.set.
  destruct (Z.eqb_spec k hb_map.INVALID); [done|].
  destruct (Z.eqb_spec v hb_map.INVALID) as [->|].
  - by rewrite lookup_delete_eq.
  - by rewrite lookup_insert_eq.
Qed.

Lemma hb_map_get_set_ne k k' v m :
  k' ≠ k → hb_map.get (hb_map.set k v m) k' = hb_map.get m k'.
Proof.
  intros Hk. unfold hb_map.get, hb_map.set.
  destruct (Z.eqb_spec k hb_map.INVALID); [done|].
  destruct (Z.eqb_spec v hb_map.INVALID).
  - by rewrite lookup_delete_ne.
  - by rewrite lookup_insert_ne.
Qed.

Lemma hb_map_has_get m k :
  hb_map.has m k = true ↔ hb_map.get m k ≠ hb_map.INVALID.
Proof.
  unfold hb_map.has. rewrite negb_true_iff, Z.eqb_neq. reflexivity.
Qed.

Lemma hb_map_has_false m k :
  hb_map.has m k = false ↔ hb_map.get m k = hb_map.INVALID.
Proof.
  unfold hb_map.has. rewrite negb_false_iff, Z.eqb_eq. reflexivity.
Qed.

Lemma hb_set_elem_of_insert_sorted x y s :
  y ∈ hb_set.insert_sorted x s ↔ y = x ∨ y ∈ s.
Proof.
  induction s as [|z s IH]; simpl.
  - rewrite list_elem_of_singleton, elem_of_nil. tauto.
  - destruct (Z.ltb_spec x z).
    + rewrite !elem_of_cons. tauto.
    + destruct (Z.eqb_spec x z) as [->|].
      * rewrite !elem_of_cons. tauto.
      * rewrite !elem_of_cons, IH. tauto.
Qed.

Lemma hb_set_NoDup_insert_sorted x s :
  x ∉ s → NoDup s → NoDup (hb_set.insert_sorted x s).
Proof.
  intros Hx Hs. induction Hs as [|z s Hz Hs IH]; simpl.
  - apply NoDup_singleton.
  - apply not_elem_of_cons in Hx as [Hxz Hx].
    destruct (Z.ltb_spec x z).
    + apply NoDup_cons. split; [|by apply NoDup_cons].
      rewrite elem_of_cons. tauto.
    + destruct (Z.eqb_spec x z); [done|].
      apply NoDup_cons. split; [|by apply IH].
      rewrite hb_set_elem_of_insert_sorted. intros [->|]; done.
Qed.

Lemma hb_set_elem_of_add x y s :
  x ≠ hb_set.INVALID → y ∈ hb_set.add x s ↔ y = x ∨ y ∈ s.
Proof.
  intros Hx. unfold hb_set.add. destruct (Z.eqb_spec x hb_set.INVALID); [done|].
  apply hb_set_elem_of_insert_sorted.
Qed.

Lemma hb_set_NoDup_add x s :
  x ∉ s → NoDup s → NoDup (hb_set.add x s).
Proof.
  intros Hx Hs. unfold hb_set.add. destruct (x =? hb_set.INVALID); [done|].
  by apply hb_set_NoDup_insert_sorted.
Qed.

Lemma hb_set_elem_of_del x y s : y ∈ hb_set.del x s ↔ y ∈ s ∧ y ≠ x.
Proof.
  unfold hb_set.del. rewrite !list_elem_of_In, filter_In.
  rewrite negb_true_iff, Z.eqb_neq. reflexivity.
Qed.

Lemma hb_set_NoDup_del x s : NoDup s → NoDup (hb_set.del x s).
Proof.
  unfold hb_set.del. induction 1 as [|z s Hz Hs IH]; simpl; [constructor|].
  destruct (negb (z =? x)); [|exact IH].
  apply NoDup_cons. split; [|exact IH].
  intros Hin. apply Hz. apply list_elem_of_In in Hin.
  apply filter_In in Hin as [Hin _]. by apply list_elem_of_In.
Qed.

Lemma hb_set_length_del x s :
  x ∈ s → (length (hb_set.del x s) < length s)%nat.
Proof.
  unfold hb_set.del. induction s as [|z s IH]; intros Hx.
  - by apply elem_of_nil in Hx.
  - simpl. destruct (Z.eqb_spec z x) as [->|Hne]; simpl.
    + pose proof (filter_length_le (fun y => negb (y =? x)) s). lia.
    + apply elem_of_cons in Hx as [->|Hx]; [done|].
      specialize (IH Hx). lia.
Qed.

Lemma hb_set_has_true s x : hb_set.has s x = true ↔ x ∈ s.
Proof.
  unfold hb_set.has. rewrite existsb_exists. split.
  - intros (y & Hy & Heq). apply Z.eqb_eq in Heq as ->.
    by apply list_elem_of_In.
  - intros Hx. exists x. split; [by apply list_elem_of_In | apply Z.eqb_refl].
Qed.

Lemma hb_set_add_range_from (len : nat) a acc :
  a + Z.of_nat len <= hb_set.INVALID →
  (∀ y, y ∈ acc → y < a) → NoDup acc →
  let r := fold_left (fun acc x => hb_set.add x acc) (seqZ a (Z.of_nat len)) acc in
  NoDup r ∧ ∀ y, y ∈ r ↔ y ∈ acc ∨ a <= y < a + Z.of_nat len.
Proof.
  revert a acc. induction len as [|len IH]; intros a acc Ha Hacc Hnd; simpl.
  - split; [done|]. intros y. split; [tauto | intros [|]; [done | lia]].
  - rewrite seqZ_cons by lia. simpl.
    replace (Z.pred (Z.of_nat (S len))) with (Z.of_nat len) by lia.
    assert (a ≠ hb_set.INVALID) as Hne by (unfold hb_set.INVALID in *; lia).
    assert (a ∉ acc) as Hnin by (intros Hin; apply Hacc in Hin; lia).
    destruct (IH (Z.succ a) (hb_set.add a acc)) as [Hnd' Hmem].
    + lia.
    + intros y Hy. apply (hb_set_elem_of_add _ _ _ Hne) in Hy as [->|Hy]; [lia|].
      apply Hacc in Hy. lia.
    + by apply hb_set_NoDup_add.
    + split; [exact Hnd'|]. intros y. rewrite Hmem.
      rewrite (hb_set_elem_of_add _ _ _ Hne).
      split.
      * intros [[->|Hy]|Hy]; [right; lia | by left | right; lia].
      * intros [Hy|Hy]; [left; by right|].
        destruct (decide (y = a)) as [->|]; [left; by left | right; lia].
Qed.

Lemma hb_set_add_range n :
  0 <= n - 1 → n <= hb_set.INVALID →
  NoDup (hb_set.add_range 0 (n - 1) [])
  ∧ ∀ y, y ∈ hb_set.add_range 0 (n - 1) [] ↔ 0 <= y < n.
Proof.
  intros Hn Hle. unfold hb_set.add_range.
  replace (n - 1 - 0 + 1) with (Z.of_nat (Z.to_nat n)) by lia.
  destruct (hb_set_add_range_from (Z.to_nat n) 0 []) as [Hnd Hmem].
  - lia.
  - intros y Hy. by apply elem_of_nil in Hy.
  - constructor.
  - split; [exact Hnd|]. intros y. rewrite Hmem, elem_of_nil.
    split; [intros [[]|Hy]; lia | intros Hy; right; lia].
Qed.

(** ** Vectors *)

Lemma vec_get_lookup (v : list object_t) i :
  0 <= i < vec_length v → v !! Z.to_nat i = Some (vec_get v i).
Proof.
  intros Hi. unfold vec_get.
  destruct (Z.leb_spec 0 i); [|lia]. destruct (Z.ltb_spec i (vec_length v)); [|lia].
  simpl. destruct (v !! Z.to_nat i) eqn:E; [done|].
  apply lookup_ge_None in E. unfold vec_length in Hi. lia.
Qed.

Lemma vec_get_outside (v : list object_t) i :
  ¬ (0 <= i < vec_length v) → vec_get v i = Null_object.
Proof.
  intros Hi. unfold vec_get.
  destruct (Z.leb_spec 0 i); [|done]. destruct (Z.ltb_spec i (vec_length v)); [lia|done].
Qed.

Lemma vec_get_of_lookup (v : list object_t) (k : nat) o :
  v !! k = Some o → vec_get v (Z.of_nat k) = o.
Proof.
  intros Hk. pose proof (lookup_lt_Some _ _ _ Hk) as Hlt.
  unfold vec_get, vec_length.
  destruct (Z.leb_spec 0 (Z.of_nat k)); [|lia].
  destruct (Z.ltb_spec (Z.of_nat k) (Z.of_nat (length v))); [|lia].
  simpl. by rewrite Nat2Z.id, Hk.
Qed.

Lemma vec_get_elem_of (v : list object_t) i :
  0 <= i < vec_length v → vec_get v i ∈ v.
Proof.
  intros Hi. eapply list_elem_of_lookup_2. by apply vec_get_lookup.
Qed.

(** ** Edges *)

Lemma edge_parent_in_range objs p c :
  edge objs p c → 0 <= p < vec_length objs.
Proof.
  unfold edge, children. intros H.
  destruct (decide (0 <= p < vec_length objs)) as [|Hout]; [done|].
  rewrite (vec_get_outside _ _ Hout) in H. by apply elem_of_nil in H.
Qed.

Lemma reverse_topological_tc objs a b :
  reverse_topological objs → tc (edge objs) a b → 0 <= b < a.
Proof.
  intros Hrt. induction 1 as [a b Hab|a b c Hab _ IH].
  - by apply Hrt.
  - apply Hrt in Hab. lia.
Qed.

Lemma reverse_topological_acyclic objs :
  reverse_topological objs → acyclic objs.
Proof.
  intros Hrt v Hv. apply (reverse_topological_tc _ _ _ Hrt) in Hv. lia.
Qed.

Lemma reverse_topological_in_range objs :
  reverse_topological objs → links_in_range objs.
Proof.
  intros Hrt p c Hpc. pose proof (edge_parent_in_range _ _ _ Hpc).
  apply Hrt in Hpc. lia.
Qed.

Lemma reverse_topological_from_lookup i objs (k : nat) o l :
  reverse_topological_from i objs = true →
  objs !! k = Some o → l ∈ links o → 0 <= objidx l < i + Z.of_nat k.
Proof.
  revert i k. induction objs as [|o' objs IH]; intros i k Hc Hk Hl; [done|].
  simpl in Hc. apply andb_true_iff in Hc as [Hc1 Hc2].
  destruct k as [|k]; simpl in Hk.
  - injection Hk as ->. rewrite forallb_forall in Hc1.
    apply list_elem_of_In in Hl. apply Hc1 in Hl. lia.
  - specialize (IH _ _ Hc2 Hk Hl). lia.
Qed.

Lemma reverse_topological_from_sound objs :
  reverse_topological_from 0 objs = true → reverse_topological objs.
Proof.
  intros Hc p c Hpc. pose proof (edge_parent_in_range _ _ _ Hpc) as Hp.
  unfold edge, children in Hpc.
  apply list_elem_of_fmap in Hpc as (l & -> & Hl).
  pose proof (reverse_topological_from_lookup 0 objs (Z.to_nat p) _ l Hc
                (vec_get_lookup _ _ Hp) Hl). lia.
Qed.

(** ** Counting links *)

Lemma occ_app v l1 l2 : occ v (l1 ++ l2) = occ v l1 + occ v l2.
Proof. induction l1 as [|x l1 IH]; simpl; lia. Qed.

Lemma occ_nonneg v l : 0 <= occ v l.
Proof. induction l as [|x l IH]; simpl; [lia|]. destruct (x =? v); lia. Qed.

Lemma occ_le_length v l : occ v l <= Z.of_nat (length l).
Proof. induction l as [|x l IH]; simpl; [lia|]. destruct (x =? v); lia. Qed.

Lemma occ_pos v l : 0 < occ v l ↔ v ∈ l.
Proof.
  induction l as [|x l IH]; simpl.
  - rewrite elem_of_nil. lia.
  - rewrite elem_of_cons. pose proof (occ_nonneg v l).
    destruct (Z.eqb_spec x v) as [->|Hne].
    + split; [by left | lia].
    + split.
      * intros Hpos. right. apply IH. lia.
      * intros [->|Hin]; [done|]. apply IH in Hin. lia.
Qed.

Lemma occ_zero v l : occ v l = 0 ↔ v ∉ l.
Proof.
  pose proof (occ_nonneg v l). rewrite <- occ_pos. lia.
Qed.

Lemma occ_Permutation v l1 l2 : l1 ≡ₚ l2 → occ v l1 = occ v l2.
Proof.
  induction 1 as [|x l1 l2 _ IH|x y l|l1 l2 l3 _ IH1 _ IH2]; simpl; lia.
Qed.

Lemma occ_submseteq v l1 l2 : l1 ⊆+ l2 → occ v l1 <= occ v l2.
Proof.
  intros H. apply submseteq_Permutation in H as [k Hk].
  rewrite (occ_Permutation _ _ _ Hk), occ_app. pose proof (occ_nonneg v k). lia.
Qed.

Lemma occ_fmap_inj (f : Z → Z) v l :
  (∀ x, x ∈ l → f x = f v → x = v) → occ (f v) (map f l) = occ v l.
Proof.
  induction l as [|x l IH]; intros Hinj; simpl; [done|].
  rewrite IH by (intros y Hy; apply Hinj; by right).
  destruct (Z.eqb_spec x v) as [->|Hne].
  - by rewrite Z.eqb_refl.
  - destruct (Z.eqb_spec (f x) (f v)) as [Heq|]; [|done].
    apply Hinj in Heq; [done | by left].
Qed.

Lemma flat_map_ext_elem {A B} (f g : A → list B) l :
  (∀ x, x ∈ l → f x = g x) → flat_map f l = flat_map g l.
Proof.
  induction l as [|x l IH]; intros H; simpl; [done|].
  rewrite (H x) by (by left). rewrite IH; [done|].
  intros y Hy. apply H. by right.
Qed.

Lemma children_of_app objs l1 l2 :
  children_of objs (l1 ++ l2) = children_of objs l1 ++ children_of objs l2.
Proof. unfold children_of. apply flat_map_app. Qed.

Lemma children_of_singleton objs x : children_of objs [x] = children objs x.
Proof. unfold children_of. simpl. apply app_nil_r. Qed.

Lemma all_children_app objs1 objs2 :
  all_children (objs1 ++ objs2) = all_children objs1 ++ all_children objs2.
Proof. unfold all_children. apply flat_map_app. Qed.

Lemma vec_get_app_l (l1 l2 : list object_t) i :
  0 <= i < vec_length l1 → vec_get (l1 ++ l2) i = vec_get l1 i.
Proof.
  intros Hi. unfold vec_get, vec_length in *. rewrite length_app.
  destruct (Z.leb_spec 0 i); [|lia].
  destruct (Z.ltb_spec i (Z.of_nat (length l1))); [|lia].
  destruct (Z.ltb_spec i (Z.of_nat (length l1 + length l2))); [|lia].
  simpl. rewrite lookup_app_l by lia. done.
Qed.

Lemma vec_get_app_r (l1 : list object_t) o :
  vec_get (l1 ++ [o]) (vec_length l1) = o.
Proof.
  unfold vec_length. apply vec_get_of_lookup.
  rewrite lookup_app_r by lia. by rewrite Nat.sub_diag.
Qed.

Lemma all_children_children_of objs :
  all_children objs = children_of objs (seqZ 0 (vec_length objs)).
Proof.
  induction objs as [|o objs IH] using rev_ind; [done|].
  unfold vec_length. rewrite length_app. simpl.
  replace (Z.of_nat (length objs + 1)) with (Z.of_nat (length objs) + 1) by lia.
  rewrite seqZ_app by lia. rewrite children_of_app, all_children_app.
  f_equal.
  - rewrite IH. unfold children_of, vec_length.
    apply flat_map_ext_elem. intros i Hi.
    apply elem_of_seqZ in Hi.
    unfold children. rewrite vec_get_app_l; [done | unfold vec_length; lia].
  - rewrite Z.add_0_l. change (seqZ (Z.of_nat (length objs)) 1)
      with [Z.of_nat (length objs)].
    rewrite children_of_singleton. unfold children.
    pose proof (vec_get_app_r objs o) as Hget. unfold vec_length in Hget.
    rewrite Hget. unfold all_children. simpl. by rewrite app_nil_r.
Qed.

Lemma in_range_submseteq n (l : list Z) :
  NoDup l → (∀ x, x ∈ l → 0 <= x < n) → l ⊆+ seqZ 0 n.
Proof.
  intros Hnd Hr. apply NoDup_submseteq; [done|].
  intros x Hx. apply elem_of_seqZ. specialize (Hr x Hx). lia.
Qed.

Lemma in_range_length n (l : list Z) :
  0 <= n → NoDup l → (∀ x, x ∈ l → 0 <= x < n) → Z.of_nat (length l) <= n.
Proof.
  intros Hn Hnd Hr.
  pose proof (submseteq_length _ _ (in_range_submseteq n l Hnd Hr)) as H.
  rewrite length_seqZ in H. lia.
Qed.

Lemma children_of_bound objs parents v :
  NoDup parents → (∀ p, p ∈ parents → 0 <= p < vec_length objs) →
  occ v (children_of objs parents) <= occ v (all_children objs).
Proof.
  intros Hnd Hr. rewrite all_children_children_of.
  apply occ_submseteq. unfold children_of.
  pose proof (in_range_submseteq _ _ Hnd Hr) as Hsub.
  apply submseteq_Permutation in Hsub as [k Hk].
  rewrite Hk, flat_map_app. apply submseteq_inserts_r. done.
Qed.

Lemma remaining_nonneg objs popped v :
  NoDup popped → (∀ p, p ∈ popped → 0 <= p < vec_length objs) →
  0 <= remaining objs popped v.
Proof.
  intros Hnd Hr. unfold remaining.
  pose proof (children_of_bound objs popped v Hnd Hr). lia.
Qed.

Lemma remaining_snoc objs popped x v :
  remaining objs (popped ++ [x]) v
  = remaining objs popped v - occ v (children objs x).
Proof.
  unfold remaining. rewrite children_of_app, occ_app, children_of_singleton. lia.
Qed.

(** An object outside [popped] that links to [v] is counted in what
    remains for [v]. *)
Lemma remaining_unpopped_parent objs popped x v :
  NoDup popped → (∀ p, p ∈ popped → 0 <= p < vec_length objs) →
  x ∉ popped → 0 <= x < vec_length objs →
  occ v (children objs x) <= remaining objs popped v.
Proof.
  intros Hnd Hr Hx Hxr.
  assert (0 <= remaining objs (popped ++ [x]) v) as H.
  { apply remaining_nonneg.
    - apply NoDup_app. split; [done|]. split; [|apply NoDup_singleton].
      intros y Hy Hy'. apply list_elem_of_singleton in Hy' as ->. done.
    - intros p Hp. apply elem_of_app in Hp as [Hp|Hp]; [by apply Hr|].
      apply list_elem_of_singleton in Hp as ->. done. }
  rewrite remaining_snoc in H. lia.
Qed.

(** Where something remains for [v], an object outside [popped] links
    to it. *)
Lemma remaining_pos_parent objs popped v :
  NoDup popped → (∀ p, p ∈ popped → 0 <= p < vec_length objs) →
  0 < remaining objs popped v →
  ∃ p, (p ∉ popped) ∧ edge objs p v.
Proof.
  intros Hnd Hr Hpos. unfold remaining in Hpos.
  rewrite all_children_children_of in Hpos.
  pose proof (in_range_submseteq _ _ Hnd Hr) as Hsub.
  apply submseteq_Permutation in Hsub as [k Hk].
  assert (NoDup (popped ++ k)) as Hnd'.
  { rewrite <- Hk. apply NoDup_seqZ. }
  pose proof (Permutation_flat_map (children objs) Hk) as Hperm.
  unfold children_of in Hpos at 1.
  rewrite (occ_Permutation v _ _ Hperm), flat_map_app, occ_app in Hpos.
  fold (children_of objs popped) in Hpos.
  assert (0 < occ v (flat_map (children objs) k)) as Hk' by lia.
  apply occ_pos in Hk'. apply list_elem_of_In in Hk'.
  apply in_flat_map in Hk' as (p & Hp & Hv).
  exists p. split.
  - apply NoDup_app in Hnd' as (_ & Hdisj & _). intros Hin.
    apply (Hdisj p Hin). by apply list_elem_of_In.
  - by apply list_elem_of_In.
Qed.

(** ** incoming_edge_count *)

Lemma held_count_get m v :
  hb_map.has m v = true → hb_map.get m v = held_count m v.
Proof. intros H. unfold held_count. by rewrite H. Qed.

Lemma count_link_spec out l :
  0 <= objidx l < hb_map.INVALID →
  0 <= held_count out (objidx l) < hb_map.INVALID - 1 →
  (∀ v, held_count (count_link out l) v
        = held_count out v + (if objidx l =? v then 1 else 0))
  ∧ (∀ v, hb_map.has out v = true → hb_map.has (count_link out l) v = true)
  ∧ hb_map.has (count_link out l) (objidx l) = true.
Proof.
  intros Hid Hc. unfold hb_map.INVALID in *.
  assert (objidx l ≠ hb_map.INVALID) as Hne by (unfold hb_map.INVALID; lia).
  unfold count_link. unfold held_count in Hc.
  destruct (hb_map.has out (objidx l)) eqn:Hhas.
  - rewrite wrap_u32_id by lia.
    assert (∀ v, hb_map.get (hb_map.set (objidx l)
                   (hb_map.get out (objidx l) + 1) out) v
                 = if objidx l =? v then hb_map.get out (objidx l) + 1
                   else hb_map.get out v) as Hget.
    { intros v. destruct (Z.eqb_spec (objidx l) v) as [<-|Hv].
      - by apply hb_map_get_set_eq.
      - apply hb_map_get_set_ne. congruence. }
    assert (∀ v, hb_map.has (hb_map.set (objidx l)
                   (hb_map.get out (objidx l) + 1) out) v
                 = if objidx l =? v then true else hb_map.has out v) as Hh.
    { intros v. unfold hb_map.has at 1. rewrite Hget.
      destruct (Z.eqb_spec (objidx l) v); [|done].
      apply negb_true_iff, Z.eqb_neq. unfold hb_map.INVALID. lia. }
    split; [|split].
    + intros v. unfold held_count. rewrite Hh, Hget.
      destruct (Z.eqb_spec (objidx l) v) as [<-|]; [by rewrite Hhas|].
      destruct (hb_map.has out v); lia.
    + intros v Hv. rewrite Hh. by destruct (objidx l =? v).
    + rewrite Hh. by rewrite Z.eqb_refl.
  - assert (∀ v, hb_map.get (hb_map.set (objidx l) 1 out) v
                 = if objidx l =? v then 1 else hb_map.get out v) as Hget.
    { intros v. destruct (Z.eqb_spec (objidx l) v) as [<-|Hv].
      - by apply hb_map_get_set_eq.
      - apply hb_map_get_set_ne. congruence. }
    assert (∀ v, hb_map.has (hb_map.set (objidx l) 1 out) v
                 = if objidx l =? v then true else hb_map.has out v) as Hh.
    { intros v. unfold hb_map.has at 1. rewrite Hget.
      by destruct (Z.eqb_spec (objidx l) v). }
    split; [|split].
    + intros v. unfold held_count. rewrite Hh, Hget.
      destruct (Z.eqb_spec (objidx l) v) as [<-|]; [by rewrite Hhas|].
      destruct (hb_map.has out v); lia.
    + intros v Hv. rewrite Hh. by destruct (objidx l =? v).
    + rewrite Hh. by rewrite Z.eqb_refl.
Qed.

Lemma count_links_spec ls out :
  Forall (fun l => 0 <= objidx l < hb_map.INVALID) ls →
  (∀ v, 0 <= held_count out v) →
  (∀ v, held_count out v + occ v (map objidx ls) < hb_map.INVALID) →
  (∀ v, held_count (fold_left count_link ls out) v
        = held_count out v + occ v (map objidx ls))
  ∧ (∀ v, hb_map.has out v = true →
          hb_map.has (fold_left count_link ls out) v = true).
Proof.
  intros Hids. revert out.
  induction Hids as [|l ls Hl _ IH]; intros out Hnn Hb; simpl.
  - split; [intros v; lia | done].
  - destruct (count_link_spec out l Hl) as (Hc & Hh & _).
    { specialize (Hnn (objidx l)). specialize (Hb (objidx l)). simpl in Hb.
      rewrite Z.eqb_refl in Hb. pose proof (occ_nonneg (objidx l) (map objidx ls)).
      lia. }
    destruct (IH (count_link out l)) as [IHc IHh].
    + intros v. rewrite Hc. specialize (Hnn v). destruct (objidx l =? v); lia.
    + intros v. rewrite Hc. specialize (Hb v). simpl in Hb. lia.
    + split.
      * intros v. rewrite IHc, Hc. lia.
      * intros v Hv. apply IHh, Hh, Hv.
Qed.

Lemma held_count_set_zero out i :
  hb_map.has out i = false → i ≠ hb_map.INVALID →
  (∀ v, held_count (hb_map.set i 0 out) v = held_count out v)
  ∧ (∀ v, hb_map.has out v = true → hb_map.has (hb_map.set i 0 out) v = true)
  ∧ hb_map.has (hb_map.set i 0 out) i = true.
Proof.
  intros Hi Hne.
  assert (∀ v, hb_map.get (hb_map.set i 0 out) v
               = if i =? v then 0 else hb_map.get out v) as Hget.
  { intros v. destruct (Z.eqb_spec i v) as [<-|Hv].
    - by apply hb_map_get_set_eq.
    - apply hb_map_get_set_ne. congruence. }
  assert (∀ v, hb_map.has (hb_map.set i 0 out) v
               = if i =? v then true else hb_map.has out v) as Hh.
  { intros v. unfold hb_map.has at 1. rewrite Hget.
    by destruct (Z.eqb_spec i v). }
  split; [|split].
  - intros v. unfold held_count. rewrite Hh, Hget.
    destruct (Z.eqb_spec i v) as [<-|]; [by rewrite Hi | done].
  - intros v Hv. rewrite Hh. by destruct (i =? v).
  - by rewrite Hh, Z.eqb_refl.
Qed.

Lemma incoming_edge_count_from_spec objs i out :
  0 <= i → i + vec_length objs <= hb_map.INVALID →
  Forall (fun c => 0 <= c < hb_map.INVALID) (all_children objs) →
  (∀ v, 0 <= held_count out v) →
  (∀ v, held_count out v + occ v (all_children objs) < hb_map.INVALID) →
  let r := incoming_edge_count_from i objs out in
  (∀ v, held_count r v = held_count out v + occ v (all_children objs))
  ∧ (∀ v, hb_map.has out v = true → hb_map.has r v = true)
  ∧ (∀ v, i <= v < i + vec_length objs → hb_map.has r v = true).
Proof.
  revert i out. induction objs as [|o objs IH]; intros i out Hi Hlen Hids Hnn Hb r.
  - subst r. simpl. split; [intros v; lia|]. split; [done|].
    unfold vec_length. simpl. lia.
  - subst r. simpl.
    change (all_children (o :: objs))
      with (map objidx (links o) ++ all_children objs) in *.
    apply Forall_app in Hids as [Hids1 Hids2].
    unfold vec_length in Hlen. simpl in Hlen.
    assert (i ≠ hb_map.INVALID) as Hine by lia.
    set (out1 := if hb_map.has out i then out else hb_map.set i 0 out).
    assert ((∀ v, held_count out1 v = held_count out v)
            ∧ (∀ v, hb_map.has out v = true → hb_map.has out1 v = true)
            ∧ hb_map.has out1 i = true) as (H1c & H1h & H1i).
    { subst out1. destruct (hb_map.has out i) eqn:E; [done|].
      by apply held_count_set_zero. }
    destruct (count_links_spec (links o) out1) as [H2c H2h].
    { clear -Hids1. induction (links o) as [|l ls IHl]; [constructor|].
      simpl in Hids1. inversion Hids1; subst. constructor; [done | by apply IHl]. }
    { intros v. rewrite H1c. apply Hnn. }
    { intros v. rewrite H1c. specialize (Hb v). rewrite occ_app in Hb.
      pose proof (occ_nonneg v (all_children objs)). lia. }
    destruct (IH (i + 1) (fold_left count_link (links o) out1)) as (H3c & H3h & H3r).
    + lia.
    + unfold vec_length. lia.
    + done.
    + intros v. rewrite H2c, H1c. specialize (Hnn v).
      pose proof (occ_nonneg v (map objidx (links o))). lia.
    + intros v. rewrite H2c, H1c. specialize (Hb v). rewrite occ_app in Hb. lia.
    + split; [|split].
      * intros v. rewrite H3c, H2c, H1c, occ_app. lia.
      * intros v Hv. apply H3h, H2h, H1h, Hv.
      * intros v Hv. destruct (decide (v = i)) as [->|].
        -- apply H3h, H2h, H1i.
        -- apply H3r. unfold vec_length in *. simpl in Hv. lia.
Qed.

(** The map [incoming_edge_count] builds holds, for every index of
    the graph, the number of links into it. *)
Lemma incoming_edge_count_spec objs v :
  vec_length objs < 2 ^ 31 →
  Z.of_nat (length (all_children objs)) < 2 ^ 32 - 1 →
  links_in_range objs →
  0 <= v < vec_length objs →
  hb_map.get (incoming_edge_count objs ∅) v = occ v (all_children objs).
Proof.
  intros Hlen Hlinks Hrange Hv.
  assert (∀ w, held_count ∅ w = 0) as Hempty.
  { intros w. unfold held_count, hb_map.has. by rewrite hb_map_get_empty. }
  destruct (incoming_edge_count_from_spec objs 0 ∅) as (Hc & _ & Hr).
  - lia.
  - unfold hb_map.INVALID. lia.
  - rewrite all_children_children_of. apply Forall_forall. intros c Hc.
    apply list_elem_of_In, in_flat_map in Hc as (p & _ & Hc).
    apply list_elem_of_In in Hc. apply Hrange in Hc.
    unfold hb_map.INVALID. lia.
  - intros w. rewrite Hempty. lia.
  - intros w. rewrite Hempty. pose proof (occ_le_length w (all_children objs)).
    unfold hb_map.INVALID. lia.
  - unfold incoming_edge_count. rewrite held_count_get by (apply Hr; lia).
    rewrite Hc, Hempty. lia.
Qed.

(** ** The sort loops are instances of the generic loop *)

Lemma kahn_visit_fold ls acc :
  fold_left kahn_visit ls acc
  = fold_left (visit_child fifo_push) (map objidx ls) acc.
Proof.
  revert acc. induction ls as [|l ls IH]; intros acc; simpl; [done|].
  rewrite IH. f_equal.
Qed.

Lemma dist_visit_fold ls acc :
  fold_left dist_visit ls acc
  = fold_left (visit_child hb_set.add) (map objidx ls) acc.
Proof.
  revert acc. induction ls as [|l ls IH]; intros acc; simpl; [done|].
  rewrite IH. f_equal.
Qed.

Lemma sort_kahn_loop_generic fuel objs st :
  sort_kahn_loop fuel objs st = sort_loop fifo_pick fifo_push fuel objs st.
Proof.
  revert st. induction fuel as [|fuel IH]; intros st; simpl.
  - by destruct (st_queue st).
  - destruct (st_queue st) as [|x q] eqn:Hq; [done|].
    unfold sort_round. rewrite Hq. simpl. rewrite kahn_visit_fold.
    destruct (fold_left _ _ _) as [ec q']. simpl. apply IH.
Qed.

Lemma sort_shortest_distance_loop_generic fuel objs distance_to st :
  sort_shortest_distance_loop fuel objs distance_to st
  = sort_loop (closest_pick distance_to) hb_set.add fuel objs st.
Proof.
  revert st. induction fuel as [|fuel IH]; intros st; simpl.
  - by destruct (st_queue st).
  - destruct (st_queue st) as [|x q] eqn:Hq; [done|]. simpl.
    unfold sort_round, closest_pick. rewrite Hq.
    destruct (closest_object (x :: q) distance_to) as [next_id| | |]; simpl;
      try done.
    rewrite dist_visit_fold.
    destruct (fold_left _ _ _) as [ec q']. simpl. apply IH.
Qed.

(** ** One round of a sort loop keeps the invariant *)

Section sort_correct.

Context (objs : list object_t).
Local Abbreviation n := (vec_length objs).
Local Abbreviation root := (vec_length objs - 1).

Hypothesis Hlen : 1 <= n < 2 ^ 31.
Hypothesis Hlinks : Z.of_nat (length (all_children objs)) < 2 ^ 32 - 1.
Hypothesis Hrange : links_in_range objs.
Hypothesis Hroot : ¬ tc (edge objs) root root.

Context (pick : list Z → result (Z * list Z)) (push : Z → list Z → list Z).
Hypothesis Hpick : pick_spec n pick.
Hypothesis Hpush : push_spec n push.

Lemma remaining_upper popped v : remaining objs popped v < 2 ^ 32 - 1.
Proof.
  unfold remaining. pose proof (occ_le_length v (all_children objs)).
  pose proof (occ_nonneg v (children_of objs popped)). lia.
Qed.

Lemma no_edge_to_root_from_reachable x :
  rtc (edge objs) root x → ¬ edge objs x root.
Proof.
  intros Hreach Hedge. apply Hroot.
  eapply tc_rtc_l; [exact Hreach|]. by apply tc_once.
Qed.

Lemma visit_children_spec (popped : list Z) x (q0 : list Z) :
  NoDup popped → (∀ p, p ∈ popped → 0 <= p < n) →
  x ∉ popped → 0 <= x < n → rtc (edge objs) root x →
  (∀ y, y ∈ q0 → y ≠ root → remaining objs popped y = 0) →
  ∀ (cs done : list Z) ec (q : list Z),
    children objs x = done ++ cs →
    (∀ v, 0 <= v < n →
          hb_map.get ec v = remaining objs popped v - occ v done) →
    NoDup q →
    (∀ y, y ∈ q ↔ y ∈ q0 ∨ (y ∈ done
                            ∧ remaining objs popped y - occ y done = 0)) →
    let r := fold_left (visit_child push) cs (ec, q) in
    (∀ v, 0 <= v < n →
          hb_map.get (fst r) v
          = remaining objs popped v - occ v (children objs x))
    ∧ NoDup (snd r)
    ∧ (∀ y, y ∈ snd r ↔
            y ∈ q0 ∨ (y ∈ children objs x
                      ∧ remaining objs popped y
                        - occ y (children objs x) = 0)).
Proof.
  intros Hnd Hpr Hx Hxr Hreach Hq0.
  induction cs as [|c cs IH]; intros done ec q Hsplit Hec Hq Hmem r.
  - subst r. simpl. rewrite app_nil_r in Hsplit. rewrite Hsplit. done.
  - subst r. simpl.
    assert (edge objs x c) as Hedge.
    { unfold edge. rewrite Hsplit. apply elem_of_app. right. by left. }
    pose proof (Hrange _ _ Hedge) as Hcr.
    assert (c ≠ root) as Hcroot.
    { intros ->. by apply (no_edge_to_root_from_reachable x). }
    pose proof (remaining_unpopped_parent objs popped x c Hnd Hpr Hx Hxr) as Hocc.
    rewrite Hsplit, occ_app in Hocc. simpl in Hocc. rewrite Z.eqb_refl in Hocc.
    pose proof (occ_nonneg c cs) as Hcs. pose proof (occ_nonneg c done) as Hdn.
    pose proof (remaining_upper popped c) as Hup.
    pose proof (Hec c Hcr) as Hgetc.
    assert (c ≠ hb_map.INVALID) as Hcne by (unfold hb_map.INVALID; lia).
    assert (c ∉ q) as Hcq.
    { intros Hin. apply Hmem in Hin as [Hin|[_ Hzero]]; [|lia].
      specialize (Hq0 c Hin Hcroot). lia. }
    set (ec1 := hb_map.set c (wrap_u32 (hb_map.get ec c - 1)) ec).
    assert (∀ v, 0 <= v < n →
                 hb_map.get ec1 v
                 = remaining objs popped v - occ v (done ++ [c])) as Hec1.
    { intros v Hv. subst ec1. rewrite occ_app. simpl.
      destruct (Z.eqb_spec c v) as [<-|Hne].
      - rewrite hb_map_get_set_eq by done. rewrite wrap_u32_id by lia. lia.
      - rewrite hb_map_get_set_ne by congruence. rewrite (Hec v Hv). lia. }
    assert (children objs x = (done ++ [c]) ++ cs) as Hsplit'.
    { rewrite Hsplit, <- app_assoc. done. }
    unfold visit_child. fold ec1.
    destruct (Hpush c q Hcr) as [Hpm Hpn].
    destruct (Z.eqb_spec (hb_map.get ec1 c) 0) as [Hzero|Hnz].
    + apply (IH (done ++ [c]) ec1 (push c q) Hsplit' Hec1 (Hpn Hcq Hq)).
      intros y. rewrite Hpm, Hmem, elem_of_app, list_elem_of_singleton, occ_app.
      simpl. rewrite (Hec1 c Hcr), occ_app in Hzero. simpl in Hzero.
      rewrite Z.eqb_refl in Hzero.
      destruct (Z.eqb_spec c y) as [<-|Hne].
      * split; [intros _; right; split; [by right | lia] | intros _; by left].
      * split.
        -- intros [->|[Hy|[Hy Hz]]]; [done | by left|].
           right. split; [by left | lia].
        -- intros [Hy|[[Hy| ->] Hz]]; [right; by left | | done].
           right. right. split; [done | lia].
    + apply (IH (done ++ [c]) ec1 q Hsplit' Hec1 Hq).
      intros y. rewrite Hmem, elem_of_app, list_elem_of_singleton, occ_app.
      simpl. rewrite (Hec1 c Hcr), occ_app in Hnz. simpl in Hnz.
      rewrite Z.eqb_refl in Hnz.
      destruct (Z.eqb_spec c y) as [<-|Hne].
      * split; [intros [Hy|[Hy Hz]]; [by left | lia] | intros [Hy|[_ Hz]]; [by left | lia]].
      * split.
        -- intros [Hy|[Hy Hz]]; [by left|]. right. split; [by left | lia].
        -- intros [Hy|[[Hy| ->] Hz]]; [by left | | done].
           right. split; [done | lia].
Qed.

Lemma sort_inv_popped_NoDup popped st :
  sort_inv objs popped st → NoDup popped.
Proof. intros [Hnd]. by apply NoDup_app in Hnd as (? & _ & _). Qed.

Lemma sort_inv_popped_range popped st p :
  sort_inv objs popped st → p ∈ popped → 0 <= p < n.
Proof.
  intros Hinv Hp. apply (inv_range _ _ _ Hinv). apply elem_of_app. by left.
Qed.

Lemma sort_inv_length popped st :
  sort_inv objs popped st →
  Z.of_nat (length popped) + Z.of_nat (length (st_queue st)) <= n.
Proof.
  intros Hinv.
  pose proof (in_range_length n (popped ++ st_queue st)) as H.
  rewrite length_app in H. rewrite <- Nat2Z.inj_add.
  apply H; [lia | apply Hinv | apply Hinv].
Qed.

Lemma sort_round_inv popped st :
  sort_inv objs popped st → st_queue st ≠ [] →
  ∃ x st',
    sort_round pick push objs st = Ok st'
    ∧ x ∈ st_queue st
    ∧ sort_inv objs (popped ++ [x]) st'
    ∧ (sort_complete objs popped st → sort_complete objs (popped ++ [x]) st').
Proof.
  intros Hinv Hne.
  pose proof (sort_inv_popped_NoDup _ _ Hinv) as Hpnd.
  pose proof (fun p => sort_inv_popped_range _ _ p Hinv) as Hprange.
  pose proof (sort_inv_length _ _ Hinv) as Hlength.
  destruct Hinv as [Hnd Hr Hfirst Hsorted Hnew Hidin Hidout Hcount Hready
                      Hreach Horder].
  apply NoDup_app in Hnd as (_ & Hdisj & Hqnd).
  destruct (Hpick (st_queue st) Hne Hqnd) as (x & q0 & Hpk & Hxq & Hq0nd & Hq0).
  { intros y Hy. apply Hr, elem_of_app. by right. }
  assert (x ∉ popped) as Hxp.
  { intros Hin. by apply (Hdisj x Hin). }
  assert (0 <= x < n) as Hxr by (apply Hr, elem_of_app; by right).
  assert (rtc (edge objs) root x) as Hxreach
    by (apply Hreach, elem_of_app; by right).
  assert (length (st_queue st) ≠ 0%nat) as Hqlen
    by (destruct (st_queue st); [done | simpl; lia]).
  assert (NoDup (popped ++ [x])) as Hnd'.
  { apply NoDup_app. split; [done|]. split; [|apply NoDup_singleton].
    intros y Hy Hy'. apply list_elem_of_singleton in Hy' as ->. done. }
  assert (∀ p, p ∈ popped ++ [x] → 0 <= p < n) as Hr'.
  { intros p Hp. apply elem_of_app in Hp as [Hp|Hp]; [by apply Hprange|].
    by apply list_elem_of_singleton in Hp as ->. }
  assert (∀ y, y ∈ q0 → y ≠ root → remaining objs popped y = 0) as Hq0ready.
  { intros y Hy Hyr. apply Hready; [|done]. apply elem_of_app. right.
    by apply Hq0. }
  destruct (visit_children_spec popped x q0 Hpnd Hprange Hxp Hxr Hxreach
              Hq0ready (children objs x) [] (st_edge_count st) q0)
    as (Hec & Hqnd' & Hqmem).
  { done. }
  { intros v Hv. rewrite (Hcount v Hv). simpl. lia. }
  { done. }
  { intros y. rewrite elem_of_nil. tauto. }
  set (r := fold_left (visit_child push) (children objs x)
              (st_edge_count st, q0)) in *.
  assert (∀ y, y ∈ children objs x → y ≠ root ∧ 0 <= y < n
               ∧ 0 < remaining objs popped y ∧ y ≠ x) as Hchild.
  { intros y Hy. split; [|split; [|split]].
    - intros ->. by apply (no_edge_to_root_from_reachable x).
    - by apply (Hrange x).
    - pose proof (remaining_unpopped_parent objs popped x y Hpnd Hprange
                    Hxp Hxr). apply occ_pos in Hy. lia.
    - intros ->. destruct (decide (x = root)) as [Hxroot|Hxroot].
      + rewrite Hxroot in Hy.
        by apply (no_edge_to_root_from_reachable root).
      + pose proof (remaining_unpopped_parent objs popped x x Hpnd Hprange
                      Hxp Hxr) as Hle.
        apply occ_pos in Hy.
        rewrite (Hready x) in Hle; [lia | apply elem_of_app; by right | done]. }
  exists x, (mk_state (snd r) (st_sorted_graph st ++ [vec_get objs x])
               (hb_map.set x (wrap_u32 (st_new_id st)) (st_id_map st))
               (fst r) (wrap_s32 (st_new_id st - 1))).
  split; [|split; [done|split]].
  - unfold sort_round. rewrite Hpk. simpl. reflexivity.
  - constructor; simpl.
    + apply NoDup_app. split; [done|]. split; [|done].
      intros y Hy Hy'. apply Hqmem in Hy' as [Hy'|[Hy' _]].
      * apply Hq0 in Hy' as [Hy' Hyx].
        apply elem_of_app in Hy as [Hy|Hy]; [by apply (Hdisj y)|].
        by apply list_elem_of_singleton in Hy.
      * destruct (Hchild y Hy') as (Hyroot & _ & Hpos & Hyx).
        apply elem_of_app in Hy as [Hy|Hy].
        -- assert (remaining objs popped y = 0); [|lia].
           apply Hready; [|done]. apply elem_of_app. by left.
        -- by apply list_elem_of_singleton in Hy.
    + intros v Hv. apply elem_of_app in Hv as [Hv|Hv]; [by apply Hr'|].
      apply Hqmem in Hv as [Hv|[Hv _]].
      * apply Hr, elem_of_app. right. by apply Hq0.
      * by apply Hchild.
    + destruct popped as [|v popped']; simpl in *; [|done].
      rewrite Hfirst in Hxq. by apply list_elem_of_singleton in Hxq.
    + rewrite Hsorted, map_app. done.
    + rewrite Hnew, length_app. simpl. rewrite wrap_s32_id; lia.
    + intros i v Hi.
      assert (x ≠ hb_map.INVALID) as Hxne by (unfold hb_map.INVALID; lia).
      apply lookup_app_Some in Hi as [Hi|[Hge Hi]].
      * rewrite hb_map_get_set_ne; [by apply Hidin|].
        intros ->. apply Hxp. by eapply list_elem_of_lookup_2.
      * apply list_lookup_singleton_Some in Hi as [Hi <-].
        rewrite hb_map_get_set_eq by done. rewrite Hnew.
        rewrite wrap_u32_id by lia. lia.
    + intros v Hv. apply not_elem_of_app in Hv as [Hv Hvx].
      rewrite hb_map_get_set_ne; [by apply Hidout|].
      intros ->. apply Hvx. by left.
    + intros v Hv. rewrite remaining_snoc. by apply Hec.
    + intros v Hv Hvroot. rewrite remaining_snoc.
      pose proof (remaining_nonneg objs (popped ++ [x]) v Hnd' Hr') as Hnn.
      rewrite remaining_snoc in Hnn.
      assert (v ∈ popped ++ st_queue st → remaining objs popped v
                - occ v (children objs x) = 0) as Hold.
      { intros Hin. rewrite (Hready v Hin Hvroot) in *.
        pose proof (occ_nonneg v (children objs x)). lia. }
      apply elem_of_app in Hv as [Hv|Hv].
      * apply Hold. apply elem_of_app in Hv as [Hv|Hv].
        -- apply elem_of_app. by left.
        -- apply list_elem_of_singleton in Hv as ->. apply elem_of_app. by right.
      * apply Hqmem in Hv as [Hv|[_ Hv]]; [|done].
        apply Hold, elem_of_app. right. by apply Hq0.
    + intros v Hv. apply elem_of_app in Hv as [Hv|Hv].
      * apply elem_of_app in Hv as [Hv|Hv].
        -- apply Hreach, elem_of_app. by left.
        -- by apply list_elem_of_singleton in Hv as ->.
      * apply Hqmem in Hv as [Hv|[Hv _]].
        -- apply Hreach, elem_of_app. right. by apply Hq0.
        -- by eapply rtc_r.
    + intros i c p Hi Hcroot Hedge.
      apply lookup_app_Some in Hi as [Hi|[Hge Hi]].
      * destruct (Horder i c p Hi Hcroot Hedge) as (j & Hj & Hpj).
        exists j. split; [done|]. by apply lookup_app_l_Some.
      * apply list_lookup_singleton_Some in Hi as [Hi <-].
        assert (p ∈ popped) as Hp.
        { destruct (decide (p ∈ popped)) as [|Hnp]; [done|].
          pose proof (edge_parent_in_range _ _ _ Hedge) as Hpr.
          pose proof (remaining_unpopped_parent objs popped p x Hpnd Hprange
                        Hnp Hpr) as Hle.
          apply occ_pos in Hedge.
          rewrite Hready in Hle; [lia | | done].
          apply elem_of_app. by right. }
        apply list_elem_of_lookup_1 in Hp as [j Hj].
        exists j. split.
        -- apply lookup_lt_Some in Hj. lia.
        -- by apply lookup_app_l_Some.
  - intros Hcomplete v Hv Hvp Hzero. simpl.
    apply not_elem_of_app in Hvp as [Hvp Hvx].
    rewrite remaining_snoc in Hzero. apply Hqmem.
    destruct (decide (remaining objs popped v = 0)) as [Hz|Hnz].
    + left. apply Hq0. split; [by apply Hcomplete|].
      intros ->. apply Hvx. by left.
    + right. split; [|done]. apply occ_pos.
      pose proof (remaining_nonneg objs popped v Hpnd Hprange). lia.
Qed.

Lemma sort_loop_inv fuel popped st :
  sort_inv objs popped st →
  n <= Z.of_nat (length popped) + Z.of_nat fuel →
  ∃ popped' st',
    sort_loop pick push fuel objs st = Ok st'
    ∧ st_queue st' = []
    ∧ sort_inv objs popped' st'
    ∧ (sort_complete objs popped st → sort_complete objs popped' st').
Proof.
  revert popped st. induction fuel as [|fuel IH]; intros popped st Hinv Hfuel.
  - pose proof (sort_inv_length _ _ Hinv) as Hlength.
    destruct (st_queue st) as [|x q] eqn:Hq.
    + exists popped, st. simpl. rewrite Hq. done.
    + simpl in Hlength. lia.
  - destruct (st_queue st) as [|x q] eqn:Hq.
    + exists popped, st. simpl. rewrite Hq. done.
    + destruct (sort_round_inv popped st Hinv) as (y & st' & Hround & _ & Hinv' & Hc).
      { by rewrite Hq. }
      destruct (IH (popped ++ [y]) st' Hinv') as (popped' & st'' & Hloop & Hq' & Hinv'' & Hc').
      { rewrite length_app. simpl. lia. }
      exists popped', st''. simpl. rewrite Hq, Hround. simpl.
      split; [done|]. split; [done|]. split; [done|]. tauto.
Qed.

End sort_correct.

(** ** Acyclic graphs have no set closed under taking a parent *)

Lemma is_chain_tc objs a (l : list Z) y :
  is_chain objs (a :: l) → y ∈ l → tc (edge objs) y a.
Proof.
  revert a. induction l as [|b l IH]; intros a Hc Hy.
  - by apply elem_of_nil in Hy.
  - destruct Hc as [Hba Hc]. apply elem_of_cons in Hy as [->|Hy].
    + by apply tc_once.
    + eapply tc_r; [|exact Hba]. by apply IH.
Qed.

Lemma is_chain_tail objs a (l : list Z) : is_chain objs (a :: l) → is_chain objs l.
Proof. destruct l as [|b l]; [done|]. by intros [_ H]. Qed.

Lemma is_chain_NoDup objs (l : list Z) :
  acyclic objs → is_chain objs l → NoDup l.
Proof.
  intros Hac. induction l as [|a l IH]; intros Hc; [constructor|].
  apply NoDup_cons. split.
  - intros Ha. apply (Hac a). by eapply is_chain_tc.
  - apply IH. by eapply is_chain_tail.
Qed.

Lemma acyclic_no_parent_closed_set objs (U : Z → Prop) :
  acyclic objs →
  (∀ u, U u → 0 <= u < vec_length objs) →
  (∀ u, U u → ∃ p, U p ∧ edge objs p u) →
  ∀ u, ¬ U u.
Proof.
  intros Hac Hr Hparent.
  assert (∀ (k : nat) u, U u →
            ∃ l, length l = S k ∧ is_chain objs (u :: l) ∧ Forall U (u :: l))
    as Hbuild.
  { induction k as [|k IH]; intros u Hu.
    - destruct (Hparent u Hu) as (p & Hp & Hpu).
      exists [p]. split; [done|]. split; [done|]. by repeat constructor.
    - destruct (Hparent u Hu) as (p & Hp & Hpu).
      destruct (IH p Hp) as (l & Hl & Hc & HU).
      exists (p :: l). split; [simpl; lia|]. split; [done|]. by constructor. }
  intros u Hu.
  destruct (Hbuild (Z.to_nat (vec_length objs)) u Hu) as (l & Hl & Hc & HU).
  pose proof (is_chain_NoDup objs (u :: l) Hac Hc) as Hnd.
  assert (0 <= vec_length objs) as Hn by (unfold vec_length; lia).
  assert (Z.of_nat (length (u :: l)) <= vec_length objs) as Hlen.
  { apply in_range_length.
    - exact Hn.
    - exact Hnd.
    - intros x Hx. apply Hr. rewrite Forall_forall in HU. by apply HU. }
  rewrite length_cons, Hl in Hlen. lia.
Qed.

(** ** The start and the end of a sort loop *)

Lemma edge_occ_all_children objs p v :
  edge objs p v → 0 < occ v (all_children objs).
Proof.
  intros Hedge. apply occ_pos. rewrite all_children_children_of.
  apply list_elem_of_In, in_flat_map. exists p. split.
  - apply list_elem_of_In, elem_of_seqZ.
    pose proof (edge_parent_in_range _ _ _ Hedge). lia.
  - by apply list_elem_of_In.
Qed.

Lemma remaining_nil objs v : remaining objs [] v = occ v (all_children objs).
Proof. unfold remaining. simpl. lia. Qed.

Lemma sort_inv_initial objs :
  1 <= vec_length objs < 2 ^ 31 →
  Z.of_nat (length (all_children objs)) < 2 ^ 32 - 1 →
  links_in_range objs →
  sort_inv objs []
    (mk_state [vec_length objs - 1] [] ∅ (incoming_edge_count objs ∅)
       (vec_length objs - 1)).
Proof.
  intros Hlen Hlinks Hrange. constructor; simpl.
  - apply NoDup_singleton.
  - intros v Hv. apply list_elem_of_singleton in Hv as ->. lia.
  - done.
  - done.
  - lia.
  - intros i v Hi. done.
  - intros v _. apply hb_map_get_empty.
  - intros v Hv. rewrite remaining_nil.
    apply incoming_edge_count_spec; [lia | done | done | done].
  - intros v Hv Hne. by apply list_elem_of_singleton in Hv.
  - intros v Hv. apply list_elem_of_singleton in Hv as ->. done.
  - intros i c p Hi. done.
Qed.

Lemma sort_complete_initial objs st :
  root_connected objs →
  st_queue st = [vec_length objs - 1] →
  sort_complete objs [] st.
Proof.
  intros Hconn Hq v Hv _ Hzero. rewrite Hq.
  apply list_elem_of_singleton.
  destruct (rtc_inv_r _ _ (Hconn v Hv)) as [Heq|(p & _ & Hedge)]; [done|].
  rewrite remaining_nil in Hzero.
  pose proof (edge_occ_all_children _ _ _ Hedge). lia.
Qed.

Lemma sort_final_all_popped objs popped st :
  acyclic objs →
  sort_inv objs popped st → sort_complete objs popped st →
  st_queue st = [] →
  ∀ v, 0 <= v < vec_length objs → v ∈ popped.
Proof.
  intros Hac Hinv Hcomplete Hq v Hv.
  destruct (decide (v ∈ popped)) as [|Hnp]; [done|]. exfalso.
  pose proof (sort_inv_popped_NoDup _ _ _ Hinv) as Hnd.
  pose proof (fun p => sort_inv_popped_range objs _ _ p Hinv) as Hpr.
  apply (acyclic_no_parent_closed_set objs
           (fun u => 0 <= u < vec_length objs ∧ u ∉ popped) Hac) with v;
    [tauto | | done].
  intros u [Hu Hup].
  assert (0 < remaining objs popped u) as Hpos.
  { pose proof (remaining_nonneg objs popped u Hnd Hpr).
    destruct (decide (remaining objs popped u = 0)) as [Hz|]; [|lia].
    pose proof (Hcomplete u Hu Hup Hz) as Hin. rewrite Hq in Hin.
    by apply elem_of_nil in Hin. }
  destruct (remaining_pos_parent objs popped u Hnd Hpr Hpos) as (p & Hp & Hedge).
  exists p. split; [|done]. split; [|done].
  by eapply edge_parent_in_range.
Qed.

Lemma all_popped_length n (popped : list Z) :
  0 <= n → NoDup popped → (∀ p, p ∈ popped → 0 <= p < n) →
  (∀ v, 0 <= v < n → v ∈ popped) →
  Z.of_nat (length popped) = n.
Proof.
  intros Hn Hnd Hr Hall.
  pose proof (in_range_length n popped Hn Hnd Hr).
  assert (seqZ 0 n ⊆+ popped) as Hsub.
  { apply NoDup_submseteq; [apply NoDup_seqZ|].
    intros x Hx. apply elem_of_seqZ in Hx. apply Hall. lia. }
  apply submseteq_length in Hsub. rewrite length_seqZ in Hsub. lia.
Qed.

(** FIFO taking and adding fit the loop. *)
Lemma fifo_pick_spec n : pick_spec n fifo_pick.
Proof.
  intros q Hne Hnd _. destruct q as [|x q]; [done|].
  apply NoDup_cons in Hnd as [Hx Hnd].
  exists x, q. split; [done|]. split; [by left|]. split; [done|].
  intros y. rewrite elem_of_cons. split.
  - intros Hy. split; [by right|]. by intros ->.
  - by intros [[->|Hy] Hne'].
Qed.

Lemma fifo_push_spec n : push_spec n fifo_push.
Proof.
  intros x q _. unfold fifo_push. split.
  - intros y. rewrite elem_of_app, list_elem_of_singleton. tauto.
  - intros Hx Hnd. apply NoDup_app. split; [done|].
    split; [|apply NoDup_singleton].
    intros y Hy Hy'. by apply list_elem_of_singleton in Hy' as ->.
Qed.

(** ** Index remapping *)

Lemma remap_links_ok m ls :
  (∀ l, l ∈ ls → hb_map.has m (objidx l) = true) →
  remap_links m ls
  = Ok (map (fun l => set_objidx (hb_map.get m (objidx l)) l) ls).
Proof.
  induction ls as [|l ls IH]; intros H; simpl; [done|].
  rewrite (H l) by (by left). simpl.
  rewrite IH by (intros l' Hl'; apply H; by right). done.
Qed.

Lemma remap_obj_indices_ok m os :
  (∀ o l, o ∈ os → l ∈ links o → hb_map.has m (objidx l) = true) →
  remap_obj_indices m os = Ok (map (renumber (hb_map.get m)) os).
Proof.
  induction os as [|o os IH]; intros H; simpl; [done|].
  rewrite remap_links_ok by (intros l Hl; apply (H o); [by left | done]).
  simpl. rewrite IH by (intros o' l Ho' Hl; apply (H o'); [by right | done]).
  done.
Qed.

Lemma set_objidx_same l : set_objidx (objidx l) l = l.
Proof. by destruct l. Qed.

Lemma renumber_id (σ : Z → Z) o :
  (∀ l, l ∈ links o → σ (objidx l) = objidx l) → renumber σ o = o.
Proof.
  intros H. destruct o as [h t ls]. unfold renumber. simpl in *. f_equal.
  induction ls as [|l ls IH]; simpl; [done|].
  rewrite (H l) by (by left). rewrite set_objidx_same. f_equal.
  apply IH. intros l' Hl'. apply H. by right.
Qed.

(** ** Renumbered graphs *)

Section renumbered.

Context (objs objs' : list object_t) (σ : Z → Z).
Hypothesis Hrn : renumbering objs objs' σ.

Lemma children_renumber v :
  0 <= v < vec_length objs → children objs' (σ v) = map σ (children objs v).
Proof.
  intros Hv. unfold children. rewrite (rn_object _ _ _ Hrn v Hv).
  unfold renumber. simpl. rewrite !map_map. done.
Qed.

Lemma edge_renumber p c : edge objs p c → edge objs' (σ p) (σ c).
Proof.
  intros Hedge. pose proof (edge_parent_in_range _ _ _ Hedge) as Hp.
  unfold edge. rewrite (children_renumber p Hp).
  apply list_elem_of_fmap. by exists c.
Qed.

Lemma edge_renumber_inv p' c' :
  edge objs' p' c' →
  ∃ p c, 0 <= p < vec_length objs ∧ p' = σ p ∧ c' = σ c ∧ edge objs p c.
Proof.
  intros Hedge. pose proof (edge_parent_in_range _ _ _ Hedge) as Hp.
  rewrite (rn_length _ _ _ Hrn) in Hp.
  destruct (rn_surj _ _ _ Hrn p' Hp) as (p & Hpr & <-).
  unfold edge in Hedge. rewrite (children_renumber p Hpr) in Hedge.
  apply list_elem_of_fmap in Hedge as (c & -> & Hc).
  by exists p, c.
Qed.

Lemma renumber_reverse_topological :
  (∀ p c, edge objs p c → σ c < σ p) →
  links_in_range objs →
  reverse_topological objs'.
Proof.
  intros Horder Hrange p' c' Hedge.
  apply edge_renumber_inv in Hedge as (p & c & Hp & -> & -> & Hedge).
  pose proof (Horder _ _ Hedge).
  pose proof (rn_range _ _ _ Hrn c (Hrange _ _ Hedge)). lia.
Qed.

Lemma renumber_root_connected :
  root_connected objs → root_connected objs'.
Proof.
  intros Hconn v' Hv'. rewrite (rn_length _ _ _ Hrn) in *.
  destruct (rn_surj _ _ _ Hrn v' Hv') as (v & Hv & <-).
  rewrite <- (rn_root _ _ _ Hrn).
  apply (rtc_congruence (R:=edge objs) σ (edge objs'));
    [|by apply Hconn].
  intros x y. apply edge_renumber.
Qed.

Lemma renumber_seqZ_Permutation :
  map σ (seqZ 0 (vec_length objs)) ≡ₚ seqZ 0 (vec_length objs).
Proof.
  apply NoDup_Permutation.
  - apply NoDup_fmap_2_strong; [|apply NoDup_seqZ].
    intros a b Ha Hb. apply elem_of_seqZ in Ha, Hb.
    apply (rn_inj _ _ _ Hrn); lia.
  - apply NoDup_seqZ.
  - intros j. rewrite list_elem_of_fmap, elem_of_seqZ. split.
    + intros (v & -> & Hv). apply elem_of_seqZ in Hv.
      pose proof (rn_range _ _ _ Hrn v). lia.
    + intros Hj. destruct (rn_surj _ _ _ Hrn j) as (v & Hv & <-); [lia|].
      exists v. split; [done|]. apply elem_of_seqZ. lia.
Qed.

Lemma flat_map_map {A B C} (f : A → B) (g : B → list C) l :
  flat_map g (map f l) = flat_map (fun x => g (f x)) l.
Proof. induction l as [|x l IH]; simpl; [done|]. by rewrite IH. Qed.

Lemma map_flat_map {A B C} (f : B → C) (g : A → list B) l :
  map f (flat_map g l) = flat_map (fun x => map f (g x)) l.
Proof.
  induction l as [|x l IH]; simpl; [done|]. by rewrite map_app, IH.
Qed.

Lemma all_children_renumber :
  all_children objs' ≡ₚ map σ (all_children objs).
Proof.
  rewrite !all_children_children_of. rewrite (rn_length _ _ _ Hrn).
  unfold children_of.
  rewrite <- (Permutation_flat_map (children objs') renumber_seqZ_Permutation).
  rewrite flat_map_map, map_flat_map.
  erewrite flat_map_ext_elem; [done|].
  intros v Hv. apply elem_of_seqZ in Hv. apply children_renumber. lia.
Qed.

Lemma occ_all_children_renumber v :
  links_in_range objs → 0 <= v < vec_length objs →
  occ (σ v) (all_children objs') = occ v (all_children objs).
Proof.
  intros Hrange Hv. rewrite (occ_Permutation _ _ _ all_children_renumber).
  apply occ_fmap_inj. intros c Hc Heq.
  apply (rn_inj _ _ _ Hrn); [|done|done].
  rewrite all_children_children_of in Hc.
  apply list_elem_of_In, in_flat_map in Hc as (p & _ & Hc).
  apply list_elem_of_In in Hc. by apply (Hrange p).
Qed.

Lemma renumber_payload_ok :
  Forall payload_ok objs → Forall payload_ok objs'.
Proof.
  intros Hok. apply Forall_forall. intros o' Ho'.
  apply list_elem_of_lookup_1 in Ho' as [k Hk].
  pose proof (lookup_lt_Some _ _ _ Hk) as Hlt.
  assert (0 <= Z.of_nat k < vec_length objs) as Hkr.
  { rewrite <- (rn_length _ _ _ Hrn). unfold vec_length. lia. }
  destruct (rn_surj _ _ _ Hrn _ Hkr) as (v & Hv & Hσ).
  pose proof (rn_object _ _ _ Hrn v Hv) as Hobj.
  rewrite Hσ, (vec_get_of_lookup _ _ _ Hk) in Hobj. subst o'.
  rewrite Forall_forall in Hok.
  specialize (Hok _ (vec_get_elem_of objs v Hv)).
  unfold payload_ok, renumber in *. simpl. done.
Qed.

Lemma renumber_well_formed :
  well_formed objs →
  (∀ p c, edge objs p c → σ c < σ p) →
  well_formed objs' ∧ reverse_topological objs'.
Proof.
  intros [Hlen Hlinks Hrange Hac Hconn] Horder.
  pose proof (renumber_reverse_topological Horder Hrange) as Hrt.
  split; [|done]. constructor.
  - by rewrite (rn_length _ _ _ Hrn).
  - rewrite (Permutation_length all_children_renumber), length_map. done.
  - by apply reverse_topological_in_range.
  - by apply reverse_topological_acyclic.
  - by apply renumber_root_connected.
Qed.

End renumbered.

Lemma renumbering_id objs : 
  renumbering objs objs (fun v => v).
Proof.
  constructor; try done.
  - intros j Hj. by exists j.
  - intros v Hv. symmetry. by apply renumber_id.
Qed.

(** ** The result of a finished sort loop *)

Section sort_finish.

Context (objs : list object_t).
Local Abbreviation n := (vec_length objs).

Hypothesis Hwf : well_formed objs.
Hypothesis Hlen : 1 <= n.

Context (popped : list Z) (st : sort_state).
Hypothesis Hinv : sort_inv objs popped st.
Hypothesis Hcomplete : sort_complete objs popped st.
Hypothesis Hqueue : st_queue st = [].

Local Abbreviation σ := (hb_map.get (st_id_map st)).

Lemma finish_all_popped v : 0 <= v < n → v ∈ popped.
Proof.
  apply (sort_final_all_popped objs popped st); try done. apply Hwf.
Qed.

Lemma finish_length : Z.of_nat (length popped) = n.
Proof.
  apply all_popped_length.
  - lia.
  - by eapply sort_inv_popped_NoDup.
  - intros p. by eapply sort_inv_popped_range.
  - apply finish_all_popped.
Qed.

Lemma finish_new_id : st_new_id st = -1.
Proof. rewrite (inv_new_id _ _ _ Hinv), finish_length. lia. Qed.

Lemma finish_index v :
  0 <= v < n →
  ∃ i : nat, popped !! i = Some v ∧ σ v = n - 1 - Z.of_nat i
             ∧ Z.of_nat i < n.
Proof.
  intros Hv. destruct (list_elem_of_lookup_1 _ _ (finish_all_popped v Hv))
    as [i Hi].
  exists i. split; [done|]. split; [by apply (inv_id_in _ _ _ Hinv)|].
  apply lookup_lt_Some in Hi. pose proof finish_length. lia.
Qed.

Lemma finish_remap :
  remap_obj_indices (st_id_map st) (st_sorted_graph st)
  = Ok (map (fun v => renumber σ (vec_get objs v)) popped).
Proof.
  rewrite (inv_sorted _ _ _ Hinv).
  rewrite remap_obj_indices_ok.
  - by rewrite map_map.
  - intros o l Ho Hl. apply list_elem_of_fmap in Ho as (v & -> & Hv).
    assert (edge objs v (objidx l)) as Hedge.
    { unfold edge, children. apply list_elem_of_fmap. by exists l. }
    destruct (finish_index (objidx l) (wf_range _ Hwf _ _ Hedge))
      as (i & _ & Hσ & Hi).
    apply hb_map_has_get. rewrite Hσ. unfold hb_map.INVALID.
    pose proof (wf_length _ Hwf). lia.
Qed.

Lemma finish_renumbering :
  renumbering objs
    (reverse (map (fun v => renumber σ (vec_get objs v)) popped)) σ.
Proof.
  pose proof finish_length as Hl.
  constructor.
  - unfold vec_length at 1. rewrite length_reverse, length_map. done.
  - intros v Hv. destruct (finish_index v Hv) as (i & _ & -> & Hi). lia.
  - intros a b Ha Hb Heq.
    destruct (finish_index a Ha) as (i & Hi & Hσa & _).
    destruct (finish_index b Hb) as (j & Hj & Hσb & _).
    assert (i = j) as -> by lia. congruence.
  - intros j Hj.
    destruct (lookup_lt_is_Some_2 popped (Z.to_nat (n - 1 - j))) as [v Hv];
      [lia|].
    exists v. split.
    + eapply sort_inv_popped_range; [done|]. by eapply list_elem_of_lookup_2.
    + rewrite (inv_id_in _ _ _ Hinv _ _ Hv). lia.
  - intros v Hv. destruct (finish_index v Hv) as (i & Hi & -> & Hin).
    replace (n - 1 - Z.of_nat i) with (Z.of_nat (length popped - S i)) by lia.
    apply vec_get_of_lookup. rewrite reverse_lookup.
    + rewrite length_map.
      replace (length popped - S (length popped - S i))%nat with i by lia.
      rewrite list_lookup_fmap, Hi. done.
    + rewrite length_map. lia.
  - pose proof (inv_first _ _ _ Hinv) as Hfirst.
    destruct popped as [|v popped'] eqn:Hp; [simpl in Hl; lia|].
    subst v. rewrite (inv_id_in _ _ _ Hinv 0%nat (n - 1)) by done. lia.
Qed.

Lemma finish_order p c : edge objs p c → σ c < σ p.
Proof.
  intros Hedge.
  pose proof (edge_parent_in_range _ _ _ Hedge) as Hp.
  pose proof (wf_range _ Hwf _ _ Hedge) as Hc.
  destruct (finish_index c Hc) as (i & Hi & -> & _).
  assert (c ≠ n - 1) as Hcroot.
  { intros ->. apply (wf_acyclic _ Hwf (n - 1)).
    eapply tc_rtc_l; [apply (wf_connected _ Hwf p Hp)|]. by apply tc_once. }
  destruct (inv_order _ _ _ Hinv i c p Hi Hcroot Hedge) as (j & Hj & Hpj).
  rewrite (inv_id_in _ _ _ Hinv _ _ Hpj). lia.
Qed.

End sort_finish.

(** ** The sorts in terms of the generic loop *)

Lemma sort_kahn_unfold objs :
  2 <= vec_length objs < 2 ^ 31 →
  sort_kahn (mk_graph objs)
  = sort_outcome (sort_loop fifo_pick fifo_push (length objs) objs
                    (sort_start objs)).
Proof.
  intros Hlen. unfold sort_kahn, mbind, get_objects. simpl.
  destruct (Z.leb_spec (vec_length objs) 1); [lia|].
  rewrite wrap_u32_id by lia. rewrite wrap_s32_id by lia.
  rewrite sort_kahn_loop_generic. fold (sort_start objs).
  unfold sort_outcome, lift.
  destruct (sort_loop _ _ _ _ _) as [st| | |]; simpl; try done.
  destruct (negb _); simpl; [done|].
  destruct (remap_obj_indices _ _); simpl; done.
Qed.

Lemma sort_shortest_distance_unfold objs :
  2 <= vec_length objs < 2 ^ 31 →
  sort_shortest_distance (mk_graph objs)
  = (distance_to <- compute_distances objs ;;
     sort_outcome (sort_loop (closest_pick distance_to) hb_set.add
                     (length objs) objs (sort_start objs))).
Proof.
  intros Hlen. unfold sort_shortest_distance, mbind, get_objects. simpl.
  destruct (Z.leb_spec (vec_length objs) 1); [lia|].
  rewrite wrap_u32_id by lia. rewrite wrap_s32_id by lia.
  unfold lift at 1.
  destruct (compute_distances objs) as [distance_to| | |]; simpl; try done.
  rewrite sort_shortest_distance_loop_generic.
  assert (hb_set.add (vec_length objs - 1) [] = [vec_length objs - 1]) as ->.
  { unfold hb_set.add, hb_set.INVALID.
    destruct (Z.eqb_spec (vec_length objs - 1) (2 ^ 32 - 1)); [lia | done]. }
  fold (sort_start objs).
  unfold sort_outcome, lift.
  destruct (sort_loop _ _ _ _ _) as [st| | |]; simpl; try done.
  destruct (negb _); simpl; [done|].
  destruct (remap_obj_indices _ _); simpl; done.
Qed.

(** ** A sort loop on a well-formed graph *)

Lemma sort_loop_run objs pick push :
  well_formed objs → 1 <= vec_length objs →
  pick_spec (vec_length objs) pick → push_spec (vec_length objs) push →
  ∃ popped st,
    sort_loop pick push (length objs) objs (sort_start objs) = Ok st
    ∧ sort_inv objs popped st
    ∧ sort_complete objs popped st
    ∧ st_queue st = [].
Proof.
  intros Hwf Hlen Hpick Hpush.
  pose proof (wf_length _ Hwf) as Hlt.
  destruct (sort_loop_inv objs (conj Hlen Hlt) (wf_links _ Hwf)
              (wf_range _ Hwf) (wf_acyclic _ Hwf (vec_length objs - 1))
              pick push Hpick Hpush
              (length objs) [] (sort_start objs))
    as (popped & st & Hrun & Hq & Hinv & Hc).
  - apply sort_inv_initial; [lia | apply Hwf | apply Hwf].
  - simpl. unfold vec_length. lia.
  - exists popped, st. split; [done|]. split; [done|]. split; [|done].
    apply Hc. apply sort_complete_initial; [apply Hwf | done].
Qed.

Lemma sort_outcome_correct objs pick push :
  well_formed objs → 1 <= vec_length objs →
  pick_spec (vec_length objs) pick → push_spec (vec_length objs) push →
  ∃ objs' σ,
    sort_outcome (sort_loop pick push (length objs) objs (sort_start objs))
    = Ok (tt, mk_graph objs')
    ∧ renumbering objs objs' σ
    ∧ (∀ p c, edge objs p c → σ c < σ p).
Proof.
  intros Hwf Hlen Hpick Hpush.
  destruct (sort_loop_run objs pick push Hwf Hlen Hpick Hpush)
    as (popped & st & Hrun & Hinv & Hc & Hq).
  exists (reverse (map (fun v => renumber (hb_map.get (st_id_map st))
                                   (vec_get objs v)) popped)),
         (hb_map.get (st_id_map st)).
  split; [|split].
  - unfold sort_outcome. rewrite Hrun. simpl.
    rewrite (finish_new_id objs Hwf Hlen popped st Hinv Hc Hq). simpl.
    rewrite (finish_remap objs Hwf Hlen popped st Hinv Hc Hq). done.
  - by apply finish_renumbering.
  - by apply (finish_order objs Hwf Hlen popped st).
Qed.

(** [sort_kahn] on a well-formed graph of at least two objects. *)
Lemma sort_kahn_renumbers objs :
  well_formed objs → 2 <= vec_length objs →
  ∃ objs' σ,
    sort_kahn (mk_graph objs) = Ok (tt, mk_graph objs')
    ∧ renumbering objs objs' σ
    ∧ (∀ p c, edge objs p c → σ c < σ p).
Proof.
  intros Hwf Hlen. rewrite sort_kahn_unfold by (pose proof (wf_length _ Hwf); lia).
  apply sort_outcome_correct; [done | lia | apply fifo_pick_spec | apply fifo_push_spec].
Qed.

(** A well-formed graph of at most one object has no link. *)
Lemma well_formed_small_no_edge objs p c :
  well_formed objs → vec_length objs <= 1 → ¬ edge objs p c.
Proof.
  intros Hwf Hlen Hedge.
  pose proof (edge_parent_in_range _ _ _ Hedge) as Hp.
  pose proof (wf_range _ Hwf _ _ Hedge) as Hc.
  assert (p = 0 ∧ c = 0) as [-> ->] by lia.
  apply (wf_acyclic _ Hwf 0). by apply tc_once.
Qed.

Lemma sort_kahn_small objs :
  vec_length objs <= 1 → sort_kahn (mk_graph objs) = Ok (tt, mk_graph objs).
Proof.
  intros Hlen. unfold sort_kahn, mbind, get_objects. simpl.
  destruct (Z.leb_spec (vec_length objs) 1); [done | lia].
Qed.

Lemma sort_shortest_distance_small objs :
  vec_length objs <= 1 →
  sort_shortest_distance (mk_graph objs) = Ok (tt, mk_graph objs).
Proof.
  intros Hlen. unfold sort_shortest_distance, mbind, get_objects. simpl.
  destruct (Z.leb_spec (vec_length objs) 1); [done | lia].
Qed.

(** [sort_kahn] on any well-formed graph. *)
Lemma sort_kahn_well_formed objs :
  well_formed objs →
  ∃ objs',
    sort_kahn (mk_graph objs) = Ok (tt, mk_graph objs')
    ∧ well_formed objs' ∧ reverse_topological objs'
    ∧ vec_length objs' = vec_length objs
    ∧ (Forall payload_ok objs → Forall payload_ok objs')
    ∧ ∃ σ, vec_get objs' (vec_length objs - 1)
           = renumber σ (vec_get objs (vec_length objs - 1)).
Proof.
  intros Hwf. destruct (Z.le_gt_cases (vec_length objs) 1) as [Hsmall|Hbig].
  - exists objs. split; [by apply sort_kahn_small|]. split; [done|].
    split; [|split; [done|split; [done|]]].
    + intros p c Hedge.
      by apply (well_formed_small_no_edge objs p c) in Hedge.
    + exists (fun v => v). symmetry. by apply renumber_id.
  - destruct (sort_kahn_renumbers objs Hwf) as (objs' & σ & Hrun & Hrn & Hord);
      [lia|].
    destruct (renumber_well_formed objs objs' σ Hrn Hwf Hord) as [Hwf' Hrt].
    exists objs'. split; [done|]. split; [done|]. split; [done|].
    split; [apply Hrn|]. split; [by apply (renumber_payload_ok objs objs' σ)|].
    exists σ.
    rewrite <- (rn_root _ _ _ Hrn) at 1. apply (rn_object _ _ _ Hrn). lia.
Qed.

(** ** Distances *)

Lemma dist_set_length v i x : length (dist_set v i x) = length v.
Proof.
  unfold dist_set. destruct (_ && _); [apply length_insert | done].
Qed.

Lemma dist_get_set_eq v i x :
  0 <= i < vec_length v → dist_get (dist_set v i x) i = x.
Proof.
  intros Hi. unfold dist_get, dist_set, vec_length in *.
  destruct (Z.leb_spec 0 i); [|lia].
  destruct (Z.ltb_spec i (Z.of_nat (length v))); [|lia]. simpl.
  rewrite length_insert.
  destruct (Z.ltb_spec i (Z.of_nat (length v))); [|lia].
  rewrite list_lookup_insert_eq by lia. done.
Qed.

Lemma dist_get_set_ne v i j x :
  i ≠ j → dist_get (dist_set v i x) j = dist_get v j.
Proof.
  intros Hne. unfold dist_get, dist_set, vec_length.
  destruct ((0 <=? i) && (i <? Z.of_nat (length v))) eqn:Hi; [|done].
  rewrite length_insert.
  destruct ((0 <=? j) && (j <? Z.of_nat (length v))) eqn:Hj; [|done].
  rewrite list_lookup_insert_ne; [done|].
  apply andb_true_iff in Hi as [Hi1 Hi2], Hj as [Hj1 Hj2]. lia.
Qed.

Lemma dist_get_replicate (k : nat) x i :
  0 <= i < Z.of_nat k → dist_get (replicate k x) i = x.
Proof.
  intros Hi. unfold dist_get, vec_length. rewrite length_replicate.
  destruct (Z.leb_spec 0 i); [|lia].
  destruct (Z.ltb_spec i (Z.of_nat k)); [|lia]. simpl.
  rewrite lookup_replicate_2 by lia. done.
Qed.

Lemma closest_fold distance_to (q : list Z) cd ci :
  let r := fold_left (closest_step distance_to) q (cd, ci) in
  (r = (cd, ci) ∧ ∀ y, y ∈ q → cd <= dist_get distance_to y)
  ∨ (snd r ∈ q ∧ fst r = dist_get distance_to (snd r) ∧ fst r < cd).
Proof.
  revert cd ci. induction q as [|x q IH]; intros cd ci; simpl.
  - left. split; [done|]. intros y Hy. by apply elem_of_nil in Hy.
  - destruct (Z.ltb_spec (dist_get distance_to x) cd) as [Hlt|Hge].
    + right. destruct (IH (dist_get distance_to x) x) as [[-> Hall]|(Hin & Heq & Hlt')].
      * simpl. split; [by left|]. done.
      * split; [by right|]. split; [done | lia].
    + destruct (IH cd ci) as [[-> Hall]|(Hin & Heq & Hlt')].
      * left. split; [done|]. intros y Hy.
        apply elem_of_cons in Hy as [->|Hy]; [done | by apply Hall].
      * right. split; [by right | done].
Qed.

Lemma closest_object_finds distance_to (q : list Z) :
  (∃ y, y ∈ q ∧ dist_get distance_to y < INT64_MAX) →
  (∀ y, y ∈ q → y ≠ 2 ^ 32 - 1) →
  ∃ x, closest_object q distance_to = Ok x
       ∧ x ∈ q ∧ dist_get distance_to x < INT64_MAX.
Proof.
  intros (y & Hy & Hlt) Hne. unfold closest_object.
  destruct (closest_fold distance_to q INT64_MAX (wrap_u32 (-1)))
    as [[_ Hall]|(Hin & Heq & Hlt')].
  - specialize (Hall y Hy). lia.
  - destruct (fold_left _ _ _) as [cd ci]. simpl in *.
    change (wrap_u32 (-1)) with (2 ^ 32 - 1).
    destruct (Z.eqb_spec ci (2 ^ 32 - 1)) as [->|_].
    + by apply Hne in Hin.
    + exists ci. split; [done|]. split; [done | lia].
Qed.

(** With no member closer than [INT64_MAX], the assertion of
    [closest_object] fails. *)
Lemma closest_object_fails distance_to (q : list Z) :
  (∀ y, y ∈ q → INT64_MAX <= dist_get distance_to y) →
  closest_object q distance_to = Fatal GraphStructureError.
Proof.
  intros Hall. unfold closest_object.
  destruct (closest_fold distance_to q INT64_MAX (wrap_u32 (-1)))
    as [[-> _]|(Hin & Heq & Hlt')].
  - done.
  - specialize (Hall _ Hin). lia.
Qed.

Lemma closest_object_elem distance_to (q : list Z) x :
  closest_object q distance_to = Ok x →
  x ∈ q ∧ dist_get distance_to x < INT64_MAX.
Proof.
  unfold closest_object.
  destruct (closest_fold distance_to q INT64_MAX (wrap_u32 (-1)))
    as [[-> _]|(Hin & Heq & Hlt')].
  - done.
  - destruct (fold_left _ _ _) as [cd ci]. simpl in *.
    destruct (ci =? wrap_u32 (-1)); [done|].
    intros [= <-]. split; [done | lia].
Qed.

Section relax.

Context (objs : list object_t) (unvisited : list Z) (next_distance : Z).

Lemma relax_length distance_to link :
  length (relax objs unvisited next_distance distance_to link)
  = length distance_to.
Proof.
  unfold relax. destruct (negb _); [done|].
  destruct (_ <? _); [apply dist_set_length | done].
Qed.

Lemma relax_le distance_to link v :
  dist_get (relax objs unvisited next_distance distance_to link) v
  <= dist_get distance_to v.
Proof.
  unfold relax. destruct (negb _); [lia|].
  match goal with |- context [?a <? ?b] => destruct (Z.ltb_spec a b) end;
    [|lia].
  destruct (decide (objidx link = v)) as [<-|Hne].
  - unfold dist_get at 1, dist_set.
    destruct ((0 <=? objidx link) && (objidx link <? vec_length distance_to))
      eqn:Hr.
    + unfold vec_length. rewrite length_insert. fold (vec_length distance_to).
      rewrite Hr. apply andb_true_iff in Hr as [Hr1 Hr2].
      rewrite list_lookup_insert_eq by (unfold vec_length in *; lia).
      simpl. lia.
    + unfold dist_get. rewrite Hr. lia.
  - rewrite dist_get_set_ne by done. lia.
Qed.

Lemma relax_changes distance_to link v :
  dist_get (relax objs unvisited next_distance distance_to link) v
  ≠ dist_get distance_to v →
  v = objidx link ∧ v ∈ unvisited.
Proof.
  unfold relax. destruct (hb_set.has unvisited (objidx link)) eqn:Hhas;
    simpl; [|done].
  apply hb_set_has_true in Hhas.
  destruct (_ <? _); [|done].
  destruct (decide (objidx link = v)) as [<-|Hne]; [done|].
  by rewrite dist_get_set_ne.
Qed.

Lemma relax_fold_length ls distance_to :
  length (fold_left (relax objs unvisited next_distance) ls distance_to)
  = length distance_to.
Proof.
  revert distance_to. induction ls as [|l ls IH]; intros d; simpl; [done|].
  by rewrite IH, relax_length.
Qed.

Lemma relax_fold_le ls distance_to v :
  dist_get (fold_left (relax objs unvisited next_distance) ls distance_to) v
  <= dist_get distance_to v.
Proof.
  revert distance_to. induction ls as [|l ls IH]; intros d; simpl; [lia|].
  pose proof (IH (relax objs unvisited next_distance d l)).
  pose proof (relax_le d l v). lia.
Qed.

Lemma relax_fold_changes ls distance_to v :
  dist_get (fold_left (relax objs unvisited next_distance) ls distance_to) v
  ≠ dist_get distance_to v →
  v ∈ map objidx ls ∧ v ∈ unvisited.
Proof.
  revert distance_to. induction ls as [|l ls IH]; intros d; simpl; [done|].
  intros Hne.
  destruct (decide (dist_get (relax objs unvisited next_distance d l) v
                    = dist_get d v)) as [Heq|Hch].
  - rewrite <- Heq in Hne. apply IH in Hne as [H1 H2]. split; [by right|done].
  - apply relax_changes in Hch as [-> H2]. split; [by left | done].
Qed.

Hypothesis Hpayload : Forall payload_ok objs.
Hypothesis Hnext : - 2 ^ 31 <= next_distance < 2 ^ 31.

Lemma relax_reaches distance_to link :
  objidx link ∈ unvisited →
  0 <= objidx link < vec_length objs →
  vec_length distance_to = vec_length objs →
  dist_get (relax objs unvisited next_distance distance_to link) (objidx link)
  < INT64_MAX.
Proof.
  intros Hin Hr Hlen. unfold relax.
  apply hb_set_has_true in Hin. rewrite Hin. simpl.
  rewrite Forall_forall in Hpayload.
  pose proof (Hpayload _ (vec_get_elem_of objs _ Hr)) as Hok.
  unfold payload_ok in Hok. unfold payload_size.
  rewrite (wrap_s64_id (tail _ - head _)) by lia.
  assert (2 ^ 16 <= (if negb (is_wide link) then 2 ^ 16 else 2 ^ 32) <= 2 ^ 32)
    as Hpen by (destruct (negb _); lia).
  rewrite (wrap_s64_id (_ + (if negb (is_wide link) then _ else _))) by lia.
  rewrite wrap_s64_id by lia.
  match goal with |- context [?a <? ?b] => destruct (Z.ltb_spec a b) end.
  - rewrite dist_get_set_eq by lia. unfold INT64_MAX. lia.
  - unfold INT64_MAX in *. lia.
Qed.

Lemma relax_fold_reaches ls distance_to c :
  c ∈ map objidx ls → c ∈ unvisited →
  0 <= c < vec_length objs →
  vec_length distance_to = vec_length objs →
  dist_get (fold_left (relax objs unvisited next_distance) ls distance_to) c
  < INT64_MAX.
Proof.
  revert distance_to. induction ls as [|l ls IH]; intros d Hc Hin Hr Hlen.
  - by apply elem_of_nil in Hc.
  - simpl in *. apply elem_of_cons in Hc as [->|Hc].
    + pose proof (relax_fold_le ls (relax objs unvisited next_distance d l)
                    (objidx l)).
      pose proof (relax_reaches d l Hin Hr Hlen). lia.
    + apply IH; [done | done | done|].
      unfold vec_length in *. by rewrite relax_length.
Qed.

End relax.

Section distances.

Context (objs : list object_t).
Hypothesis Hwf : well_formed objs.
Hypothesis Hpayload : Forall payload_ok objs.

Lemma dist_inv_progress unvisited distance_to :
  dist_inv objs unvisited distance_to → unvisited ≠ [] →
  ∃ y, y ∈ unvisited ∧ dist_get distance_to y < INT64_MAX.
Proof.
  intros Hinv Hne. destruct unvisited as [|u U] eqn:HU; [done|].
  rewrite <- HU in *. assert (u ∈ unvisited) as Hu by (rewrite HU; by left).
  clear HU Hne.
  pose proof (wf_connected _ Hwf u (di_range _ _ _ Hinv u Hu)) as Hreach.
  revert Hu. pattern u. revert u Hreach. apply rtc_ind_r.
  - intros Hu. exists (vec_length objs - 1). split; [done | apply Hinv].
  - intros p v Hrp Hpv IH Hv.
    destruct (decide (p ∈ unvisited)) as [Hp|Hp]; [by apply IH|].
    exists v. split; [done|]. by apply (di_child _ _ _ Hinv p).
Qed.

Lemma compute_distances_loop_finishes fuel unvisited distance_to :
  dist_inv objs unvisited distance_to →
  (length unvisited <= fuel)%nat →
  ∃ distance_to',
    compute_distances_loop fuel objs unvisited distance_to = Ok distance_to'
    ∧ vec_length distance_to' = vec_length objs
    ∧ ∀ v, 0 <= v < vec_length objs → dist_get distance_to' v < INT64_MAX.
Proof.
  revert unvisited distance_to.
  induction fuel as [|fuel IH]; intros U d Hinv Hfuel.
  - destruct U as [|u Ut]; [|simpl in Hfuel; lia].
    exists d. simpl. split; [done|]. split; [apply Hinv|].
    intros v Hv. apply (di_visited _ _ _ Hinv v Hv). apply not_elem_of_nil.
  - destruct U as [|u Ut] eqn:HU.
    { exists d. simpl. split; [done|]. split; [apply Hinv|].
      intros v Hv. apply (di_visited _ _ _ Hinv v Hv). apply not_elem_of_nil. }
    rewrite <- HU in *.
    assert (hb_set.is_empty U = false) as Hempty by (by rewrite HU).
    simpl. rewrite Hempty.
    destruct (closest_object_finds d U) as (x & Hx & HxU & Hxd).
    { apply dist_inv_progress; [done | by rewrite HU]. }
    { intros y Hy. pose proof (di_range _ _ _ Hinv y Hy).
      pose proof (wf_length _ Hwf). lia. }
    rewrite Hx. simpl.
    set (U' := hb_set.del x U).
    set (d' := fold_left (relax objs U' (wrap_s32 (dist_get d x)))
                 (links (vec_get objs x)) d).
    assert (vec_length d' = vec_length objs) as Hlen'.
    { unfold vec_length, d'. rewrite relax_fold_length. apply Hinv. }
    assert (∀ v, dist_get d' v <= dist_get d v) as Hle.
    { intros v. apply relax_fold_le. }
    destruct (IH U' d') as (d'' & Hrun & Hlen'' & Hall).
    + constructor.
      * apply hb_set_NoDup_del, Hinv.
      * intros y Hy. apply hb_set_elem_of_del in Hy as [Hy _].
        by apply (di_range _ _ _ Hinv).
      * done.
      * pose proof (Hle (vec_length objs - 1)).
        pose proof (di_root _ _ _ Hinv). lia.
      * intros p c Hedge Hp.
        assert (dist_get d c < INT64_MAX → dist_get d' c < INT64_MAX) as Hmono
          by (pose proof (Hle c); lia).
        destruct (decide (p ∈ U)) as [HpU|HpU];
          [|by apply Hmono, (di_child _ _ _ Hinv p)].
        assert (p = x) as ->.
        { destruct (decide (p = x)) as [|Hne]; [done|].
          exfalso. apply Hp. by apply hb_set_elem_of_del. }
        pose proof (wf_range _ Hwf _ _ Hedge) as Hcr.
        destruct (decide (c ∈ U')) as [HcU|HcU].
        -- apply relax_fold_reaches.
           ++ exact Hpayload.
           ++ apply wrap_s32_range.
           ++ done.
           ++ done.
           ++ done.
           ++ apply Hinv.
        -- apply Hmono. destruct (decide (c = x)) as [->|Hne]; [done|].
           apply (di_visited _ _ _ Hinv c Hcr). intros HcU'.
           apply HcU. by apply hb_set_elem_of_del.
      * intros v Hv HvU.
        assert (dist_get d v < INT64_MAX → dist_get d' v < INT64_MAX) as Hmono
          by (pose proof (Hle v); lia).
        apply Hmono. destruct (decide (v = x)) as [->|Hne]; [done|].
        apply (di_visited _ _ _ Hinv v Hv). intros HvU'.
        apply HvU. by apply hb_set_elem_of_del.
    + pose proof (hb_set_length_del x U HxU). unfold U'. lia.
    + exists d''. done.
Qed.

Lemma compute_distances_finishes :
  2 <= vec_length objs →
  ∃ distance_to,
    compute_distances objs = Ok distance_to
    ∧ vec_length distance_to = vec_length objs
    ∧ ∀ v, 0 <= v < vec_length objs → dist_get distance_to v < INT64_MAX.
Proof.
  intros Hlen. pose proof (wf_length _ Hwf) as Hlt.
  unfold compute_distances. rewrite wrap_u32_id by lia.
  destruct (hb_set_add_range (vec_length objs)) as [Hnd Hmem];
    [lia | unfold hb_set.INVALID; lia|].
  apply compute_distances_loop_finishes.
  - constructor.
    + done.
    + intros y Hy. by apply Hmem.
    + unfold vec_length. by rewrite dist_set_length, length_replicate.
    + rewrite dist_get_set_eq; [unfold INT64_MAX; lia|].
      unfold vec_length. rewrite length_replicate. fold (vec_length objs). lia.
    + intros p c Hedge Hp. exfalso. apply Hp, Hmem.
      by eapply edge_parent_in_range.
    + intros v Hv Hp. exfalso. by apply Hp, Hmem.
  - assert (Z.of_nat (length (hb_set.add_range 0 (vec_length objs - 1) []))
            <= vec_length objs); [|unfold vec_length in *; lia].
    apply in_range_length; [lia | done|]. intros y Hy. by apply Hmem.
Qed.

End distances.

(** Taking the closest object and adding to the ready set fit the
    loop. *)
Lemma closest_pick_spec n distance_to :
  n <= 2 ^ 32 - 1 →
  (∀ v, 0 <= v < n → dist_get distance_to v < INT64_MAX) →
  pick_spec n (closest_pick distance_to).
Proof.
  intros Hn Hfinite q Hne Hnd Hr.
  destruct q as [|y q'] eqn:Hq; [done|]. rewrite <- Hq in *.
  destruct (closest_object_finds distance_to q) as (x & Hx & Hxq & _).
  - exists y. split; [rewrite Hq; by left|]. apply Hfinite, Hr.
    rewrite Hq. by left.
  - intros z Hz. specialize (Hr z Hz). lia.
  - exists x, (hb_set.del x q). unfold closest_pick. rewrite Hx. simpl.
    split; [done|]. split; [done|]. split; [by apply hb_set_NoDup_del|].
    intros z. apply hb_set_elem_of_del.
Qed.

Lemma hb_set_add_push_spec n : n <= 2 ^ 32 - 1 → push_spec n hb_set.add.
Proof.
  intros Hn x q Hx. split.
  - intros y. apply hb_set_elem_of_add. unfold hb_set.INVALID. lia.
  - apply hb_set_NoDup_add.
Qed.

(** [sort_shortest_distance] on a well-formed graph of at least two
    objects. *)
Lemma sort_shortest_distance_renumbers objs :
  well_formed objs → Forall payload_ok objs → 2 <= vec_length objs →
  ∃ objs' σ,
    sort_shortest_distance (mk_graph objs) = Ok (tt, mk_graph objs')
    ∧ renumbering objs objs' σ
    ∧ (∀ p c, edge objs p c → σ c < σ p).
Proof.
  intros Hwf Hpay Hlen. pose proof (wf_length _ Hwf) as Hlt.
  rewrite sort_shortest_distance_unfold by lia.
  destruct (compute_distances_finishes objs Hwf Hpay Hlen)
    as (d & -> & _ & Hfin).
  simpl. apply sort_outcome_correct; [done | lia | |].
  - apply closest_pick_spec; [lia | done].
  - apply hb_set_add_push_spec. lia.
Qed.

(** [sort_shortest_distance] on any well-formed graph. *)
Lemma sort_shortest_distance_well_formed objs :
  well_formed objs → Forall payload_ok objs →
  ∃ objs',
    sort_shortest_distance (mk_graph objs) = Ok (tt, mk_graph objs')
    ∧ well_formed objs' ∧ reverse_topological objs'
    ∧ vec_length objs' = vec_length objs
    ∧ ∃ σ, vec_get objs' (vec_length objs - 1)
           = renumber σ (vec_get objs (vec_length objs - 1)).
Proof.
  intros Hwf Hpay.
  destruct (Z.le_gt_cases (vec_length objs) 1) as [Hsmall|Hbig].
  - exists objs. split; [by apply sort_shortest_distance_small|].
    split; [done|]. split; [|split; [done|]].
    + intros p c Hedge.
      by apply (well_formed_small_no_edge objs p c) in Hedge.
    + exists (fun v => v). symmetry. by apply renumber_id.
  - destruct (sort_shortest_distance_renumbers objs Hwf Hpay)
      as (objs' & σ & Hrun & Hrn & Hord); [lia|].
    destruct (renumber_well_formed objs objs' σ Hrn Hwf Hord) as [Hwf' Hrt].
    exists objs'. split; [done|]. split; [done|]. split; [done|].
    split; [apply Hrn|]. exists σ.
    rewrite <- (rn_root _ _ _ Hrn) at 1. apply (rn_object _ _ _ Hrn). lia.
Qed.

(** ** Kahn sort of a Kahn-sorted graph *)

Lemma object_links_edge objs o l :
  o ∈ objs → l ∈ links o → ∃ p, edge objs p (objidx l).
Proof.
  intros Ho Hl. apply list_elem_of_lookup_1 in Ho as [k Hk].
  exists (Z.of_nat k). unfold edge, children.
  rewrite (vec_get_of_lookup _ _ _ Hk). apply list_elem_of_fmap. by exists l.
Qed.

Lemma map_id_elem {A} (f : A → A) l :
  (∀ x, x ∈ l → f x = x) → map f l = l.
Proof.
  induction l as [|x l IH]; intros H; simpl; [done|].
  rewrite (H x) by (by left). f_equal. apply IH. intros y Hy. apply H. by right.
Qed.

Section simulation.

Context (objs objs' : list object_t) (σ : Z → Z).
Hypothesis Hrn : renumbering objs objs' σ.
Hypothesis Hrange : links_in_range objs.
Hypothesis Hlen : vec_length objs < 2 ^ 31.

Lemma renumber_key_ne v : 0 <= v < vec_length objs → σ v ≠ hb_map.INVALID.
Proof.
  intros Hv. pose proof (rn_range _ _ _ Hrn v Hv).
  unfold hb_map.INVALID. lia.
Qed.

(** Setting the same value at [c] and at [σ c] keeps two maps
    related. *)
Lemma renumber_set_related (m m' : hb_map_t) c w :
  0 <= c < vec_length objs →
  (∀ v, 0 <= v < vec_length objs → hb_map.get m' (σ v) = hb_map.get m v) →
  ∀ v, 0 <= v < vec_length objs →
       hb_map.get (hb_map.set (σ c) w m') (σ v)
       = hb_map.get (hb_map.set c w m) v.
Proof.
  intros Hc Hrel v Hv. destruct (decide (v = c)) as [->|Hne].
  - rewrite !hb_map_get_set_eq; [done | unfold hb_map.INVALID; lia|].
    by apply renumber_key_ne.
  - rewrite !hb_map_get_set_ne; [by apply Hrel | done|].
    intros Heq. apply Hne. by apply (rn_inj _ _ _ Hrn).
Qed.

Lemma visit_children_sim (cs : list Z) ec (q : list Z) ec' :
  (∀ c, c ∈ cs → 0 <= c < vec_length objs) →
  (∀ y, y ∈ q → 0 <= y < vec_length objs) →
  (∀ v, 0 <= v < vec_length objs → hb_map.get ec' (σ v) = hb_map.get ec v) →
  let r := fold_left (visit_child fifo_push) cs (ec, q) in
  let r' := fold_left (visit_child fifo_push) (map σ cs) (ec', map σ q) in
  snd r' = map σ (snd r)
  ∧ (∀ y, y ∈ snd r → 0 <= y < vec_length objs)
  ∧ (∀ v, 0 <= v < vec_length objs →
          hb_map.get (fst r') (σ v) = hb_map.get (fst r) v).
Proof.
  revert ec q ec'. induction cs as [|c cs IH]; intros ec q ec' Hcs Hq Hrel.
  - simpl. done.
  - simpl.
    assert (0 <= c < vec_length objs) as Hc by (apply Hcs; by left).
    rewrite (Hrel c Hc).
    set (w := wrap_u32 (hb_map.get ec c - 1)).
    pose proof (renumber_set_related ec ec' c w Hc Hrel) as Hrel'.
    rewrite (Hrel' c Hc).
    destruct (hb_map.get (hb_map.set c w ec) c =? 0).
    + replace (fifo_push (σ c) (map σ q)) with (map σ (fifo_push c q))
        by (unfold fifo_push; by rewrite map_app).
      apply IH; [intros; apply Hcs; by right | | done].
      intros y Hy. unfold fifo_push in Hy.
      apply elem_of_app in Hy as [Hy|Hy]; [by apply Hq|].
      by apply list_elem_of_singleton in Hy as ->.
    + apply IH; [intros; apply Hcs; by right | done | done].
Qed.

Lemma sort_round_sim st st' x q :
  sort_sim objs σ st st' → st_queue st = x :: q →
  ∃ st1 st1',
    sort_round fifo_pick fifo_push objs st = Ok st1
    ∧ sort_round fifo_pick fifo_push objs' st' = Ok st1'
    ∧ sort_sim objs σ st1 st1'.
Proof.
  intros [Hq Hqr Hcount Hnew Hid Hsorted] Hqueue.
  assert (0 <= x < vec_length objs) as Hx
    by (apply Hqr; rewrite Hqueue; by left).
  unfold sort_round. rewrite Hq, Hqueue. simpl.
  eexists _, _. split; [done|]. split; [done|].
  rewrite (rn_object _ _ _ Hrn x Hx).
  assert (map objidx (links (renumber σ (vec_get objs x)))
          = map σ (children objs x)) as Hch.
  { unfold renumber, children. simpl. by rewrite !map_map. }
  rewrite Hch. fold (children objs x).
  destruct (visit_children_sim (children objs x) (st_edge_count st) q
              (st_edge_count st')) as (Hq1 & Hqr1 & Hcount1).
  { intros c Hc. by apply (Hrange x). }
  { intros y Hy. apply Hqr. rewrite Hqueue. by right. }
  { done. }
  constructor; simpl.
  - done.
  - done.
  - done.
  - by rewrite Hnew.
  - rewrite Hnew. by apply renumber_set_related.
  - by rewrite Hsorted, map_app.
Qed.

Lemma sort_loop_sim fuel st st' st_f :
  sort_sim objs σ st st' →
  sort_loop fifo_pick fifo_push fuel objs st = Ok st_f →
  ∃ st_f',
    sort_loop fifo_pick fifo_push fuel objs' st' = Ok st_f'
    ∧ sort_sim objs σ st_f st_f'.
Proof.
  revert st st'. induction fuel as [|fuel IH]; intros st st' Hsim Hrun.
  - simpl in *. pose proof (sim_queue _ _ _ _ Hsim) as Hq.
    destruct (st_queue st) as [|x q]; [|done].
    rewrite Hq. simpl. injection Hrun as <-. by exists st'.
  - simpl in *. pose proof (sim_queue _ _ _ _ Hsim) as Hq.
    destruct (st_queue st) as [|x q] eqn:Hqueue.
    + rewrite Hq. simpl. injection Hrun as <-. by exists st'.
    + rewrite Hq. simpl.
      destruct (sort_round_sim st st' x q Hsim Hqueue)
        as (st1 & st1' & Hr1 & Hr1' & Hsim1).
      rewrite Hr1 in Hrun. rewrite Hr1'. simpl in *.
      by apply (IH st1 st1').
Qed.

End simulation.

(** [sort_kahn] leaves a graph it has sorted as it is. *)
Lemma sort_kahn_twice objs :
  well_formed objs →
  ∃ g1, sort_kahn (mk_graph objs) = Ok (tt, g1)
        ∧ sort_kahn g1 = Ok (tt, g1).
Proof.
  intros Hwf. destruct (Z.le_gt_cases (vec_length objs) 1) as [Hsmall|Hbig].
  { exists (mk_graph objs). split; by apply sort_kahn_small. }
  pose proof (wf_length _ Hwf) as Hlt.
  assert (1 <= vec_length objs) as Hlen by lia.
  destruct (sort_loop_run objs fifo_pick fifo_push Hwf Hlen
              (fifo_pick_spec _) (fifo_push_spec _))
    as (popped & st & Hrun & Hinv & Hc & Hq).
  set (σ := hb_map.get (st_id_map st)).
  set (sorted := map (fun v => renumber σ (vec_get objs v)) popped).
  pose proof (finish_renumbering objs Hwf Hlen popped st Hinv Hc Hq) as Hrn.
  pose proof (finish_order objs Hwf Hlen popped st Hinv Hc Hq) as Hord.
  fold σ in Hrn, Hord. fold sorted in Hrn.
  destruct (renumber_well_formed objs (reverse sorted) σ Hrn Hwf Hord)
    as [Hwf1 Hrt1].
  pose proof (rn_length _ _ _ Hrn) as Hlen1.
  exists (mk_graph (reverse sorted)). split.
  - rewrite sort_kahn_unfold by lia. unfold sort_outcome. rewrite Hrun. simpl.
    rewrite (finish_new_id objs Hwf Hlen popped st Hinv Hc Hq). simpl.
    rewrite (finish_remap objs Hwf Hlen popped st Hinv Hc Hq). done.
  - rewrite sort_kahn_unfold by lia.
    assert (length (reverse sorted) = length objs) as Hlength
      by (unfold vec_length in Hlen1; lia).
    rewrite Hlength.
    destruct (sort_loop_sim objs (reverse sorted) σ Hrn (wf_range _ Hwf) Hlt
                (length objs) (sort_start objs) (sort_start (reverse sorted))
                st) as (st' & Hrun' & Hsim); [|done|].
    { constructor; simpl.
      - rewrite Hlen1. by rewrite (rn_root _ _ _ Hrn).
      - intros y Hy. apply list_elem_of_singleton in Hy as ->. lia.
      - intros v Hv.
        rewrite (incoming_edge_count_spec objs v Hlt (wf_links _ Hwf)
                   (wf_range _ Hwf) Hv).
        rewrite incoming_edge_count_spec.
        + exact (occ_all_children_renumber objs (reverse sorted) σ Hrn v
                   (wf_range _ Hwf) Hv).
        + apply Hwf1.
        + apply Hwf1.
        + apply Hwf1.
        + rewrite Hlen1. by apply (rn_range _ _ _ Hrn).
      - by rewrite Hlen1.
      - intros v Hv. by rewrite !hb_map_get_empty.
      - done. }
    unfold sort_outcome. rewrite Hrun'. simpl.
    rewrite (sim_new_id _ _ _ _ Hsim).
    rewrite (finish_new_id objs Hwf Hlen popped st Hinv Hc Hq). simpl.
    rewrite (sim_sorted _ _ _ _ Hsim), (inv_sorted _ _ _ Hinv), map_map.
    fold sorted.
    assert (∀ j, 0 <= j < vec_length objs →
                 hb_map.get (st_id_map st') j = j) as Hidentity.
    { intros j Hj. destruct (rn_surj _ _ _ Hrn j Hj) as (v & Hv & <-).
      by rewrite (sim_id _ _ _ _ Hsim v Hv). }
    assert (∀ o l, o ∈ sorted → l ∈ links o →
                   0 <= objidx l < vec_length objs) as Hlinks.
    { intros o l Ho Hl.
      destruct (object_links_edge (reverse sorted) o l) as [p Hedge];
        [by apply elem_of_reverse | done|].
      rewrite <- Hlen1. by apply (wf_range _ Hwf1 p). }
    rewrite remap_obj_indices_ok.
    + simpl. rewrite map_id_elem; [done|].
      intros o Ho. apply renumber_id. intros l Hl.
      apply Hidentity. by apply (Hlinks o).
    + intros o l Ho Hl. apply hb_map_has_get.
      rewrite Hidentity by (by apply (Hlinks o)).
      pose proof (Hlinks o l Ho Hl). unfold hb_map.INVALID. lia.
Qed.

(** ** Graphs with an object the root does not reach *)

Lemma closest_object_outcome (q : list Z) distance_to :
  closest_object q distance_to = Fatal GraphStructureError
  ∨ ∃ x, closest_object q distance_to = Ok x.
Proof.
  unfold closest_object. destruct (fold_left _ _ _) as [cd ci].
  destruct (ci =? wrap_u32 (-1)); [by left | right; by exists ci].
Qed.

Section unreachable.

Context (objs : list object_t) (u : Z).
Hypothesis Hlen : vec_length objs < 2 ^ 31.
Hypothesis Hu : 0 <= u < vec_length objs.
Hypothesis Hunreachable : ¬ rtc (edge objs) (vec_length objs - 1) u.

Lemma unreachable_two_objects : 2 <= vec_length objs.
Proof.
  destruct (decide (u = vec_length objs - 1)) as [Heq|Hne]; [|lia].
  exfalso. apply Hunreachable. by rewrite <- Heq.
Qed.

Lemma sort_kahn_fails_unreachable :
  Z.of_nat (length (all_children objs)) < 2 ^ 32 - 1 →
  links_in_range objs →
  ¬ tc (edge objs) (vec_length objs - 1) (vec_length objs - 1) →
  sort_kahn (mk_graph objs) = Fatal GraphStructureError.
Proof.
  intros Hlinks Hrange Hac. pose proof unreachable_two_objects as Htwo.
  rewrite sort_kahn_unfold by lia.
  assert (1 <= vec_length objs < 2 ^ 31) as Hl by lia.
  destruct (sort_loop_inv objs Hl Hlinks Hrange Hac fifo_pick fifo_push
              (fifo_pick_spec _) (fifo_push_spec _)
              (length objs) [] (sort_start objs))
    as (popped & st & Hrun & Hq & Hinv & _).
  - apply sort_inv_initial; [lia | done | done].
  - simpl. unfold vec_length. lia.
  - unfold sort_outcome. rewrite Hrun. simpl.
    assert (u ∉ popped) as Hup.
    { intros Hin. apply Hunreachable, (inv_reach _ _ _ Hinv).
      apply elem_of_app. by left. }
    assert (Z.of_nat (length (u :: popped)) <= vec_length objs) as Hle.
    { apply in_range_length; [lia | |].
      - apply NoDup_cons. split; [done|]. by eapply sort_inv_popped_NoDup.
      - intros y Hy. apply elem_of_cons in Hy as [->|Hy]; [done|].
        by eapply sort_inv_popped_range. }
    simpl in Hle. rewrite (inv_new_id _ _ _ Hinv).
    destruct (Z.eqb_spec (vec_length objs - 1 - Z.of_nat (length popped)) (-1));
      [lia | done].
Qed.

Lemma compute_distances_loop_fails fuel (unvisited : list Z) distance_to :
  u ∈ unvisited →
  (∀ v, v ∈ unvisited → dist_get distance_to v < INT64_MAX →
        rtc (edge objs) (vec_length objs - 1) v) →
  (length unvisited <= fuel)%nat →
  compute_distances_loop fuel objs unvisited distance_to
  = Fatal GraphStructureError.
Proof.
  revert unvisited distance_to.
  induction fuel as [|fuel IH]; intros U d HuU Hreach Hfuel.
  - destruct U; [by apply elem_of_nil in HuU | simpl in Hfuel; lia].
  - simpl. destruct U as [|y Ut] eqn:HU; [by apply elem_of_nil in HuU|].
    rewrite <- HU in *. replace (hb_set.is_empty U) with false by (by rewrite HU).
    destruct (closest_object_outcome U d) as [->|[x Hx]]; [done|].
    rewrite Hx. simpl. apply closest_object_elem in Hx as [HxU Hxd].
    pose proof (Hreach x HxU Hxd) as Hxr.
    apply IH.
    + apply hb_set_elem_of_del. split; [done|]. by intros ->.
    + intros v Hv Hvd. apply hb_set_elem_of_del in Hv as [Hv Hvx].
      match type of Hvd with
      | dist_get ?d' v < _ =>
          destruct (decide (dist_get d' v = dist_get d v)) as [Heq|Hch]
      end.
      * apply Hreach; [done|]. by rewrite <- Heq.
      * apply relax_fold_changes in Hch as [Hch _].
        eapply rtc_r; [exact Hxr|]. done.
    + pose proof (hb_set_length_del x U HxU). lia.
Qed.

Lemma compute_distances_fails :
  compute_distances objs = Fatal GraphStructureError.
Proof.
  pose proof unreachable_two_objects as Htwo.
  unfold compute_distances. rewrite wrap_u32_id by lia.
  destruct (hb_set_add_range (vec_length objs)) as [Hnd Hmem];
    [lia | unfold hb_set.INVALID; lia|].
  apply compute_distances_loop_fails.
  - by apply Hmem.
  - intros v Hv Hvd. apply Hmem in Hv.
    destruct (decide (v = vec_length objs - 1)) as [->|Hne]; [done|].
    rewrite dist_get_set_ne in Hvd by done.
    rewrite dist_get_replicate in Hvd by (unfold vec_length in Hv; lia).
    lia.
  - assert (Z.of_nat (length (hb_set.add_range 0 (vec_length objs - 1) []))
            <= vec_length objs); [|unfold vec_length in *; lia].
    apply in_range_length; [lia | done|]. intros y Hy. by apply Hmem.
Qed.

Lemma sort_shortest_distance_fails_unreachable :
  sort_shortest_distance (mk_graph objs) = Fatal GraphStructureError.
Proof.
  pose proof unreachable_two_objects as Htwo.
  rewrite sort_shortest_distance_unfold by lia.
  by rewrite compute_distances_fails.
Qed.

End unreachable.

(** ** The layout of a graph in reverse topological order *)

Lemma payload_total_app l1 l2 :
  payload_total (l1 ++ l2) = payload_total l1 + payload_total l2.
Proof. induction l1 as [|o l1 IH]; simpl; lia. Qed.

Lemma payload_total_nonneg l : Forall payload_ok l → 0 <= payload_total l.
Proof.
  induction 1 as [|o l Ho _ IH]; simpl; [lia|]. unfold payload_ok in Ho. lia.
Qed.

Lemma payload_total_drop_le (a b : nat) l :
  Forall payload_ok l → (a <= b)%nat →
  payload_total (drop b l) <= payload_total (drop a l).
Proof.
  intros Hok Hab. replace b with (a + (b - a))%nat by lia.
  rewrite <- drop_drop.
  rewrite <- (take_drop (b - a) (drop a l)) at 2.
  rewrite payload_total_app.
  assert (0 <= payload_total (take (b - a) (drop a l))); [|lia].
  apply payload_total_nonneg. by apply Forall_take, Forall_drop.
Qed.

Lemma payload_total_drop_total (a : nat) l :
  Forall payload_ok l → 0 <= payload_total (drop a l) <= payload_total l.
Proof.
  intros Hok. split.
  - by apply payload_total_nonneg, Forall_drop.
  - pose proof (payload_total_drop_le 0 a l Hok). rewrite drop_0 in H.
    apply H. lia.
Qed.

Lemma layout_positions_spec (k : nat) objs s e pos :
  (k <= length objs)%nat → vec_length objs < 2 ^ 31 →
  Forall payload_ok objs →
  0 <= pos → pos + payload_total (take k objs) < 2 ^ 32 →
  let r := layout_positions k objs s e pos in
  (∀ i : nat, (i < k)%nat →
     hb_map.get (fst r) (Z.of_nat i)
     = pos + payload_total (drop (S i) (take k objs))
     ∧ hb_map.get (snd r) (Z.of_nat i)
       = pos + payload_total (drop i (take k objs)))
  ∧ (∀ i : nat, (k <= i)%nat →
       hb_map.get (fst r) (Z.of_nat i) = hb_map.get s (Z.of_nat i)
       ∧ hb_map.get (snd r) (Z.of_nat i) = hb_map.get e (Z.of_nat i)).
Proof.
  revert s e pos. induction k as [|k IH]; intros s e pos Hk Hlen Hok Hpos Hsum.
  - simpl. split; [lia | done].
  - simpl.
    destruct (lookup_lt_is_Some_2 objs k) as [o Ho]; [lia|].
    rewrite (vec_get_of_lookup _ _ _ Ho).
    assert (payload_ok o) as Hoo.
    { rewrite Forall_forall in Hok. apply Hok. by eapply list_elem_of_lookup_2. }
    rewrite (take_S_r _ _ _ Ho), payload_total_app in Hsum. simpl in Hsum.
    pose proof (payload_total_nonneg (take k objs)
                  (Forall_take _ _ _ Hok)) as Hnn.
    unfold payload_ok in Hoo. unfold payload_size.
    rewrite (wrap_s64_id (tail o - head o)) by lia.
    assert (0 <= pos + (tail o - head o) < 2 ^ 32) as Hfit by lia.
    rewrite (wrap_u32_id _ Hfit).
    assert (Z.of_nat k ≠ hb_map.INVALID) as Hkey
      by (unfold hb_map.INVALID, vec_length in *; lia).
    destruct (IH (hb_map.set (Z.of_nat k) pos s)
                (hb_map.set (Z.of_nat k) (pos + (tail o - head o)) e)
                (pos + (tail o - head o))) as [IHlt IHge];
      [lia | done | done | lia | lia |].
    split.
    + intros i Hi. rewrite (take_S_r _ _ _ Ho).
      destruct (decide (i = k)) as [->|Hne].
      * destruct (IHge k) as [-> ->]; [lia|].
        rewrite !hb_map_get_set_eq by done.
        assert (drop k (take k objs ++ [o]) = [o]) as ->
          by (apply drop_app_length'; rewrite length_take; lia).
        assert (drop (S k) (take k objs ++ [o]) = []) as ->
          by (apply drop_ge; rewrite length_app, length_take; simpl; lia).
        simpl. lia.
      * destruct (IHlt i) as [-> ->]; [lia|].
        assert (length (take k objs) = k) as Hlk by (rewrite length_take; lia).
        rewrite !drop_app_le by lia. rewrite !payload_total_app. simpl. lia.
    + intros i Hi. destruct (IHge i) as [-> ->]; [lia|].
      rewrite !hb_map_get_set_ne by lia. done.
Qed.

Lemma layout_spec objs (i : nat) :
  vec_length objs < 2 ^ 31 → Forall payload_ok objs →
  payload_total objs < 2 ^ 32 → (i < length objs)%nat →
  hb_map.get (fst (layout objs)) (Z.of_nat i)
  = payload_total (drop (S i) objs)
  ∧ hb_map.get (snd (layout objs)) (Z.of_nat i)
    = payload_total (drop i objs).
Proof.
  intros Hlen Hok Hsum Hi. unfold layout.
  assert (1 <= vec_length objs) as Hone by (unfold vec_length; lia).
  rewrite wrap_u32_id by lia. rewrite wrap_s32_id by lia.
  replace (Z.to_nat (vec_length objs - 1 + 1)) with (length objs)
    by (unfold vec_length; lia).
  destruct (layout_positions_spec (length objs) objs ∅ ∅ 0) as [Hlt _];
    [lia | done | done | lia | by rewrite firstn_all|].
  destruct (Hlt i Hi) as [Hs He]. rewrite firstn_all in Hs, He.
  split; [rewrite Hs | rewrite He]; lia.
Qed.

(** In the layout of a graph in reverse topological order with less
    than 2^32 bytes of payload, no child starts before the anchor of
    a link to it. *)
Lemma layout_raw_offset_range objs p link :
  reverse_topological objs → vec_length objs < 2 ^ 31 →
  Forall payload_ok objs → payload_total objs < 2 ^ 32 →
  link ∈ links (vec_get objs p) →
  0 <= raw_offset p link (fst (layout objs)) (snd (layout objs)) < 2 ^ 32.
Proof.
  intros Hrt Hlen Hok Hsum Hlink.
  assert (edge objs p (objidx link)) as Hedge.
  { unfold edge, children. apply list_elem_of_fmap. by exists link. }
  pose proof (edge_parent_in_range _ _ _ Hedge) as Hp.
  pose proof (Hrt _ _ Hedge) as Hc.
  destruct (layout_spec objs (Z.to_nat p) Hlen Hok Hsum) as [Hsp Hep];
    [unfold vec_length in Hp; lia|].
  destruct (layout_spec objs (Z.to_nat (objidx link)) Hlen Hok Hsum)
    as [Hsc _]; [unfold vec_length in Hp; lia|].
  rewrite Z2Nat.id in Hsp, Hep, Hsc by lia.
  pose proof (payload_total_drop_total (S (Z.to_nat (objidx link))) objs Hok).
  pose proof (payload_total_drop_total (S (Z.to_nat p)) objs Hok).
  pose proof (payload_total_drop_total (Z.to_nat p) objs Hok).
  pose proof (payload_total_drop_le (S (Z.to_nat (objidx link)))
                (Z.to_nat p) objs Hok).
  pose proof (payload_total_drop_le (Z.to_nat p) (S (Z.to_nat p)) objs Hok).
  unfold raw_offset. destruct (whence link); rewrite ?Hsp, ?Hep, ?Hsc; lia.
Qed.

(** ** The offset computation (C3) *)

(** Where the raw offset over the integers is a value of [unsigned],
    the [unsigned] differences [compute_offset] takes are that raw
    offset. *)
Lemma compute_offset_within_range
    (parent_idx : Z) (link : link_t) (start_positions end_positions : hb_map_t) :
  0 <= raw_offset parent_idx link start_positions end_positions < 2 ^ 32 →
  compute_offset parent_idx link start_positions end_positions =
    if raw_offset parent_idx link start_positions end_positions <? bias link
    then Fatal OffsetUnderflow
    else Ok (raw_offset parent_idx link start_positions end_positions
             - bias link).
Proof.
  unfold compute_offset, raw_offset. intros H.
  destruct (whence link); rewrite ?wrap_u32_id by exact H; reflexivity.
Qed.

(** For every link of a graph in reverse topological order with less
    than 2^32 bytes of payload the oracle is the formula of the
    specification. *)
Lemma oracle_offset_formula objs p link :
  reverse_topological objs → vec_length objs < 2 ^ 31 →
  Forall payload_ok objs → payload_total objs < 2 ^ 32 →
  link ∈ links (vec_get objs p) →
  compute_offset p link (fst (layout objs)) (snd (layout objs)) =
    if raw_offset p link (fst (layout objs)) (snd (layout objs)) <? bias link
    then Fatal OffsetUnderflow
    else Ok (raw_offset p link (fst (layout objs)) (snd (layout objs))
             - bias link).
Proof.
  intros Hrt Hlen Hok Hsum Hlink.
  apply compute_offset_within_range.
  by apply layout_raw_offset_range.
Qed.

(** C3: for every link of a Graph, an object sequence in reverse
    topological order (within the limits of the representation:
    fewer than 2^31 objects, payloads with consistent anchors that
    take fewer than 2^32 bytes together), under the positions
    [will_overflow] presents, the oracle computes the raw offset by
    anchor (Head: start[c] - start[p]; Tail: start[c] - end[p];
    Absolute: start[c]) and the encoded value as the raw offset minus
    the bias: it fails with [OffsetUnderflow] when the bias exceeds
    the raw offset and returns exactly that value otherwise. *)
Theorem compute_offset_formula
    (objs : list object_t) (parent_idx : Z) (link : link_t) :
  reverse_topological objs → vec_length objs < 2 ^ 31 →
  Forall payload_ok objs → payload_total objs < 2 ^ 32 →
  link ∈ links (vec_get objs parent_idx) →
  compute_offset parent_idx link (fst (layout objs)) (snd (layout objs)) =
    if raw_offset parent_idx link (fst (layout objs)) (snd (layout objs))
       <? bias link
    then Fatal OffsetUnderflow
    else Ok (raw_offset parent_idx link (fst (layout objs))
               (snd (layout objs)) - bias link).
Proof.
  intros Hrt Hlen Hok Hsum Hlink.
  exact (oracle_offset_formula objs parent_idx link Hrt Hlen Hok Hsum Hlink).
Qed.

Lemma compute_offset_formula_witness :
  raw_offset 2 (narrow_unsigned 1) (fst (layout chain_objects))
    (snd (layout chain_objects)) = 10
  ∧ compute_offset 2 (narrow_unsigned 1) (fst (layout chain_objects))
      (snd (layout chain_objects)) = Ok 10
  ∧ compute_offset 1 (mk_link false false Head 0 15 0)
      (fst (layout [ mk_object 120 130 [];
                     mk_object 110 120 [mk_link false false Head 0 15 0] ]))
      (snd (layout [ mk_object 120 130 [];
                     mk_object 110 120 [mk_link false false Head 0 15 0] ]))
    = Fatal OffsetUnderflow.
Proof.
  split; [reflexivity|]. split.
  - rewrite (compute_offset_formula chain_objects 2 (narrow_unsigned 1)).
    + reflexivity.
    + by apply reverse_topological_from_sound.
    + reflexivity.
    + repeat constructor; simpl; lia.
    + reflexivity.
    + simpl. left.
  - rewrite (compute_offset_formula
               [ mk_object 120 130 [];
                 mk_object 110 120 [mk_link false false Head 0 15 0] ]
               1 (mk_link false false Head 0 15 0)).
    + reflexivity.
    + by apply reverse_topological_from_sound.
    + reflexivity.
    + repeat constructor; simpl; lia.
    + reflexivity.
    + simpl. left.
Defined.

(** ** The scenario graphs are well formed *)

Ltac solve_edge :=
  unfold edge, children; vm_compute;
  repeat first [ apply list_elem_of_here | apply list_elem_of_further ].

Lemma forced_objects_well_formed : well_formed forced_objects.
Proof.
  assert (reverse_topological forced_objects) as Hrt
    by (by apply reverse_topological_from_sound).
  constructor.
  - reflexivity.
  - reflexivity.
  - by apply reverse_topological_in_range.
  - by apply reverse_topological_acyclic.
  - intros v Hv. change (vec_length forced_objects) with 3 in *.
    assert (v = 0 ∨ v = 1 ∨ v = 2) as [->|[->| ->]] by lia.
    + apply rtc_once. solve_edge.
    + apply rtc_once. solve_edge.
    + done.
Qed.

Lemma fanout_objects_well_formed : well_formed fanout_objects.
Proof.
  assert (reverse_topological fanout_objects) as Hrt
    by (by apply reverse_topological_from_sound).
  constructor.
  - reflexivity.
  - reflexivity.
  - by apply reverse_topological_in_range.
  - by apply reverse_topological_acyclic.
  - intros v Hv. change (vec_length fanout_objects) with 3 in *.
    assert (v = 0 ∨ v = 1 ∨ v = 2) as [->|[->| ->]] by lia.
    + apply rtc_once. solve_edge.
    + apply rtc_once. solve_edge.
    + done.
Qed.

Lemma chain_objects_well_formed : well_formed chain_objects.
Proof.
  assert (reverse_topological chain_objects) as Hrt
    by (by apply reverse_topological_from_sound).
  constructor.
  - reflexivity.
  - reflexivity.
  - by apply reverse_topological_in_range.
  - by apply reverse_topological_acyclic.
  - intros v Hv. change (vec_length chain_objects) with 3 in *.
    assert (v = 0 ∨ v = 1 ∨ v = 2) as [->|[->| ->]] by lia.
    + apply (rtc_l _ 2 1 0); [solve_edge | apply rtc_once; solve_edge].
    + apply rtc_once. solve_edge.
    + done.
Qed.

Lemma detour_objects_well_formed : well_formed detour_objects.
Proof.
  assert (reverse_topological detour_objects) as Hrt
    by (by apply reverse_topological_from_sound).
  constructor.
  - reflexivity.
  - reflexivity.
  - by apply reverse_topological_in_range.
  - by apply reverse_topological_acyclic.
  - intros v Hv. change (vec_length detour_objects) with 4 in *.
    assert (v = 0 ∨ v = 1 ∨ v = 2 ∨ v = 3) as [->|[->|[->| ->]]] by lia.
    + apply rtc_once. solve_edge.
    + apply (rtc_l _ 3 2 1); [solve_edge | apply rtc_once; solve_edge].
    + apply rtc_once. solve_edge.
    + done.
Qed.

Lemma orphan_objects_reach v :
  rtc (edge orphan_objects) 2 v → v = 2 ∨ v = 1.
Proof.
  revert v. apply rtc_ind_r; [by left|].
  intros y z _ Hedge [->| ->]; unfold edge, children in Hedge;
    vm_compute in Hedge.
  - apply list_elem_of_singleton in Hedge as ->. by right.
  - by apply elem_of_nil in Hedge.
Qed.

Lemma self_linked_objects_reach v :
  rtc (edge self_linked_objects) 1 v → v = 1.
Proof.
  revert v. apply rtc_ind_r; [done|].
  intros y z _ Hedge ->. unfold edge, children in Hedge.
  vm_compute in Hedge. by apply list_elem_of_singleton in Hedge.
Qed.

Lemma dangling_objects_reach v :
  rtc (edge dangling_objects) 2 v → v = 2 ∨ v = 7 ∨ v = 8.
Proof.
  revert v. apply rtc_ind_r; [by left|].
  intros y z _ Hedge [->|[->| ->]]; unfold edge, children in Hedge;
    vm_compute in Hedge.
  - apply elem_of_cons in Hedge as [->|Hedge]; [by right; left|].
    apply list_elem_of_singleton in Hedge as ->. by right; right.
  - by apply elem_of_nil in Hedge.
  - by apply elem_of_nil in Hedge.
Qed.

Lemma fanout_objects_payload_ok : Forall payload_ok fanout_objects.
Proof. repeat constructor; simpl; lia. Qed.

Lemma chain_objects_payload_ok : Forall payload_ok chain_objects.
Proof. repeat constructor; simpl; lia. Qed.

Lemma detour_objects_payload_ok : Forall payload_ok detour_objects.
Proof. repeat constructor; simpl; lia. Qed.

(** ** The claims about the sorts and the driver *)

(** C2: after either sort on a root-connected acyclic graph (within
    the limits of the representation: [well_formed], and payloads of
    32-bit size) the object sequence is a valid reverse topological
    order: every link goes from its parent to a strictly lower index;
    the root object is still at the highest index and reaches every
    object. *)
Theorem sorts_give_reverse_topological_order (objs : list object_t) :
  well_formed objs →
  Forall payload_ok objs →
  (∃ objs',
     sort_kahn (mk_graph objs) = Ok (tt, mk_graph objs')
     ∧ (∀ p c, edge objs' p c → 0 <= c < p)
     ∧ vec_length objs' = vec_length objs
     ∧ root_connected objs'
     ∧ ∃ σ, vec_get objs' (vec_length objs - 1)
            = renumber σ (vec_get objs (vec_length objs - 1)))
  ∧ (∃ objs',
       sort_shortest_distance (mk_graph objs) = Ok (tt, mk_graph objs')
       ∧ (∀ p c, edge objs' p c → 0 <= c < p)
       ∧ vec_length objs' = vec_length objs
       ∧ root_connected objs'
       ∧ ∃ σ, vec_get objs' (vec_length objs - 1)
              = renumber σ (vec_get objs (vec_length objs - 1))).
Proof.
  intros Hwf Hpay. split.
  - destruct (sort_kahn_well_formed objs Hwf)
      as (objs' & Hrun & Hwf' & Hrt & Hlen & _ & Hroot).
    exists objs'. split; [done|]. split; [exact Hrt|]. split; [done|].
    split; [apply Hwf' | done].
  - destruct (sort_shortest_distance_well_formed objs Hwf Hpay)
      as (objs' & Hrun & Hwf' & Hrt & Hlen & Hroot).
    exists objs'. split; [done|]. split; [exact Hrt|]. split; [done|].
    split; [apply Hwf' | done].
Qed.

Lemma sorts_give_reverse_topological_order_witness :
  well_formed fanout_objects
  ∧ Forall payload_ok fanout_objects
  ∧ (∃ objs',
       sort_kahn (mk_graph fanout_objects) = Ok (tt, mk_graph objs')
       ∧ (∀ p c, edge objs' p c → 0 <= c < p)
       ∧ vec_length objs' = vec_length fanout_objects
       ∧ root_connected objs'
       ∧ ∃ σ, vec_get objs' (vec_length fanout_objects - 1)
              = renumber σ (vec_get fanout_objects
                              (vec_length fanout_objects - 1)))
  ∧ (∃ objs',
       sort_shortest_distance (mk_graph fanout_objects)
       = Ok (tt, mk_graph objs')
       ∧ (∀ p c, edge objs' p c → 0 <= c < p)
       ∧ vec_length objs' = vec_length fanout_objects
       ∧ root_connected objs'
       ∧ ∃ σ, vec_get objs' (vec_length fanout_objects - 1)
              = renumber σ (vec_get fanout_objects
                              (vec_length fanout_objects - 1))).
Proof.
  split; [exact fanout_objects_well_formed|].
  split; [exact fanout_objects_payload_ok|].
  exact (sorts_give_reverse_topological_order fanout_objects
           fanout_objects_well_formed fanout_objects_payload_ok).
Defined.

(** C8: Kahn sort is idempotent.  On a root-connected acyclic graph
    (within the limits of the representation), [sort_kahn] run twice
    in a row gives the graph [sort_kahn] run once gives: the same
    object order with the same link indexes. *)
Theorem sort_kahn_idempotent (objs : list object_t) :
  well_formed objs →
  ∃ g1, sort_kahn (mk_graph objs) = Ok (tt, g1)
        ∧ mbind sort_kahn (fun _ => sort_kahn) (mk_graph objs) = Ok (tt, g1).
Proof.
  intros Hwf. destruct (sort_kahn_twice objs Hwf) as (g1 & H1 & H2).
  exists g1. split; [done|]. unfold mbind. by rewrite H1.
Qed.

Lemma sort_kahn_idempotent_witness :
  well_formed fanout_objects
  ∧ ∃ g1, sort_kahn (mk_graph fanout_objects) = Ok (tt, g1)
          ∧ mbind sort_kahn (fun _ => sort_kahn) (mk_graph fanout_objects)
            = Ok (tt, g1).
Proof.
  split; [exact fanout_objects_well_formed|].
  exact (sort_kahn_idempotent fanout_objects fanout_objects_well_formed).
Defined.

Lemma hb_resolve_overflows_unfold packed c g g1 :
  graph_t_new packed = Ok g → sort_kahn g = Ok (tt, g1) →
  hb_resolve_overflows packed c =
    match will_overflow g1 with
    | Ok (overflow, g1') =>
        r <- (_ <~ (if (overflow : bool) then sort_shortest_distance
                    else mret tt) ;; serialize c) g1' ;;
        Ok (fst r)
    | Fatal e => Fatal e
    | OutOfFuel => OutOfFuel
    | Undefined => Undefined
    end.
Proof.
  intros Hnew Hkahn. unfold hb_resolve_overflows. rewrite Hnew. simpl.
  unfold mbind at 1. rewrite Hkahn. unfold mbind at 1.
  by destruct (will_overflow g1) as [[b g']| | |].
Qed.

(** C1: on an acyclic, root-connected packed list (within the limits
    of the representation: [well_formed], and payloads of 32-bit size)
    the driver first runs the Kahn sort, which succeeds.  If the
    oracle then reports no overflow, the outcome is the re-emission of
    the Kahn-sorted graph, with no distance sort; if it reports an
    overflow, the distance sort runs once, succeeds, and the outcome
    is the re-emission of its result, whatever it is.  A fatal oracle
    ends the run. *)
Theorem hb_resolve_overflows_strategy
    (packed : list (option object_t)) (c : sink) (g : graph_t) :
  graph_t_new packed = Ok g →
  well_formed (objects_ g) →
  Forall payload_ok (objects_ g) →
  ∃ g1,
    sort_kahn g = Ok (tt, g1)
    ∧ match will_overflow g1 with
      | Ok (false, _) =>
          hb_resolve_overflows packed c = (r <- serialize c g1 ;; Ok (fst r))
      | Ok (true, _) =>
          ∃ g2, sort_shortest_distance g1 = Ok (tt, g2)
                ∧ hb_resolve_overflows packed c
                  = (r <- serialize c g2 ;; Ok (fst r))
      | Fatal e => hb_resolve_overflows packed c = Fatal e
      | OutOfFuel => hb_resolve_overflows packed c = OutOfFuel
      | Undefined => hb_resolve_overflows packed c = Undefined
      end.
Proof.
  intros Hnew Hwf Hpay. destruct g as [objs]. simpl in Hwf, Hpay.
  destruct (sort_kahn_well_formed objs Hwf)
    as (objs1 & Hkahn & Hwf1 & _ & _ & Hpay1 & _).
  exists (mk_graph objs1). split; [done|].
  rewrite (hb_resolve_overflows_unfold packed c _ _ Hnew Hkahn).
  destruct (will_overflow_outcome (mk_graph objs1)) as [Hov|[b Hov]];
    rewrite Hov.
  - reflexivity.
  - destruct b.
    + destruct (sort_shortest_distance_well_formed objs1 Hwf1 (Hpay1 Hpay))
        as (objs2 & Hdist & _).
      exists (mk_graph objs2). split; [done|].
      unfold mbind. by rewrite Hdist.
    + reflexivity.
Qed.

Lemma hb_resolve_overflows_strategy_witness :
  graph_t_new chain_packed = Ok (mk_graph chain_objects)
  ∧ well_formed chain_objects
  ∧ Forall payload_ok chain_objects
  ∧ ∃ g1,
      sort_kahn (mk_graph chain_objects) = Ok (tt, g1)
      ∧ match will_overflow g1 with
        | Ok (false, _) =>
            hb_resolve_overflows chain_packed (mk_sink [] 100)
            = (r <- serialize (mk_sink [] 100) g1 ;; Ok (fst r))
        | Ok (true, _) =>
            ∃ g2, sort_shortest_distance g1 = Ok (tt, g2)
                  ∧ hb_resolve_overflows chain_packed (mk_sink [] 100)
                    = (r <- serialize (mk_sink [] 100) g2 ;; Ok (fst r))
        | Fatal e => hb_resolve_overflows chain_packed (mk_sink [] 100) = Fatal e
        | OutOfFuel =>
            hb_resolve_overflows chain_packed (mk_sink [] 100) = OutOfFuel
        | Undefined =>
            hb_resolve_overflows chain_packed (mk_sink [] 100) = Undefined
        end.
Proof.
  split; [reflexivity|]. split; [exact chain_objects_well_formed|].
  split; [exact chain_objects_payload_ok|].
  exact (hb_resolve_overflows_strategy chain_packed (mk_sink [] 100)
           (mk_graph chain_objects) eq_refl chain_objects_well_formed
           chain_objects_payload_ok).
Defined.

(** C7, the claim as stated fails: [sort_kahn] returns a graph, and no
    [GraphStructureError], on a graph whose root links to itself and
    on a graph whose root links to indexes outside the graph, although
    in both object 0 is not reachable from the root. *)
Lemma sort_kahn_accepts_unreachable_object :
  (¬ rtc (edge self_linked_objects) (vec_length self_linked_objects - 1) 0
   ∧ sort_kahn (mk_graph self_linked_objects)
     = Ok (tt, mk_graph [ mk_object 0 4 [narrow_unsigned 0];
                          mk_object 0 4 [narrow_unsigned 0] ]))
  ∧ (¬ rtc (edge dangling_objects) (vec_length dangling_objects - 1) 0
     ∧ sort_kahn (mk_graph dangling_objects)
       = Ok (tt, mk_graph [ mk_object 0 0 []; mk_object 0 0 [];
                            mk_object 0 4 [narrow_unsigned 1;
                                           narrow_unsigned 0] ])).
Proof.
  split; split.
  - intros H. by apply self_linked_objects_reach in H.
  - reflexivity.
  - intros H. apply dangling_objects_reach in H. lia.
  - reflexivity.
Qed.

Lemma cyclic_orphan_objects_edge p c :
  edge cyclic_orphan_objects p c →
  (p = 1 ∧ c = 2) ∨ (p = 2 ∧ c = 1) ∨ (p = 3 ∧ c = 1).
Proof.
  intros Hedge. pose proof (edge_parent_in_range _ _ _ Hedge) as Hp.
  unfold vec_length in Hp. simpl in Hp. unfold edge, children in Hedge.
  assert (p = 0 ∨ p = 1 ∨ p = 2 ∨ p = 3) as [-> | [-> | [-> | ->]]] by lia;
    vm_compute in Hedge.
  - by apply elem_of_nil in Hedge.
  - apply list_elem_of_singleton in Hedge as ->. by left.
  - apply list_elem_of_singleton in Hedge as ->. right. by left.
  - apply list_elem_of_singleton in Hedge as ->. right. by right.
Qed.

Lemma cyclic_orphan_objects_reach v :
  rtc (edge cyclic_orphan_objects) 3 v → v = 3 ∨ v = 1 ∨ v = 2.
Proof.
  revert v. apply rtc_ind_r; [by left|].
  intros y z _ Hedge _.
  apply cyclic_orphan_objects_edge in Hedge
    as [[_ ->] | [[_ ->] | [_ ->]]]; lia.
Qed.

Lemma cyclic_orphan_objects_cycle : ¬ acyclic cyclic_orphan_objects.
Proof.
  intros Hac. apply (Hac 1).
  apply (tc_l _ 1 2 1); [|apply tc_once]; solve_edge.
Qed.

(** A root no object links to lies on no cycle. *)
Lemma root_without_parent_on_no_cycle objs :
  (∀ p, ¬ edge objs p (vec_length objs - 1)) →
  ¬ tc (edge objs) (vec_length objs - 1) (vec_length objs - 1).
Proof.
  intros Hnone Hcycle.
  assert (∀ x y, tc (edge objs) x y → y = vec_length objs - 1 → False) as H.
  { induction 1 as [x y Hxy|x y z Hxy _ IH]; intros Heq.
    - subst y. by apply (Hnone x).
    - by apply IH. }
  by apply (H _ _ Hcycle).
Qed.

(** C7 (amended): on every graph (of fewer than 2^31 objects) in
    which some object is not reachable from the root, the last index,
    [sort_shortest_distance] fails with [GraphStructureError]; and
    [sort_kahn] fails with [GraphStructureError] whenever, besides,
    the child indexes are in range (fewer than 2^32 - 1 links) and
    the root lies on no cycle.  Cycles that do not pass through the
    root are covered. *)
Theorem sorts_fail_on_unreachable_object (objs : list object_t) (u : Z) :
  vec_length objs < 2 ^ 31 →
  0 <= u < vec_length objs →
  ¬ rtc (edge objs) (vec_length objs - 1) u →
  sort_shortest_distance (mk_graph objs) = Fatal GraphStructureError
  ∧ (Z.of_nat (length (all_children objs)) < 2 ^ 32 - 1 →
     links_in_range objs →
     ¬ tc (edge objs) (vec_length objs - 1) (vec_length objs - 1) →
     sort_kahn (mk_graph objs) = Fatal GraphStructureError).
Proof.
  intros Hlen Hu Hunreach. split.
  - exact (sort_shortest_distance_fails_unreachable objs u Hlen Hu Hunreach).
  - intros Hlinks Hrange Hroot.
    exact (sort_kahn_fails_unreachable objs u Hlen Hu Hunreach Hlinks Hrange
             Hroot).
Qed.

Lemma sorts_fail_on_unreachable_object_witness :
  ¬ acyclic cyclic_orphan_objects
  ∧ sort_shortest_distance (mk_graph cyclic_orphan_objects)
    = Fatal GraphStructureError
  ∧ sort_kahn (mk_graph cyclic_orphan_objects) = Fatal GraphStructureError.
Proof.
  split; [exact cyclic_orphan_objects_cycle|].
  destruct (sorts_fail_on_unreachable_object cyclic_orphan_objects 0)
    as [Hdist Hkahn].
  - reflexivity.
  - vm_compute. split; [discriminate | reflexivity].
  - intros H. apply cyclic_orphan_objects_reach in H. lia.
  - split; [exact Hdist|]. apply Hkahn.
    + reflexivity.
    + intros p c Hedge. unfold vec_length. simpl.
      apply cyclic_orphan_objects_edge in Hedge
        as [[-> ->] | [[-> ->] | [-> ->]]]; lia.
    + apply root_without_parent_on_no_cycle. intros p Hedge.
      unfold vec_length in Hedge. simpl in Hedge.
      apply cyclic_orphan_objects_edge in Hedge
        as [[_ Hc] | [[_ Hc] | [_ Hc]]]; lia.
Defined.

(** C5 (the code departs from the claim): [detour_objects] is acyclic
    and root-connected; [compute_distances] keeps the distance of the
    object it visits in an [int], so the 2^32 of the wide link into A
    is lost on the way to P, and the distances it ends with are
    4294967300 for C and 65548 for P: over the link from P to C, of
    weight 65540, the distance of C is above that of P plus the
    weight. *)
Theorem compute_distances_truncates_next_distance :
  well_formed detour_objects
  ∧ Forall payload_ok detour_objects
  ∧ compute_distances detour_objects = Ok [4294967300; 65548; 4294967304; 0]
  ∧ narrow_unsigned 0 ∈ links (vec_get detour_objects 1)
  ∧ link_weight detour_objects (narrow_unsigned 0) = 65540
  ∧ ¬ (dist_get [4294967300; 65548; 4294967304; 0] 0
       <= dist_get [4294967300; 65548; 4294967304; 0] 1
          + link_weight detour_objects (narrow_unsigned 0)).
Proof.
  split; [exact detour_objects_well_formed|].
  split; [exact detour_objects_payload_ok|].
  split; [reflexivity|]. split; [vm_compute; apply list_elem_of_here|].
  split; [reflexivity|]. vm_compute. intros H. by apply H.
Qed.

(** ** Null pointers in the packed list *)

Lemma graph_import_null i removed_nil objects acc :
  1 <= i →
  graph_import i removed_nil objects acc = Undefined ↔ None ∈ objects.
Proof.
  revert i acc. induction objects as [|o objects IH]; intros i acc Hi; simpl.
  - split; [done|]. intros H. by apply elem_of_nil in H.
  - destruct o as [obj|].
    + rewrite IH by lia. split; [by right|].
      intros H. apply elem_of_cons in H as [H|H]; [done|done].
    + destruct (Z.eqb_spec i 0); [lia|]. split; [by left|done].
Qed.

(** X1: the constructor tests only [objects[0]] for null before it
    dereferences an entry.  Building the graph is undefined exactly
    when the packed list holds a null pointer at an index other than
    0, and the driver is then undefined as well, whatever the sink. *)
Theorem graph_t_new_null_pointer (packed : list (option object_t)) :
  (graph_t_new packed = Undefined ↔ None ∈ drop 1 packed)
  ∧ (None ∈ drop 1 packed →
     ∀ c, hb_resolve_overflows packed c = Undefined).
Proof.
  assert (graph_t_new packed = Undefined ↔ None ∈ drop 1 packed) as Hiff.
  { unfold graph_t_new. destruct packed as [|first rest]; simpl.
    - split; [done|]. intros H. by apply elem_of_nil in H.
    - rewrite drop_0.
      destruct first as [obj|]; simpl; change (0 + 1) with 1.
      + pose proof (graph_import_null 1 false rest [obj] ltac:(lia)) as H.
        destruct (graph_import 1 false rest [obj]); simpl;
          rewrite <- H; (split; intros Hx; [discriminate Hx || reflexivity..]).
      + pose proof (graph_import_null 1 true rest [] ltac:(lia)) as H.
        destruct (graph_import 1 true rest []); simpl;
          rewrite <- H; (split; intros Hx; [discriminate Hx || reflexivity..]). }
  split; [exact Hiff|].
  intros Hnull c. apply Hiff in Hnull. unfold hb_resolve_overflows.
  by rewrite Hnull.
Qed.

(** ** Re-emission of a graph *)

Lemma serialize_link_incremented l c :
  serialize_link l c =
    mk_sink (ops c ++ link_ops (set_objidx (wrap_u32 (objidx l + 1)) l))
      (room c).
Proof.
  unfold serialize_link, serialize_link_of_type, link_ops, sink_do. simpl.
  destruct (is_wide l), (is_signed l); simpl; by rewrite <- app_assoc.
Qed.

Lemma serialize_links_incremented ls c :
  fold_left (fun c link => serialize_link link c) ls c =
    mk_sink
      (ops c ++ flat_map link_ops
                  (map (fun l => set_objidx (wrap_u32 (objidx l + 1)) l) ls))
      (room c).
Proof.
  revert c. induction ls as [|l ls IH]; intros c; simpl.
  - rewrite app_nil_r. by destruct c.
  - rewrite serialize_link_incremented, IH. simpl. by rewrite <- app_assoc.
Qed.

Lemma payload_bytes_cons o objs :
  payload_bytes (o :: objs)
  = (tail o - head o) mod 2 ^ 64 + payload_bytes objs.
Proof. reflexivity. Qed.

Lemma payload_bytes_app l1 l2 :
  payload_bytes (l1 ++ l2) = payload_bytes l1 + payload_bytes l2.
Proof. induction l1 as [|o l1 IH]; simpl; lia. Qed.

Lemma serialize_object_fits o objs c :
  (tail o - head o) mod 2 ^ 64 <= room c →
  serialize_objects (o :: objs) c =
    serialize_objects objs
      (mk_sink (ops c ++ object_ops (increment_links o))
         (room c - (tail o - head o) mod 2 ^ 64)).
Proof.
  intros Hroom. simpl. unfold sink_allocate. simpl.
  destruct (Z.leb_spec ((tail o - head o) mod 2 ^ 64) (room c)); [|lia].
  simpl. rewrite serialize_links_incremented. simpl.
  unfold object_ops, increment_links, sink_do. simpl.
  by rewrite <- !app_assoc.
Qed.

Lemma serialize_objects_fit objs c :
  payload_bytes objs <= room c →
  serialize_objects objs c =
    (mk_sink (ops c ++ flat_map object_ops (map increment_links objs))
       (room c - payload_bytes objs), true).
Proof.
  revert c. induction objs as [|o objs IH]; intros c Hroom.
  - simpl. rewrite app_nil_r, Z.sub_0_r. by destruct c.
  - simpl in Hroom. pose proof (payload_bytes_nonneg objs) as Hnn.
    rewrite serialize_object_fits by lia.
    rewrite IH by (simpl; lia). simpl. f_equal. f_equal.
    + by rewrite <- app_assoc.
    + lia.
Qed.

Lemma serialize_fits objs c :
  payload_bytes objs <= room c →
  serialize c (mk_graph objs) =
    Ok (mk_sink (ops c ++ [start_serialize]
                 ++ flat_map object_ops (map increment_links objs)
                 ++ [end_serialize])
          (room c - payload_bytes objs), mk_graph objs).
Proof.
  intros Hroom. unfold serialize, mbind, get_objects. simpl.
  rewrite serialize_objects_fit by exact Hroom.
  unfold mret, sink_do. simpl. by rewrite <- !app_assoc.
Qed.

(** X2: re-emission of a graph the sink has room for.  [serialize]
    leaves the graph as it is and sends to the sink, between
    [start_serialize] and [end_serialize], every object in index
    order: the object is opened, its payload allocated and copied,
    each link field cleared and registered with its child index
    raised by one, and the object packed without sharing.  The room
    of the sink shrinks by the bytes of the payloads. *)
Theorem serialize_emits_every_object (objs : list object_t) (c : sink) :
  payload_bytes objs <= room c →
  serialize c (mk_graph objs) =
    Ok (mk_sink (ops c ++ [start_serialize]
                 ++ flat_map object_ops (map increment_links objs)
                 ++ [end_serialize])
          (room c - payload_bytes objs), mk_graph objs).
Proof. exact (serialize_fits objs c). Qed.

Lemma serialize_emits_every_object_witness :
  serialize (mk_sink [] 100) (mk_graph chain_objects) =
    Ok (mk_sink ([] ++ [start_serialize]
                 ++ flat_map object_ops (map increment_links chain_objects)
                 ++ [end_serialize])
          (100 - payload_bytes chain_objects), mk_graph chain_objects).
Proof.
  apply (serialize_emits_every_object chain_objects (mk_sink [] 100)).
  vm_compute. discriminate.
Defined.

Lemma serialize_objects_stop objs c :
  0 <= room c → room c < payload_bytes objs →
  ∃ emitted o rest,
    objs = emitted ++ o :: rest
    ∧ payload_bytes emitted <= room c < payload_bytes (emitted ++ [o])
    ∧ serialize_objects objs c =
        (mk_sink (ops c ++ flat_map object_ops (map increment_links emitted)
                  ++ [push; allocate_size ((tail o - head o) mod 2 ^ 64) false])
           (room c - payload_bytes emitted), false).
Proof.
  revert c. induction objs as [|o objs IH]; intros c Hpos Hroom.
  - simpl in Hroom. lia.
  - simpl in Hroom.
    pose proof (Z.mod_pos_bound (tail o - head o) (2 ^ 64)) as Hsz.
    destruct (Z.le_gt_cases ((tail o - head o) mod 2 ^ 64) (room c))
      as [Hfit|Hnofit].
    + rewrite serialize_object_fits by exact Hfit.
      destruct (IH (mk_sink (ops c ++ object_ops (increment_links o))
                      (room c - (tail o - head o) mod 2 ^ 64)))
        as (emitted & o' & rest & -> & Hbytes & Hrun); [simpl; lia..|].
      simpl in Hbytes, Hrun.
      exists (o :: emitted), o', rest. split; [done|]. split.
      * simpl. lia.
      * rewrite Hrun, payload_bytes_cons. cbn [map flat_map].
        f_equal. f_equal.
        -- by rewrite <- !app_assoc.
        -- lia.
    + exists [], o, objs. split; [done|]. split; [simpl; lia|].
      simpl. unfold sink_allocate. simpl.
      destruct (Z.leb_spec ((tail o - head o) mod 2 ^ 64) (room c)); [lia|].
      simpl. rewrite Z.sub_0_r. by rewrite <- app_assoc.
Qed.

(** X3: re-emission into a sink without room.  When the payloads need
    more bytes than the sink has, [serialize] emits the objects that
    fit, opens the first object [o] that does not, and returns as
    soon as the sink refuses its payload: that object is neither
    copied nor packed, no later object is touched and
    [end_serialize] is not called.  The graph is left as it is and no
    failure is signalled. *)
Theorem serialize_stops_at_refused_allocation
    (objs : list object_t) (c : sink) :
  0 <= room c → room c < payload_bytes objs →
  ∃ emitted o rest,
    objs = emitted ++ o :: rest
    ∧ payload_bytes emitted <= room c < payload_bytes (emitted ++ [o])
    ∧ serialize c (mk_graph objs) =
        Ok (mk_sink (ops c ++ [start_serialize]
                     ++ flat_map object_ops (map increment_links emitted)
                     ++ [push;
                         allocate_size ((tail o - head o) mod 2 ^ 64) false])
              (room c - payload_bytes emitted), mk_graph objs).
Proof.
  intros Hpos Hroom.
  destruct (serialize_objects_stop objs (sink_do start_serialize c))
    as (emitted & o & rest & Hobjs & Hbytes & Hrun); [done..|].
  exists emitted, o, rest. split; [done|]. split; [done|].
  unfold serialize, mbind, get_objects. simpl. rewrite Hrun.
  unfold mret, sink_do. simpl. by rewrite <- !app_assoc.
Qed.

Lemma serialize_stops_at_refused_allocation_witness :
  ∃ emitted o rest,
    chain_objects = emitted ++ o :: rest
    ∧ payload_bytes emitted <= 25 < payload_bytes (emitted ++ [o])
    ∧ serialize (mk_sink [] 25) (mk_graph chain_objects) =
        Ok (mk_sink ([] ++ [start_serialize]
                     ++ flat_map object_ops (map increment_links emitted)
                     ++ [push;
                         allocate_size ((tail o - head o) mod 2 ^ 64) false])
              (25 - payload_bytes emitted), mk_graph chain_objects).
Proof.
  apply (serialize_stops_at_refused_allocation chain_objects (mk_sink [] 25)).
  - simpl. lia.
  - vm_compute. reflexivity.
Defined.

(** ** The outcome of index remapping *)

Lemma remap_links_outcome m ls :
  remap_links m ls =
    if forallb (fun l => hb_map.has m (objidx l)) ls
    then Ok (map (fun l => set_objidx (hb_map.get m (objidx l)) l) ls)
    else Fatal GraphStructureError.
Proof.
  induction ls as [|l ls IH]; simpl; [done|].
  destruct (hb_map.has m (objidx l)); simpl; [|done].
  rewrite IH. by destruct (forallb _ ls).
Qed.

(** X4: [remap_obj_indices] succeeds exactly when every child index
    of the sequence has an entry in [id_map]; it then replaces each
    child index by the value the map holds for it and changes nothing
    else: the objects, their order, their payloads, and the other
    fields of the links stay.  One child index without an entry makes
    it fail with [GraphStructureError]. *)
Theorem remap_obj_indices_outcome
    (id_map : hb_map_t) (sorted_graph : list object_t) :
  remap_obj_indices id_map sorted_graph =
    if all_mapped id_map sorted_graph
    then Ok (map (renumber (hb_map.get id_map)) sorted_graph)
    else Fatal GraphStructureError.
Proof.
  unfold all_mapped.
  induction sorted_graph as [|o os IH]; simpl; [done|].
  rewrite remap_links_outcome.
  destruct (forallb (fun l => hb_map.has id_map (objidx l)) (links o));
    simpl; [|done].
  rewrite IH. by destruct (forallb _ os).
Qed.

(** ** Incoming edge counts *)

(** X5: on a graph whose child indexes are in range (with fewer than
    2^31 objects and 2^32 - 1 links), [incoming_edge_count] on an
    empty map gives every object an entry, and the entry of an object
    is the number of links of the graph that point to it: 0 for an
    object nothing links to, and a link counted once for each time it
    occurs. *)
Theorem incoming_edge_count_counts_links (objs : list object_t) (v : Z) :
  vec_length objs < 2 ^ 31 →
  Z.of_nat (length (all_children objs)) < 2 ^ 32 - 1 →
  links_in_range objs →
  0 <= v < vec_length objs →
  hb_map.has (incoming_edge_count objs ∅) v = true
  ∧ hb_map.get (incoming_edge_count objs ∅) v = occ v (all_children objs).
Proof.
  intros Hlen Hlinks Hrange Hv.
  pose proof (incoming_edge_count_spec objs v Hlen Hlinks Hrange Hv) as Hget.
  split; [|exact Hget].
  apply hb_map_has_get. rewrite Hget.
  pose proof (occ_le_length v (all_children objs)).
  unfold hb_map.INVALID. lia.
Qed.

Lemma incoming_edge_count_counts_links_witness :
  hb_map.has (incoming_edge_count detour_objects ∅) 0 = true
  ∧ hb_map.get (incoming_edge_count detour_objects ∅) 0
    = occ 0 (all_children detour_objects).
Proof.
  apply (incoming_edge_count_counts_links detour_objects 0).
  - reflexivity.
  - reflexivity.
  - exact (wf_range _ detour_objects_well_formed).
  - vm_compute. split; [discriminate | reflexivity].
Defined.

(** ** Graphs of at most one object *)

(** X6: a graph of no object or of one object is never sorted.  Both
    sorts return it as it is, whatever its links (a link of the one
    object to itself or to an index outside the graph raises no
    [GraphStructureError]), and the driver goes from the oracle
    straight to the re-emission of the imported graph. *)
Theorem sorts_keep_small_graphs (objs : list object_t) :
  vec_length objs <= 1 →
  sort_kahn (mk_graph objs) = Ok (tt, mk_graph objs)
  ∧ sort_shortest_distance (mk_graph objs) = Ok (tt, mk_graph objs)
  ∧ ∀ packed c,
      graph_t_new packed = Ok (mk_graph objs) →
      hb_resolve_overflows packed c = Fatal OffsetUnderflow
      ∨ hb_resolve_overflows packed c
        = (r <- serialize c (mk_graph objs) ;; Ok (fst r)).
Proof.
  intros Hlen.
  pose proof (sort_kahn_small objs Hlen) as Hkahn.
  pose proof (sort_shortest_distance_small objs Hlen) as Hdist.
  split; [exact Hkahn|]. split; [exact Hdist|].
  intros packed c Hnew.
  rewrite (hb_resolve_overflows_unfold packed c _ _ Hnew Hkahn).
  destruct (will_overflow_outcome (mk_graph objs)) as [->|[b ->]];
    [by left|right].
  destruct b; [|reflexivity].
  unfold mbind. by rewrite Hdist.
Qed.

Lemma sorts_keep_small_graphs_witness :
  sort_kahn (mk_graph [mk_object 0 4 [narrow_unsigned 0]])
  = Ok (tt, mk_graph [mk_object 0 4 [narrow_unsigned 0]])
  ∧ sort_shortest_distance (mk_graph [mk_object 0 4 [narrow_unsigned 0]])
    = Ok (tt, mk_graph [mk_object 0 4 [narrow_unsigned 0]])
  ∧ ∀ packed c,
      graph_t_new packed = Ok (mk_graph [mk_object 0 4 [narrow_unsigned 0]]) →
      hb_resolve_overflows packed c = Fatal OffsetUnderflow
      ∨ hb_resolve_overflows packed c
        = (r <- serialize c (mk_graph [mk_object 0 4 [narrow_unsigned 0]]) ;;
           Ok (fst r)).
Proof.
  apply (sorts_keep_small_graphs [mk_object 0 4 [narrow_unsigned 0]]).
  vm_compute. discriminate.
Defined.

(** ** The placement the oracle computes *)

Lemma end_of_start_of objs i :
  0 <= i < vec_length objs →
  end_of objs i
  = start_of objs i + (tail (vec_get objs i) - head (vec_get objs i)).
Proof.
  intros Hi. unfold end_of, start_of.
  rewrite (drop_S _ _ _ (vec_get_lookup objs i Hi)). simpl. lia.
Qed.

(** X7: the placement [will_overflow] computes.  On a graph of
    payloads with consistent anchors that take fewer than 2^32 bytes
    together, the first loop of the oracle gives the last object the
    start position 0 and every object the start position at which the
    payloads of all objects above it end; the end position of an
    object is its start position plus the size of its payload. *)
Theorem layout_places_objects_back_to_front (objs : list object_t) (i : Z) :
  vec_length objs < 2 ^ 31 → Forall payload_ok objs →
  payload_total objs < 2 ^ 32 → 0 <= i < vec_length objs →
  hb_map.get (fst (layout objs)) i = start_of objs i
  ∧ hb_map.get (snd (layout objs)) i
    = start_of objs i + (tail (vec_get objs i) - head (vec_get objs i))
  ∧ start_of objs (vec_length objs - 1) = 0
  ∧ (i < vec_length objs - 1 →
     start_of objs i
     = start_of objs (i + 1)
       + (tail (vec_get objs (i + 1)) - head (vec_get objs (i + 1)))).
Proof.
  intros Hlen Hok Hsum Hi.
  destruct (layout_spec objs (Z.to_nat i) Hlen Hok Hsum) as [Hs He];
    [unfold vec_length in Hi; lia|].
  rewrite Z2Nat.id in Hs, He by lia.
  split; [exact Hs|]. split.
  - rewrite He. by apply end_of_start_of.
  - split.
    + unfold start_of. rewrite drop_ge; [done|].
      unfold vec_length in *. lia.
    + intros Hnext.
      rewrite <- (end_of_start_of objs (i + 1)) by lia.
      unfold start_of, end_of. f_equal. f_equal. lia.
Qed.

Lemma layout_places_objects_back_to_front_witness :
  hb_map.get (fst (layout forced_objects)) 0 = start_of forced_objects 0
  ∧ hb_map.get (snd (layout forced_objects)) 0
    = start_of forced_objects 0
      + (tail (vec_get forced_objects 0) - head (vec_get forced_objects 0))
  ∧ start_of forced_objects (vec_length forced_objects - 1) = 0
  ∧ (0 < vec_length forced_objects - 1 →
     start_of forced_objects 0
     = start_of forced_objects (0 + 1)
       + (tail (vec_get forced_objects (0 + 1))
          - head (vec_get forced_objects (0 + 1)))).
Proof.
  apply (layout_places_objects_back_to_front forced_objects 0).
  - reflexivity.
  - repeat constructor; simpl; lia.
  - reflexivity.
  - vm_compute. split; [discriminate | reflexivity].
Defined.

(** ** The range of the offsets the oracle computes *)

Lemma hb_map_get_set_range k v m x :
  0 <= v < 2 ^ 32 → 0 <= hb_map.get m x < 2 ^ 32 →
  0 <= hb_map.get (hb_map.set k v m) x < 2 ^ 32.
Proof.
  intros Hv Hm. destruct (decide (x = k)) as [->|Hne].
  - destruct (decide (k = hb_map.INVALID)) as [Hk|Hk].
    + unfold hb_map.set. by destruct (Z.eqb_spec k hb_map.INVALID).
    + by rewrite hb_map_get_set_eq.
  - by rewrite hb_map_get_set_ne.
Qed.

Lemma layout_positions_range (k : nat) objs s e pos :
  0 <= pos < 2 ^ 32 →
  (∀ x, 0 <= hb_map.get s x < 2 ^ 32) →
  (∀ x, 0 <= hb_map.get e x < 2 ^ 32) →
  ∀ x, 0 <= hb_map.get (fst (layout_positions k objs s e pos)) x < 2 ^ 32
       ∧ 0 <= hb_map.get (snd (layout_positions k objs s e pos)) x < 2 ^ 32.
Proof.
  revert s e pos. induction k as [|k IH]; intros s e pos Hpos Hs He x.
  - simpl. split; [apply Hs | apply He].
  - simpl. apply IH.
    + apply wrap_u32_range.
    + intros y. by apply hb_map_get_set_range.
    + intros y. apply hb_map_get_set_range; [apply wrap_u32_range | done].
Qed.

Lemma layout_range objs x :
  0 <= hb_map.get (fst (layout objs)) x < 2 ^ 32
  ∧ 0 <= hb_map.get (snd (layout objs)) x < 2 ^ 32.
Proof.
  unfold layout. apply layout_positions_range.
  - lia.
  - intros y. rewrite hb_map_get_empty. unfold hb_map.INVALID. lia.
  - intros y. rewrite hb_map_get_empty. unfold hb_map.INVALID. lia.
Qed.

Lemma compute_offset_layout_range objs parent_idx link :
  0 <= bias link →
  compute_offset parent_idx link (fst (layout objs)) (snd (layout objs))
  = Fatal OffsetUnderflow
  ∨ ∃ offset,
      compute_offset parent_idx link (fst (layout objs)) (snd (layout objs))
      = Ok offset
      ∧ 0 <= offset < 2 ^ 32.
Proof.
  intros Hbias. unfold compute_offset.
  match goal with |- context [?a <? ?b] =>
    assert (0 <= a < 2 ^ 32) as Hoff;
      [|destruct (Z.ltb_spec a b); [by left|right; eexists; split; [done|lia]]]
  end.
  destruct (whence link); try apply wrap_u32_range.
  apply layout_range.
Qed.

(** X8: the oracle never sees a negative offset.  With the positions
    [will_overflow] computes, [compute_offset] either fails with
    [OffsetUnderflow] or answers an offset from 0 to 2^32 - 1,
    whatever the graph, the parent and the link (of a bias that is
    not negative): a child placed before its anchor shows as a large
    positive offset.  So a wide unsigned link always passes
    [is_valid_offset], and the lower bounds of the signed ranges are
    never met. *)
Theorem oracle_offsets_are_never_negative
    (objs : list object_t) (parent_idx : Z) (link : link_t) (offset : Z) :
  0 <= bias link →
  compute_offset parent_idx link (fst (layout objs)) (snd (layout objs))
  = Ok offset →
  0 <= offset < 2 ^ 32
  ∧ (is_wide link = true → is_signed link = false →
     is_valid_offset offset link = true)
  ∧ (is_signed link = true →
     is_valid_offset offset link
     = (offset <? (if is_wide link then 2 ^ 31 else 2 ^ 15))).
Proof.
  intros Hbias Hrun.
  destruct (compute_offset_layout_range objs parent_idx link Hbias)
    as [Hf|(offset' & Hok & Hrange)]; [congruence|].
  assert (offset' = offset) as -> by congruence.
  split; [exact Hrange|]. unfold is_valid_offset. split.
  - intros -> ->. apply andb_true_iff. split; [apply Z.leb_le|apply Z.ltb_lt]; lia.
  - intros ->. destruct (is_wide link).
    + destruct (Z.leb_spec (- 2 ^ 31) offset); [done|lia].
    + destruct (Z.leb_spec (- 2 ^ 15) offset); [done|lia].
Qed.

Lemma oracle_offsets_are_never_negative_witness :
  0 <= 4294967292 < 2 ^ 32
  ∧ (is_wide backward_link = true → is_signed backward_link = false →
     is_valid_offset 4294967292 backward_link = true)
  ∧ (is_signed backward_link = true →
     is_valid_offset 4294967292 backward_link
     = (4294967292 <? (if is_wide backward_link then 2 ^ 31 else 2 ^ 15))).
Proof.
  apply (oracle_offsets_are_never_negative backward_objects 0 backward_link).
  - simpl. lia.
  - reflexivity.
Defined.

Lemma links_overflow_zero_bias parent_idx ls objs :
  Forall (fun l => bias l = 0) ls →
  ∃ b, links_overflow parent_idx ls (fst (layout objs)) (snd (layout objs))
       = Ok b.
Proof.
  induction 1 as [|l ls Hl _ IH]; simpl; [eauto|].
  destruct (compute_offset_layout_range objs parent_idx l ltac:(lia))
    as [Hf|(offset & -> & Hrange)].
  - unfold compute_offset in Hf. rewrite Hl in Hf.
    match type of Hf with context [?a <? 0] =>
      assert (0 <= a) as Hoff;
        [|destruct (Z.ltb_spec a 0); [lia|discriminate]]
    end.
    destruct (whence l); try apply wrap_u32_range. apply layout_range.
  - simpl. destruct (negb _); eauto.
Qed.

Lemma objects_overflow_zero_bias parent_idx suffix objs :
  Forall (fun o => Forall (fun l => bias l = 0) (links o)) suffix →
  ∃ b, objects_overflow parent_idx suffix (fst (layout objs))
         (snd (layout objs)) = Ok b.
Proof.
  intros H. revert parent_idx.
  induction H as [|o suffix Ho _ IH]; intros parent_idx; simpl; [eauto|].
  destruct (links_overflow_zero_bias parent_idx (links o) objs Ho) as [b ->].
  simpl. destruct b; [eauto | apply IH].
Qed.

(** X9: [OffsetUnderflow] needs a bias.  On a graph whose links all
    have bias 0, whatever its shape and its payloads, [will_overflow]
    answers true or false and leaves the graph as it is. *)
Theorem will_overflow_answers_without_bias (objs : list object_t) :
  Forall (fun o => Forall (fun l => bias l = 0) (links o)) objs →
  ∃ b : bool, will_overflow (mk_graph objs) = Ok (b, mk_graph objs).
Proof.
  intros Hbias. unfold will_overflow, mbind, get_objects, lift. simpl.
  destruct (objects_overflow_zero_bias 0 objs objs Hbias) as [b Hb].
  destruct (layout objs) as [s e]. simpl in Hb. rewrite Hb. eauto.
Qed.

Lemma will_overflow_answers_without_bias_witness :
  ∃ b : bool,
    will_overflow (mk_graph backward_objects) = Ok (b, mk_graph backward_objects).
Proof.
  apply (will_overflow_answers_without_bias backward_objects).
  repeat constructor.
Defined.

Lemma links_overflow_wide_unsigned parent_idx ls objs :
  Forall (fun l => is_wide l = true ∧ is_signed l = false ∧ bias l = 0) ls →
  links_overflow parent_idx ls (fst (layout objs)) (snd (layout objs))
  = Ok false.
Proof.
  induction 1 as [|l ls (Hw & Hs & Hb) _ IH]; simpl; [done|].
  destruct (compute_offset_layout_range objs parent_idx l ltac:(lia))
    as [Hf|(offset & Hrun & Hrange)].
  - unfold compute_offset in Hf. rewrite Hb in Hf.
    match type of Hf with context [?a <? 0] =>
      assert (0 <= a) as Hoff;
        [|destruct (Z.ltb_spec a 0); [lia|discriminate]]
    end.
    destruct (whence l); try apply wrap_u32_range. apply layout_range.
  - rewrite Hrun. simpl. unfold is_valid_offset. rewrite Hw, Hs.
    destruct (Z.leb_spec 0 offset); [|lia].
    destruct (Z.ltb_spec offset (2 ^ 32)); [|lia]. simpl. exact IH.
Qed.

(** X10: wide unsigned links never overflow for the oracle.  On a
    graph whose links are all wide and unsigned with bias 0,
    [will_overflow] answers false whatever the order of the objects
    and the sizes of the payloads: the positions are [unsigned], so
    every offset it computes is below 2^32. *)
Theorem will_overflow_accepts_wide_unsigned_links (objs : list object_t) :
  Forall (fun o =>
            Forall (fun l => is_wide l = true ∧ is_signed l = false
                             ∧ bias l = 0) (links o)) objs →
  will_overflow (mk_graph objs) = Ok (false, mk_graph objs).
Proof.
  intros Hlinks. unfold will_overflow, mbind, get_objects, lift. simpl.
  assert (∀ parent_idx suffix,
            Forall (fun o =>
                      Forall (fun l => is_wide l = true ∧ is_signed l = false
                                       ∧ bias l = 0) (links o)) suffix →
            objects_overflow parent_idx suffix (fst (layout objs))
              (snd (layout objs)) = Ok false) as Hall.
  { intros parent_idx suffix H. revert parent_idx.
    induction H as [|o suffix Ho _ IH]; intros parent_idx; simpl; [done|].
    rewrite (links_overflow_wide_unsigned parent_idx (links o) objs Ho).
    simpl. apply IH. }
  specialize (Hall 0 objs Hlinks).
  destruct (layout objs) as [s e]. simpl in Hall. by rewrite Hall.
Qed.

Lemma will_overflow_accepts_wide_unsigned_links_witness :
  will_overflow
    (mk_graph [ mk_object 0 4 [wide_unsigned 1];
                mk_object 0 80000 [] ])
  = Ok (false, mk_graph [ mk_object 0 4 [wide_unsigned 1];
                          mk_object 0 80000 [] ]).
Proof.
  apply (will_overflow_accepts_wide_unsigned_links
           [ mk_object 0 4 [wide_unsigned 1]; mk_object 0 80000 [] ]).
  repeat constructor.
Defined.

(** ** What the oracle answers on a graph in reverse topological order *)

Section oracle_answer.

Context (objs : list object_t).
Hypothesis Hrt : reverse_topological objs.
Hypothesis Hlen : vec_length objs < 2 ^ 31.
Hypothesis Hok : Forall payload_ok objs.
Hypothesis Hsum : payload_total objs < 2 ^ 32.

Lemma raw_offset_layout p link :
  link ∈ links (vec_get objs p) →
  raw_offset p link (fst (layout objs)) (snd (layout objs))
  = encoded_offset objs p link + bias link.
Proof.
  intros Hlink.
  assert (edge objs p (objidx link)) as Hedge.
  { unfold edge, children. apply list_elem_of_fmap. by exists link. }
  pose proof (edge_parent_in_range _ _ _ Hedge) as Hp.
  pose proof (Hrt _ _ Hedge) as Hc.
  destruct (layout_spec objs (Z.to_nat p) Hlen Hok Hsum) as [Hsp Hep];
    [unfold vec_length in Hp; lia|].
  destruct (layout_spec objs (Z.to_nat (objidx link)) Hlen Hok Hsum)
    as [Hsc _]; [unfold vec_length in Hp; lia|].
  rewrite Z2Nat.id in Hsp, Hep, Hsc by lia.
  unfold raw_offset, encoded_offset, start_of, end_of.
  destruct (whence link); rewrite ?Hsp, ?Hep, ?Hsc; lia.
Qed.

Lemma compute_offset_layout p link :
  link ∈ links (vec_get objs p) →
  0 <= encoded_offset objs p link →
  compute_offset p link (fst (layout objs)) (snd (layout objs))
  = Ok (encoded_offset objs p link).
Proof.
  intros Hlink Hpos.
  rewrite (oracle_offset_formula objs p link Hrt Hlen Hok Hsum Hlink).
  rewrite (raw_offset_layout p link Hlink).
  destruct (Z.ltb_spec (encoded_offset objs p link + bias link) (bias link));
    [lia|].
  f_equal. lia.
Qed.

Lemma links_overflow_layout p ls :
  (∀ l, l ∈ ls → l ∈ links (vec_get objs p)) →
  (∀ l, l ∈ ls → 0 <= encoded_offset objs p l) →
  links_overflow p ls (fst (layout objs)) (snd (layout objs))
  = Ok (negb (forallb (fun l => is_valid_offset (encoded_offset objs p l) l)
                ls)).
Proof.
  induction ls as [|l ls IH]; intros Hin Hpos; simpl; [done|].
  rewrite compute_offset_layout
    by (first [apply Hin | apply Hpos]; by left).
  simpl. destruct (is_valid_offset (encoded_offset objs p l) l); simpl.
  - apply IH; intros l' Hl'; [apply Hin | apply Hpos]; by right.
  - reflexivity.
Qed.

Lemma objects_overflow_layout (i : nat) suffix :
  drop i objs = suffix →
  (∀ p l, l ∈ links (vec_get objs p) → 0 <= encoded_offset objs p l) →
  ∃ b : bool,
    objects_overflow (Z.of_nat i) suffix (fst (layout objs))
      (snd (layout objs)) = Ok b
    ∧ (b = false ↔
       ∀ p l, Z.of_nat i <= p → l ∈ links (vec_get objs p) →
              fits l (encoded_offset objs p l)).
Proof.
  intros Hdrop Hpos. revert i Hdrop.
  induction suffix as [|o suffix IH]; intros i Hdrop.
  - exists false. split; [done|]. split; [|done]. intros _ p l Hp Hl.
    assert (length objs <= i)%nat as Hge.
    { destruct (Nat.le_gt_cases (length objs) i) as [|Hlt]; [done|].
      apply (f_equal length) in Hdrop. rewrite length_drop in Hdrop.
      simpl in Hdrop. lia. }
    rewrite vec_get_outside in Hl by (unfold vec_length; lia).
    by apply elem_of_nil in Hl.
  - assert (objs !! i = Some o) as Hi.
    { rewrite <- (Nat.add_0_r i), <- lookup_drop, Hdrop. reflexivity. }
    assert (drop (S i) objs = suffix) as Hdrop'.
    { rewrite (drop_S _ _ _ Hi) in Hdrop. by inversion Hdrop. }
    pose proof (vec_get_of_lookup _ _ _ Hi) as Hget.
    simpl.
    rewrite (links_overflow_layout (Z.of_nat i) (links o)); cycle 1.
    { intros l Hl. by rewrite Hget. }
    { intros l Hl. apply Hpos. by rewrite Hget. }
    simpl.
    destruct (forallb (fun l => is_valid_offset
                                  (encoded_offset objs (Z.of_nat i) l) l)
                (links o)) eqn:Hall; simpl.
    + destruct (IH (S i) Hdrop') as (b & Hrun & Hb).
      replace (Z.of_nat i + 1) with (Z.of_nat (S i)) by lia.
      exists b. split; [exact Hrun|]. rewrite Hb. split.
      * intros Hrest p l Hp Hl.
        destruct (decide (p = Z.of_nat i)) as [->|Hne].
        -- rewrite forallb_forall in Hall. rewrite Hget in Hl.
           apply is_valid_offset_fits, Hall. by apply list_elem_of_In.
        -- apply Hrest; [lia | done].
      * intros Hfits p l Hp Hl. apply Hfits; [lia | done].
    + exists true. split; [done|]. split; [done|]. intros Hfits.
      assert (forallb (fun l => is_valid_offset
                                  (encoded_offset objs (Z.of_nat i) l) l)
                (links o) = true) as Habs; [|congruence].
      apply forallb_forall. intros l Hl. apply is_valid_offset_fits.
      apply Hfits; [lia|]. rewrite Hget. by apply list_elem_of_In.
Qed.

Lemma will_overflow_layout :
  (∀ p l, l ∈ links (vec_get objs p) → 0 <= encoded_offset objs p l) →
  ∃ b : bool,
    will_overflow (mk_graph objs) = Ok (b, mk_graph objs)
    ∧ (b = false ↔
       ∀ p l, l ∈ links (vec_get objs p) → fits l (encoded_offset objs p l)).
Proof.
  intros Hpos.
  destruct (objects_overflow_layout 0 objs (drop_0 objs) Hpos)
    as (b & Hrun & Hb).
  exists b. split.
  - unfold will_overflow, mbind, get_objects, lift. simpl.
    destruct (layout objs) as [s e]. simpl in Hrun.
    change (Z.of_nat 0) with 0 in Hrun. by rewrite Hrun.
  - rewrite Hb. split.
    + intros H p l Hl. apply H; [|done].
      assert (edge objs p (objidx l)) as Hedge.
      { unfold edge, children. apply list_elem_of_fmap. by exists l. }
      pose proof (edge_parent_in_range _ _ _ Hedge). simpl. lia.
    + intros H p l _ Hl. by apply H.
Qed.

End oracle_answer.

(** X11: what the oracle answers.  On a graph in reverse topological
    order, of payloads with consistent anchors that take fewer than
    2^32 bytes together, in which no link has a bias above its raw
    offset, [will_overflow] answers false exactly when the encoded
    offset of every link, computed over the integers from the sizes
    of the payloads placed from the last index down, fits the width
    and the signedness of the link; it answers true as soon as one
    does not. *)
Theorem will_overflow_reports_unfit_offsets (objs : list object_t) :
  reverse_topological objs → vec_length objs < 2 ^ 31 →
  Forall payload_ok objs → payload_total objs < 2 ^ 32 →
  (∀ p l, l ∈ links (vec_get objs p) → 0 <= encoded_offset objs p l) →
  ∃ b : bool,
    will_overflow (mk_graph objs) = Ok (b, mk_graph objs)
    ∧ (b = false ↔
       ∀ p l, l ∈ links (vec_get objs p) → fits l (encoded_offset objs p l)).
Proof. exact (will_overflow_layout objs). Qed.

Lemma forced_objects_links p l :
  l ∈ links (vec_get forced_objects p) →
  p = 2 ∧ (l = narrow_unsigned 1 ∨ l = narrow_unsigned 0).
Proof.
  intros Hl.
  destruct (decide (0 <= p < 3)) as [Hp|Hp].
  - assert (p = 0 ∨ p = 1 ∨ p = 2) as [-> | [-> | ->]] by lia; simpl in Hl.
    + by apply elem_of_nil in Hl.
    + by apply elem_of_nil in Hl.
    + split; [done|]. apply elem_of_cons in Hl as [->|Hl]; [by left|].
      apply elem_of_cons in Hl as [->|Hl]; [by right|].
      by apply elem_of_nil in Hl.
  - rewrite vec_get_outside in Hl by (unfold vec_length; simpl; lia).
    by apply elem_of_nil in Hl.
Qed.

Lemma will_overflow_reports_unfit_offsets_witness :
  ∃ b : bool,
    will_overflow (mk_graph forced_objects) = Ok (b, mk_graph forced_objects)
    ∧ (b = false ↔
       ∀ p l, l ∈ links (vec_get forced_objects p) →
              fits l (encoded_offset forced_objects p l)).
Proof.
  apply (will_overflow_reports_unfit_offsets forced_objects).
  - by apply reverse_topological_from_sound.
  - reflexivity.
  - repeat constructor; simpl; lia.
  - reflexivity.
  - intros p l Hl. apply forced_objects_links in Hl as [Hp [Hl|Hl]];
      subst p l; vm_compute; discriminate.
Defined.

(** ** The object [closest_object] takes *)

Lemma closest_fold_first distance_to (q : list Z) cd ci :
  let r := fold_left (closest_step distance_to) q (cd, ci) in
  (r = (cd, ci) ∧ ∀ y, y ∈ q → cd <= dist_get distance_to y)
  ∨ (fst r = dist_get distance_to (snd r) ∧ fst r < cd
     ∧ ∃ before after,
         q = before ++ snd r :: after
         ∧ (∀ y, y ∈ before → fst r < dist_get distance_to y)
         ∧ (∀ y, y ∈ after → fst r <= dist_get distance_to y)).
Proof.
  revert cd ci. induction q as [|x q IH]; intros cd ci; simpl.
  - left. split; [done|]. intros y Hy. by apply elem_of_nil in Hy.
  - destruct (Z.ltb_spec (dist_get distance_to x) cd) as [Hlt|Hge].
    + right.
      destruct (IH (dist_get distance_to x) x)
        as [[-> Hall]|(Heq & Hlt' & before & after & Hq & Hb & Ha)].
      * simpl. split; [done|]. split; [done|].
        exists [], q. split; [done|]. split; [|done].
        intros y Hy. by apply elem_of_nil in Hy.
      * split; [done|]. split; [lia|].
        exists (x :: before), after. split; [simpl; f_equal; exact Hq|].
        split; [|done]. intros y Hy.
        apply elem_of_cons in Hy as [->|Hy]; [lia | by apply Hb].
    + destruct (IH cd ci)
        as [[-> Hall]|(Heq & Hlt' & before & after & Hq & Hb & Ha)].
      * left. split; [done|]. intros y Hy.
        apply elem_of_cons in Hy as [->|Hy]; [done | by apply Hall].
      * right. split; [done|]. split; [done|].
        exists (x :: before), after. split; [simpl; f_equal; exact Hq|].
        split; [|done]. intros y Hy.
        apply elem_of_cons in Hy as [->|Hy]; [lia | by apply Hb].
Qed.

Lemma closest_object_first queue distance_to x :
  closest_object queue distance_to = Ok x →
  dist_get distance_to x < INT64_MAX
  ∧ ∃ before after,
      queue = before ++ x :: after
      ∧ (∀ y, y ∈ before → dist_get distance_to x < dist_get distance_to y)
      ∧ (∀ y, y ∈ after → dist_get distance_to x <= dist_get distance_to y).
Proof.
  unfold closest_object.
  destruct (closest_fold_first distance_to queue INT64_MAX (wrap_u32 (-1)))
    as [[-> _]|(Heq & Hlt & before & after & Hq & Hb & Ha)].
  - done.
  - destruct (fold_left _ _ _) as [cd ci]. simpl in *.
    destruct (ci =? wrap_u32 (-1)); [done|].
    intros [= <-]. rewrite <- Heq. split; [done|].
    by exists before, after.
Qed.

Lemma closest_object_min queue distance_to x :
  closest_object queue distance_to = Ok x →
  x ∈ queue ∧ ∀ y, y ∈ queue → dist_get distance_to x <= dist_get distance_to y.
Proof.
  intros Hrun.
  destruct (closest_object_first _ _ _ Hrun)
    as (_ & before & after & -> & Hb & Ha).
  split.
  - apply elem_of_app. right. by left.
  - intros y Hy. apply elem_of_app in Hy as [Hy|Hy].
    + specialize (Hb y Hy). lia.
    + apply elem_of_cons in Hy as [->|Hy]; [lia | by apply Ha].
Qed.

(** X12: [closest_object] takes the nearest member of the set, and
    the first of the nearest.  Whenever it answers an index, the
    index is a member of the set with a distance below
    [hb_int_max (int64_t)]; every member iterated before it is
    strictly farther and no member iterated after it is nearer, so
    among members at the same distance the one with the lowest index
    is taken. *)
Theorem closest_object_takes_first_nearest
    (queue : hb_set.t) (distance_to : list Z) (x : Z) :
  closest_object queue distance_to = Ok x →
  dist_get distance_to x < INT64_MAX
  ∧ ∃ before after,
      queue = before ++ x :: after
      ∧ (∀ y, y ∈ before → dist_get distance_to x < dist_get distance_to y)
      ∧ (∀ y, y ∈ after → dist_get distance_to x <= dist_get distance_to y).
Proof. exact (closest_object_first queue distance_to x). Qed.

Lemma closest_object_takes_first_nearest_witness :
  dist_get [5; 3; 3] 1 < INT64_MAX
  ∧ ∃ before after,
      [0; 1; 2] = before ++ 1 :: after
      ∧ (∀ y, y ∈ before → dist_get [5; 3; 3] 1 < dist_get [5; 3; 3] y)
      ∧ (∀ y, y ∈ after → dist_get [5; 3; 3] 1 <= dist_get [5; 3; 3] y).
Proof.
  apply (closest_object_takes_first_nearest [0; 1; 2] [5; 3; 3] 1).
  reflexivity.
Defined.

(** X13: [closest_object] fails exactly when no member of the set is
    nearer than [hb_int_max (int64_t)], which covers the empty set:
    its assertion then fails with [GraphStructureError].  (The set
    never holds [HB_SET_VALUE_INVALID].) *)
Theorem closest_object_fails_without_near_member
    (queue : hb_set.t) (distance_to : list Z) :
  (∀ y, y ∈ queue → y ≠ 2 ^ 32 - 1) →
  closest_object queue distance_to = Fatal GraphStructureError
  ↔ ∀ y, y ∈ queue → INT64_MAX <= dist_get distance_to y.
Proof.
  intros Hvalid. split.
  - intros Hfail y Hy.
    destruct (Z.le_gt_cases INT64_MAX (dist_get distance_to y)) as [|Hlt];
      [done|].
    destruct (closest_object_finds distance_to queue) as (x & Hx & _).
    + exists y. split; [done | lia].
    + exact Hvalid.
    + congruence.
  - apply closest_object_fails.
Qed.

Lemma closest_object_fails_without_near_member_witness :
  closest_object [0; 1] [INT64_MAX; INT64_MAX] = Fatal GraphStructureError
  ↔ ∀ y, y ∈ [0; 1] → INT64_MAX <= dist_get [INT64_MAX; INT64_MAX] y.
Proof.
  apply (closest_object_fails_without_near_member [0; 1]
           [INT64_MAX; INT64_MAX]).
  intros y Hy. apply elem_of_cons in Hy as [->|Hy]; [lia|].
  apply elem_of_cons in Hy as [->|Hy]; [lia|]. by apply elem_of_nil in Hy.
Defined.

(** ** The distances of a well-formed graph *)

Lemma compute_distances_loop_step fuel objs unvisited distance_to :
  hb_set.is_empty unvisited = false →
  compute_distances_loop (S fuel) objs unvisited distance_to =
    (next_idx <- closest_object unvisited distance_to ;;
     compute_distances_loop fuel objs (hb_set.del next_idx unvisited)
       (fold_left
          (relax objs (hb_set.del next_idx unvisited)
             (wrap_s32 (dist_get distance_to next_idx)))
          (links (vec_get objs next_idx)) distance_to)).
Proof. intros H. simpl. by rewrite H. Qed.

Lemma compute_distances_loop_done fuel objs unvisited distance_to :
  hb_set.is_empty unvisited = true →
  compute_distances_loop fuel objs unvisited distance_to = Ok distance_to.
Proof. intros H. destruct fuel; simpl; by rewrite H. Qed.

Lemma edge_of_link objs p l :
  l ∈ links (vec_get objs p) → edge objs p (objidx l).
Proof.
  intros Hl. unfold edge, children. apply list_elem_of_fmap. by exists l.
Qed.

(** The loop changes the distance of an object only while the object
    is unvisited, and only over a link into it. *)
Lemma compute_distances_loop_keeps objs v fuel unvisited distance_to d_f :
  v ∉ unvisited ∨ (∀ p, ¬ edge objs p v) →
  compute_distances_loop fuel objs unvisited distance_to = Ok d_f →
  dist_get d_f v = dist_get distance_to v.
Proof.
  intros Hv. revert unvisited distance_to Hv.
  induction fuel as [|fuel IH]; intros U d Hv Hrun.
  - destruct (hb_set.is_empty U) eqn:HU.
    + rewrite compute_distances_loop_done in Hrun by done. congruence.
    + simpl in Hrun. by rewrite HU in Hrun.
  - destruct (hb_set.is_empty U) eqn:HU.
    + rewrite compute_distances_loop_done in Hrun by done. congruence.
    + rewrite compute_distances_loop_step in Hrun by done.
      destruct (closest_object U d) as [next| | |]; simpl in Hrun; try done.
      apply IH in Hrun.
      * rewrite Hrun.
        match goal with |- ?a = ?b => destruct (decide (a = b)) as [|Hne] end;
          [done|].
        apply relax_fold_changes in Hne as [Hchild HvU].
        apply hb_set_elem_of_del in HvU as [HvU _].
        destruct Hv as [Hv|Hv]; [done|]. by apply Hv in Hchild.
      * destruct Hv as [Hv|Hv]; [left|by right].
        intros Hin. by apply hb_set_elem_of_del in Hin as [Hin _].
Qed.

Lemma well_formed_root_no_parent objs p :
  well_formed objs → ¬ edge objs p (vec_length objs - 1).
Proof.
  intros Hwf Hedge. apply (wf_acyclic _ Hwf (vec_length objs - 1)).
  eapply tc_rtc_l; [|by apply tc_once].
  apply (wf_connected _ Hwf). by eapply edge_parent_in_range.
Qed.

(** X14: on an acyclic, root-connected graph of two objects or more
    (within the limits of the representation, payloads of 32-bit
    size) [compute_distances] returns one distance for every object:
    0 for the root, the last object, and a value below
    [hb_int_max (int64_t)] for every object, so none is left at the
    start value. *)
Theorem compute_distances_reaches_every_object (objs : list object_t) :
  well_formed objs → Forall payload_ok objs → 2 <= vec_length objs →
  ∃ distance_to,
    compute_distances objs = Ok distance_to
    ∧ vec_length distance_to = vec_length objs
    ∧ dist_get distance_to (vec_length objs - 1) = 0
    ∧ ∀ v, 0 <= v < vec_length objs → dist_get distance_to v < INT64_MAX.
Proof.
  intros Hwf Hpay Hlen.
  destruct (compute_distances_finishes objs Hwf Hpay Hlen)
    as (d & Hrun & Hdlen & Hall).
  exists d. split; [exact Hrun|]. split; [exact Hdlen|]. split; [|exact Hall].
  pose proof (wf_length _ Hwf) as Hlt.
  unfold compute_distances in Hrun. rewrite wrap_u32_id in Hrun by lia.
  rewrite (compute_distances_loop_keeps objs (vec_length objs - 1) _ _ _ _
             (or_intror (fun p => well_formed_root_no_parent objs p Hwf))
             Hrun).
  apply dist_get_set_eq. unfold vec_length. rewrite length_replicate.
  unfold vec_length in Hlen. lia.
Qed.

Lemma compute_distances_reaches_every_object_witness :
  ∃ distance_to,
    compute_distances detour_objects = Ok distance_to
    ∧ vec_length distance_to = vec_length detour_objects
    ∧ dist_get distance_to (vec_length detour_objects - 1) = 0
    ∧ ∀ v, 0 <= v < vec_length detour_objects →
           dist_get distance_to v < INT64_MAX.
Proof.
  apply (compute_distances_reaches_every_object detour_objects).
  - exact detour_objects_well_formed.
  - exact detour_objects_payload_ok.
  - vm_compute. discriminate.
Defined.

(** ** Distances that are not cut *)

Lemma vec_get_payload_ok objs i :
  Forall payload_ok objs → payload_ok (vec_get objs i).
Proof.
  intros Hok. destruct (decide (0 <= i < vec_length objs)) as [Hi|Hi].
  - rewrite Forall_forall in Hok. by apply Hok, vec_get_elem_of.
  - rewrite vec_get_outside by done. unfold payload_ok. simpl. lia.
Qed.

Lemma link_weight_range objs link :
  Forall payload_ok objs → 2 ^ 16 <= link_weight objs link < 2 ^ 33.
Proof.
  intros Hok. pose proof (vec_get_payload_ok objs (objidx link) Hok) as H.
  unfold payload_ok in H. unfold link_weight. destruct (is_wide link); lia.
Qed.

Lemma dist_get_outside v i :
  ¬ (0 <= i < vec_length v) → dist_get v i = 0.
Proof.
  intros Hi. unfold dist_get.
  destruct (Z.leb_spec 0 i); [|done].
  destruct (Z.ltb_spec i (vec_length v)); [lia|done].
Qed.

Lemma dist_get_set_cases v i x j :
  dist_get (dist_set v i x) j = x ∨ dist_get (dist_set v i x) j = dist_get v j.
Proof.
  destruct (decide (i = j)) as [->|Hne].
  - destruct (decide (0 <= j < vec_length v)) as [Hj|Hj].
    + left. by apply dist_get_set_eq.
    + right. unfold dist_set.
      destruct (Z.leb_spec 0 j); [|done].
      destruct (Z.ltb_spec j (vec_length v)); [lia | done].
  - right. by apply dist_get_set_ne.
Qed.

Section uncut.

Context (objs : list object_t) (unvisited : list Z) (next_distance : Z).
Hypothesis Hpayload : Forall payload_ok objs.
Hypothesis Hnext : 0 <= next_distance < 2 ^ 31.

Lemma relax_uncut distance_to link :
  relax objs unvisited next_distance distance_to link =
    if negb (hb_set.has unvisited (objidx link)) then distance_to
    else if next_distance + link_weight objs link
            <? dist_get distance_to (objidx link)
         then dist_set distance_to (objidx link)
                (next_distance + link_weight objs link)
         else distance_to.
Proof.
  unfold relax. destruct (negb _); [done|].
  pose proof (vec_get_payload_ok objs (objidx link) Hpayload) as Hok.
  unfold payload_ok in Hok. unfold payload_size, link_weight.
  rewrite (wrap_s64_id (tail _ - head _)) by lia.
  assert ((if negb (is_wide link) then 2 ^ 16 else 2 ^ 32)
          = (if is_wide link then 2 ^ 32 else 2 ^ 16)) as ->
    by (by destruct (is_wide link)).
  assert (2 ^ 16 <= (if is_wide link then 2 ^ 32 else 2 ^ 16) <= 2 ^ 32)
    as Hpen by (destruct (is_wide link); lia).
  rewrite (wrap_s64_id (_ + (if is_wide link then _ else _))) by lia.
  rewrite wrap_s64_id by lia. reflexivity.
Qed.

Lemma relax_lower distance_to link m v :
  m <= dist_get distance_to v → m <= next_distance →
  m <= dist_get (relax objs unvisited next_distance distance_to link) v.
Proof.
  intros Hv Hm. rewrite relax_uncut. destruct (negb _); [done|].
  destruct (_ <? _); [|done].
  pose proof (link_weight_range objs link Hpayload).
  destruct (dist_get_set_cases distance_to (objidx link)
              (next_distance + link_weight objs link) v) as [->| ->]; lia.
Qed.

Lemma relax_fold_lower ls distance_to m v :
  m <= dist_get distance_to v → m <= next_distance →
  m <= dist_get (fold_left (relax objs unvisited next_distance) ls
                   distance_to) v.
Proof.
  revert distance_to. induction ls as [|l ls IH]; intros d Hv Hm; simpl;
    [done|].
  apply IH; [by apply relax_lower | done].
Qed.

Lemma relax_upper distance_to link :
  objidx link ∈ unvisited →
  dist_get (relax objs unvisited next_distance distance_to link)
    (objidx link)
  <= next_distance + link_weight objs link.
Proof.
  intros Hin. rewrite relax_uncut.
  apply hb_set_has_true in Hin. rewrite Hin. simpl.
  pose proof (link_weight_range objs link Hpayload).
  match goal with |- context [?a <? ?b] =>
    destruct (Z.ltb_spec a b) as [Hlt|Hge] end; [|lia].
  destruct (decide (0 <= objidx link < vec_length distance_to)) as [Hr|Hr].
  - rewrite dist_get_set_eq by done. lia.
  - rewrite (dist_get_outside _ _ Hr) in Hlt. lia.
Qed.

Lemma relax_fold_upper ls distance_to link :
  link ∈ ls → objidx link ∈ unvisited →
  dist_get (fold_left (relax objs unvisited next_distance) ls distance_to)
    (objidx link)
  <= next_distance + link_weight objs link.
Proof.
  revert distance_to. induction ls as [|l ls IH]; intros d Hl Hin.
  - by apply elem_of_nil in Hl.
  - simpl. apply elem_of_cons in Hl as [->|Hl].
    + pose proof (relax_fold_le objs unvisited next_distance ls
                    (relax objs unvisited next_distance d l) (objidx l)).
      pose proof (relax_upper d l Hin). lia.
    + by apply IH.
Qed.

End uncut.

Section triangle.

Context (objs : list object_t) (d_f : list Z).
Hypothesis Hpayload : Forall payload_ok objs.
Hypothesis Hsmall :
  ∀ p, 0 <= p < vec_length objs → links (vec_get objs p) ≠ [] →
       dist_get d_f p < 2 ^ 31.

Lemma relaxed_inv_step unvisited distance_to next :
  relaxed_inv objs unvisited distance_to →
  closest_object unvisited distance_to = Ok next →
  links (vec_get objs next) = [] ∨ dist_get distance_to next < 2 ^ 31 →
  relaxed_inv objs (hb_set.del next unvisited)
    (fold_left
       (relax objs (hb_set.del next unvisited)
          (wrap_s32 (dist_get distance_to next)))
       (links (vec_get objs next)) distance_to).
Proof.
  intros Hinv Hnext Hcut.
  destruct (closest_object_min _ _ _ Hnext) as [HnextU Hmin].
  set (U' := hb_set.del next unvisited).
  set (d' := fold_left (relax objs U' (wrap_s32 (dist_get distance_to next)))
               (links (vec_get objs next)) distance_to).
  pose proof (ri_nonneg _ _ _ Hinv) as Hnn.
  assert (∀ v, dist_get d' v <= dist_get distance_to v) as Hle
    by (intros v; apply relax_fold_le).
  assert (∀ v, v ∉ U' → dist_get d' v = dist_get distance_to v) as Hkeep.
  { intros v Hv.
    match goal with |- ?a = ?b => destruct (decide (a = b)) as [|Hne] end;
      [done|].
    by apply relax_fold_changes in Hne as [_ HvU]. }
  assert (∀ m v, m <= dist_get distance_to v →
                 m <= dist_get distance_to next → m <= dist_get d' v)
    as Hlower.
  { intros m v Hv Hm. unfold d'.
    destruct Hcut as [Hnil|Hlt]; [by rewrite Hnil|].
    rewrite wrap_s32_id by (specialize (Hnn next); lia).
    apply relax_fold_lower; [done| |done|done].
    specialize (Hnn next). lia. }
  assert (∀ l, l ∈ links (vec_get objs next) → objidx l ∈ U' →
               dist_get d' (objidx l)
               <= dist_get distance_to next + link_weight objs l) as Hupper.
  { intros l Hl Hin. unfold d'.
    destruct Hcut as [Hnil|Hlt];
      [rewrite Hnil in Hl; by apply elem_of_nil in Hl|].
    rewrite wrap_s32_id by (specialize (Hnn next); lia).
    apply relax_fold_upper; [done| |done|done].
    specialize (Hnn next). lia. }
  assert (∀ v, v ∉ U' → v ≠ next → v ∉ unvisited) as Hout.
  { intros v Hv Hne Hin. apply Hv. by apply hb_set_elem_of_del. }
  constructor.
  - unfold vec_length, d'. rewrite relax_fold_length. apply Hinv.
  - intros y Hy. apply hb_set_elem_of_del in Hy as [Hy _].
    by apply (ri_range _ _ _ Hinv).
  - intros v. apply Hlower; [apply Hnn | apply Hnn].
  - intros u v Hu HuU Hv. rewrite (Hkeep u HuU).
    apply hb_set_elem_of_del in Hv as [Hv _].
    destruct (decide (u = next)) as [->|Hne].
    + apply Hlower; [by apply Hmin | lia].
    + apply Hlower; apply (ri_order _ _ _ Hinv); auto.
  - intros p l Hp HpU Hl. rewrite (Hkeep p HpU).
    pose proof (link_weight_range objs l Hpayload) as Hw.
    destruct (decide (p = next)) as [->|Hne].
    + destruct (decide (objidx l ∈ U')) as [Hc|Hc]; [by apply Hupper|].
      rewrite (Hkeep _ Hc).
      destruct (decide (objidx l = next)) as [->|Hcne]; [lia|].
      destruct (decide (0 <= objidx l < vec_length objs)) as [Hcr|Hcr].
      * pose proof (ri_order _ _ _ Hinv (objidx l) next Hcr
                      (Hout _ Hc Hcne) HnextU). lia.
      * rewrite dist_get_outside by (by rewrite (ri_length _ _ _ Hinv)).
        specialize (Hnn next). lia.
    + pose proof (ri_links _ _ _ Hinv p l Hp (Hout _ HpU Hne) Hl).
      specialize (Hle (objidx l)). lia.
Qed.

Lemma relaxed_inv_loop fuel unvisited distance_to :
  relaxed_inv objs unvisited distance_to →
  compute_distances_loop fuel objs unvisited distance_to = Ok d_f →
  ∀ p l, l ∈ links (vec_get objs p) →
         dist_get d_f (objidx l) <= dist_get d_f p + link_weight objs l.
Proof.
  revert unvisited distance_to.
  assert (∀ U d, relaxed_inv objs U d → hb_set.is_empty U = true →
                 ∀ p l, l ∈ links (vec_get objs p) →
                        dist_get d (objidx l)
                        <= dist_get d p + link_weight objs l) as Hdone.
  { intros U d Hinv HU p l Hl. destruct U; [|done].
    apply (ri_links _ _ _ Hinv); [|apply not_elem_of_nil|done].
    by eapply edge_parent_in_range, edge_of_link. }
  induction fuel as [|fuel IH]; intros U d Hinv Hrun.
  - destruct (hb_set.is_empty U) eqn:HU.
    + rewrite compute_distances_loop_done in Hrun by done.
      injection Hrun as <-. by eapply Hdone.
    + simpl in Hrun. by rewrite HU in Hrun.
  - destruct (hb_set.is_empty U) eqn:HU.
    + rewrite compute_distances_loop_done in Hrun by done.
      injection Hrun as <-. by eapply Hdone.
    + rewrite compute_distances_loop_step in Hrun by done.
      destruct (closest_object U d) as [next| | |] eqn:Hnext;
        simpl in Hrun; try done.
      assert (next ∉ hb_set.del next U) as Hgone.
      { intros Hin. by apply hb_set_elem_of_del in Hin as [_ Hin]. }
      assert (links (vec_get objs next) = [] ∨ dist_get d next < 2 ^ 31)
        as Hcut.
      { destruct (decide (links (vec_get objs next) = [])) as [|Hlinks];
          [by left|right].
        assert (dist_get d_f next = dist_get d next) as <-.
        { rewrite (compute_distances_loop_keeps objs next _ _ _ _
                     (or_introl Hgone) Hrun).
          match goal with |- ?a = ?b =>
            destruct (decide (a = b)) as [|Hne] end; [done|].
          by apply relax_fold_changes in Hne as [_ Hin]. }
        apply Hsmall; [|done].
        apply (ri_range _ _ _ Hinv). by apply (closest_object_min _ _ _ Hnext). }
      exact (IH _ _ (relaxed_inv_step U d next Hinv Hnext Hcut) Hrun).
Qed.

End triangle.

(** X15: the distances respect the links while none is cut.
    [compute_distances] reads the distance of the object it visits
    into an [int]; on a graph (of at most 2^31 - 1 objects, payloads
    of 32-bit size) on which it returns distances that are below 2^31
    for every object that has links, no distance was cut on the way,
    and over every link the distance of the child is at most the
    distance of the parent plus the weight of the link: the size of
    the child's payload plus 2^16 for a narrow link, 2^32 for a wide
    one. *)
Theorem compute_distances_respects_links_when_not_cut
    (objs : list object_t) (distance_to : list Z) :
  1 <= vec_length objs < 2 ^ 31 → Forall payload_ok objs →
  compute_distances objs = Ok distance_to →
  (∀ p, 0 <= p < vec_length objs → links (vec_get objs p) ≠ [] →
        dist_get distance_to p < 2 ^ 31) →
  ∀ p l, l ∈ links (vec_get objs p) →
         dist_get distance_to (objidx l)
         <= dist_get distance_to p + link_weight objs l.
Proof.
  intros Hlen Hpay Hrun Hsmall.
  unfold compute_distances in Hrun. rewrite wrap_u32_id in Hrun by lia.
  destruct (hb_set_add_range (vec_length objs)) as [Hnd Hmem];
    [lia | unfold hb_set.INVALID; lia|].
  refine (relaxed_inv_loop objs distance_to Hpay Hsmall _ _ _ _ Hrun).
  constructor.
  - unfold vec_length. by rewrite dist_set_length, length_replicate.
  - intros y Hy. by apply Hmem.
  - intros v.
    destruct (dist_get_set_cases (replicate (length objs) INT64_MAX)
                (vec_length objs - 1) 0 v) as [->| ->]; [lia|].
    destruct (decide (0 <= v < Z.of_nat (length objs))) as [Hv|Hv].
    + rewrite dist_get_replicate by done. unfold INT64_MAX. lia.
    + rewrite dist_get_outside; [lia|].
      unfold vec_length. by rewrite length_replicate.
  - intros u v Hu HuU. exfalso. by apply HuU, Hmem.
  - intros p l Hp HpU. exfalso. by apply HpU, Hmem.
Qed.

Lemma fanout_objects_parent p :
  0 <= p < vec_length fanout_objects → links (vec_get fanout_objects p) ≠ [] →
  p = 2.
Proof.
  intros Hp Hl. unfold vec_length in Hp. simpl in Hp.
  assert (p = 0 ∨ p = 1 ∨ p = 2) as [-> | [-> | ->]] by lia; done.
Qed.

Lemma compute_distances_respects_links_when_not_cut_witness :
  dist_get [65540; 65544; 0] (objidx (narrow_unsigned 1))
  <= dist_get [65540; 65544; 0] 2
     + link_weight fanout_objects (narrow_unsigned 1).
Proof.
  apply (compute_distances_respects_links_when_not_cut fanout_objects
           [65540; 65544; 0]).
  - vm_compute. split; [discriminate | reflexivity].
  - exact fanout_objects_payload_ok.
  - reflexivity.
  - intros p Hp Hl. rewrite (fanout_objects_parent p Hp Hl). reflexivity.
  - simpl. right. left.
Defined.

(** ** The sorts only reorder *)

Lemma map_vec_get_seqZ objs :
  map (vec_get objs) (seqZ 0 (vec_length objs)) = objs.
Proof.
  induction objs as [|o objs IH] using rev_ind; [done|].
  unfold vec_length. rewrite length_app. simpl.
  replace (Z.of_nat (length objs + 1)) with (Z.of_nat (length objs) + 1) by lia.
  rewrite seqZ_app by lia. rewrite map_app. f_equal.
  - etrans; [|exact IH]. unfold vec_length.
    apply map_ext_in. intros i Hi.
    apply list_elem_of_In, elem_of_seqZ in Hi.
    apply vec_get_app_l. unfold vec_length. lia.
  - rewrite Z.add_0_l.
    change (seqZ (Z.of_nat (length objs)) 1) with [Z.of_nat (length objs)].
    simpl. pose proof (vec_get_app_r objs o) as Hget.
    unfold vec_length in Hget. by rewrite Hget.
Qed.

Lemma renumbering_Permutation objs objs' σ :
  renumbering objs objs' σ → objs' ≡ₚ map (renumber σ) objs.
Proof.
  intros Hrn.
  assert (objs' = map (vec_get objs') (seqZ 0 (vec_length objs))) as H1.
  { rewrite <- (rn_length _ _ _ Hrn). symmetry. apply map_vec_get_seqZ. }
  assert (map (renumber σ) objs
          = map (vec_get objs') (map σ (seqZ 0 (vec_length objs)))) as H2.
  { rewrite <- (map_vec_get_seqZ objs) at 1. rewrite !map_map.
    apply map_ext_in. intros v Hv.
    apply list_elem_of_In, elem_of_seqZ in Hv. symmetry.
    apply (rn_object _ _ _ Hrn). lia. }
  rewrite H2.
  transitivity (map (vec_get objs') (seqZ 0 (vec_length objs)));
    [by rewrite <- H1|].
  apply Permutation_map. symmetry.
  by apply (renumber_seqZ_Permutation objs objs' σ).
Qed.

Lemma sort_kahn_reorders objs :
  well_formed objs →
  ∃ objs' σ,
    sort_kahn (mk_graph objs) = Ok (tt, mk_graph objs')
    ∧ renumbering objs objs' σ
    ∧ well_formed objs' ∧ reverse_topological objs'.
Proof.
  intros Hwf. destruct (Z.le_gt_cases (vec_length objs) 1) as [Hsmall|Hbig].
  - exists objs, (fun v => v). split; [by apply sort_kahn_small|].
    split; [apply renumbering_id|]. split; [done|].
    intros p c Hedge. by apply (well_formed_small_no_edge objs p c) in Hedge.
  - destruct (sort_kahn_renumbers objs Hwf) as (objs' & σ & Hrun & Hrn & Hord);
      [lia|].
    destruct (renumber_well_formed objs objs' σ Hrn Hwf Hord) as [Hwf' Hrt].
    by exists objs', σ.
Qed.

Lemma sort_shortest_distance_reorders objs :
  well_formed objs → Forall payload_ok objs →
  ∃ objs' σ,
    sort_shortest_distance (mk_graph objs) = Ok (tt, mk_graph objs')
    ∧ renumbering objs objs' σ
    ∧ well_formed objs' ∧ reverse_topological objs'.
Proof.
  intros Hwf Hpay.
  destruct (Z.le_gt_cases (vec_length objs) 1) as [Hsmall|Hbig].
  - exists objs, (fun v => v).
    split; [by apply sort_shortest_distance_small|].
    split; [apply renumbering_id|]. split; [done|].
    intros p c Hedge. by apply (well_formed_small_no_edge objs p c) in Hedge.
  - destruct (sort_shortest_distance_renumbers objs Hwf Hpay)
      as (objs' & σ & Hrun & Hrn & Hord); [lia|].
    destruct (renumber_well_formed objs objs' σ Hrn Hwf Hord) as [Hwf' Hrt].
    by exists objs', σ.
Qed.

(** X16: the Kahn sort only reorders.  On an acyclic, root-connected
    graph (within the limits of the representation) the result of
    [sort_kahn] holds the objects of the graph, each once: there is a
    one-to-one renumbering of the indexes that leaves the root last,
    under which the object at index [v] is found at its new index
    with its payload anchors, its links in their order and every
    field of a link unchanged but the child index, which is the new
    index of the same child. *)
Theorem sort_kahn_only_reorders (objs : list object_t) :
  well_formed objs →
  ∃ objs' σ,
    sort_kahn (mk_graph objs) = Ok (tt, mk_graph objs')
    ∧ renumbering objs objs' σ
    ∧ objs' ≡ₚ map (renumber σ) objs.
Proof.
  intros Hwf.
  destruct (sort_kahn_reorders objs Hwf) as (objs' & σ & Hrun & Hrn & _).
  exists objs', σ. split; [done|]. split; [done|].
  by apply renumbering_Permutation.
Qed.

Lemma sort_kahn_only_reorders_witness :
  ∃ objs' σ,
    sort_kahn (mk_graph detour_objects) = Ok (tt, mk_graph objs')
    ∧ renumbering detour_objects objs' σ
    ∧ objs' ≡ₚ map (renumber σ) detour_objects.
Proof.
  exact (sort_kahn_only_reorders detour_objects detour_objects_well_formed).
Defined.

(** X17: the distance sort only reorders.  On an acyclic,
    root-connected graph (within the limits of the representation,
    payloads of 32-bit size) the result of [sort_shortest_distance]
    holds the objects of the graph, each once, under a one-to-one
    renumbering of the indexes that leaves the root last: payloads
    and links are kept, and each child index is the new index of the
    same child. *)
Theorem sort_shortest_distance_only_reorders (objs : list object_t) :
  well_formed objs → Forall payload_ok objs →
  ∃ objs' σ,
    sort_shortest_distance (mk_graph objs) = Ok (tt, mk_graph objs')
    ∧ renumbering objs objs' σ
    ∧ objs' ≡ₚ map (renumber σ) objs.
Proof.
  intros Hwf Hpay.
  destruct (sort_shortest_distance_reorders objs Hwf Hpay)
    as (objs' & σ & Hrun & Hrn & _).
  exists objs', σ. split; [done|]. split; [done|].
  by apply renumbering_Permutation.
Qed.

Lemma sort_shortest_distance_only_reorders_witness :
  ∃ objs' σ,
    sort_shortest_distance (mk_graph forced_objects) = Ok (tt, mk_graph objs')
    ∧ renumbering forced_objects objs' σ
    ∧ objs' ≡ₚ map (renumber σ) forced_objects.
Proof.
  apply (sort_shortest_distance_only_reorders forced_objects).
  - exact forced_objects_well_formed.
  - repeat constructor; simpl; lia.
Defined.

(** ** The driver on a whole graph *)

Lemma renumber_compose (σ1 σ2 : Z → Z) o :
  renumber σ2 (renumber σ1 o) = renumber (fun v => σ2 (σ1 v)) o.
Proof. unfold renumber. simpl. by rewrite map_map. Qed.

Lemma renumbering_compose objs objs1 objs2 σ1 σ2 :
  renumbering objs objs1 σ1 → renumbering objs1 objs2 σ2 →
  renumbering objs objs2 (fun v => σ2 (σ1 v)).
Proof.
  intros H1 H2.
  pose proof (rn_length _ _ _ H1) as Hlen1.
  constructor.
  - by rewrite (rn_length _ _ _ H2).
  - intros v Hv. rewrite <- Hlen1. apply (rn_range _ _ _ H2).
    rewrite Hlen1. by apply (rn_range _ _ _ H1).
  - intros a b Ha Hb Heq. apply (rn_inj _ _ _ H1); [done|done|].
    apply (rn_inj _ _ _ H2); [| |done];
      rewrite Hlen1; by apply (rn_range _ _ _ H1).
  - intros j Hj. rewrite <- Hlen1 in Hj.
    destruct (rn_surj _ _ _ H2 j Hj) as (w & Hw & <-). rewrite Hlen1 in Hw.
    destruct (rn_surj _ _ _ H1 w Hw) as (v & Hv & <-). by exists v.
  - intros v Hv. rewrite <- renumber_compose.
    rewrite <- (rn_object _ _ _ H1 v Hv). apply (rn_object _ _ _ H2).
    rewrite Hlen1. by apply (rn_range _ _ _ H1).
  - rewrite (rn_root _ _ _ H1). rewrite <- Hlen1. apply (rn_root _ _ _ H2).
Qed.

Lemma payload_bytes_Permutation l1 l2 :
  l1 ≡ₚ l2 → payload_bytes l1 = payload_bytes l2.
Proof.
  induction 1 as [|o l1 l2 _ IH|o1 o2 l|l1 l2 l3 _ IH1 _ IH2].
  - done.
  - by rewrite !payload_bytes_cons, IH.
  - rewrite !payload_bytes_cons. lia.
  - congruence.
Qed.

Lemma payload_bytes_renumber σ objs :
  payload_bytes (map (renumber σ) objs) = payload_bytes objs.
Proof.
  induction objs as [|o objs IH]; [done|].
  simpl map. by rewrite !payload_bytes_cons, IH.
Qed.

Lemma renumbering_payload_bytes objs objs' σ :
  renumbering objs objs' σ → payload_bytes objs' = payload_bytes objs.
Proof.
  intros Hrn. rewrite (payload_bytes_Permutation _ _
                         (renumbering_Permutation _ _ _ Hrn)).
  apply payload_bytes_renumber.
Qed.

(** X18: the driver emits every object once.  On a packed list that
    imports as an acyclic, root-connected graph (within the limits of
    the representation, payloads of 32-bit size) into a sink with
    room for the payloads, [hb_resolve_overflows] either ends in
    [OffsetUnderflow] or emits, between [start_serialize] and
    [end_serialize], a reordering of the imported objects in which
    every link goes to a lower index: each object once, with its
    payload and its links, every child index being the new index of
    the same child raised by one. *)
Theorem hb_resolve_overflows_emits_every_object
    (packed : list (option object_t)) (c : sink) (g : graph_t) :
  graph_t_new packed = Ok g →
  well_formed (objects_ g) →
  Forall payload_ok (objects_ g) →
  payload_bytes (objects_ g) <= room c →
  hb_resolve_overflows packed c = Fatal OffsetUnderflow
  ∨ ∃ objs' σ,
      renumbering (objects_ g) objs' σ
      ∧ objs' ≡ₚ map (renumber σ) (objects_ g)
      ∧ reverse_topological objs'
      ∧ hb_resolve_overflows packed c =
          Ok (mk_sink (ops c ++ [start_serialize]
                       ++ flat_map object_ops (map increment_links objs')
                       ++ [end_serialize])
                (room c - payload_bytes (objects_ g))).
Proof.
  intros Hnew Hwf Hpay Hroom. destruct g as [objs]. simpl in *.
  destruct (sort_kahn_reorders objs Hwf)
    as (objs1 & σ1 & Hkahn & Hrn1 & Hwf1 & Hrt1).
  rewrite (hb_resolve_overflows_unfold packed c _ _ Hnew Hkahn).
  destruct (will_overflow_outcome (mk_graph objs1)) as [->|[b ->]];
    [by left|right].
  destruct b.
  - pose proof (renumber_payload_ok objs objs1 σ1 Hrn1 Hpay) as Hpay1.
    destruct (sort_shortest_distance_reorders objs1 Hwf1 Hpay1)
      as (objs2 & σ2 & Hdist & Hrn2 & Hwf2 & Hrt2).
    pose proof (renumbering_compose _ _ _ _ _ Hrn1 Hrn2) as Hrn.
    exists objs2, (fun v => σ2 (σ1 v)). split; [done|].
    split; [by apply renumbering_Permutation|]. split; [done|].
    unfold mbind at 1. rewrite Hdist.
    rewrite serialize_fits
      by (by rewrite (renumbering_payload_bytes _ _ _ Hrn)).
    simpl. by rewrite (renumbering_payload_bytes _ _ _ Hrn).
  - exists objs1, σ1. split; [done|].
    split; [by apply renumbering_Permutation|]. split; [done|].
    unfold mbind at 1. unfold mret at 1.
    rewrite serialize_fits
      by (by rewrite (renumbering_payload_bytes _ _ _ Hrn1)).
    simpl. by rewrite (renumbering_payload_bytes _ _ _ Hrn1).
Qed.

Lemma hb_resolve_overflows_emits_every_object_witness :
  hb_resolve_overflows chain_packed (mk_sink [] 100) = Fatal OffsetUnderflow
  ∨ ∃ objs' σ,
      renumbering chain_objects objs' σ
      ∧ objs' ≡ₚ map (renumber σ) chain_objects
      ∧ reverse_topological objs'
      ∧ hb_resolve_overflows chain_packed (mk_sink [] 100) =
          Ok (mk_sink ([] ++ [start_serialize]
                       ++ flat_map object_ops (map increment_links objs')
                       ++ [end_serialize])
                (100 - payload_bytes chain_objects)).
Proof.
  apply (hb_resolve_overflows_emits_every_object chain_packed
           (mk_sink [] 100) (mk_graph chain_objects)).
  - reflexivity.
  - exact chain_objects_well_formed.
  - exact chain_objects_payload_ok.
  - vm_compute. discriminate.
Defined.

(** X19: the driver emits nothing for a graph with an unreachable
    object.  On a packed list that imports as an acyclic graph with
    child indexes in range (within the limits of the representation)
    in which some object is not reachable from the root, the Kahn
    sort fails and [hb_resolve_overflows] ends in
    [GraphStructureError] before the sink is touched. *)
Theorem hb_resolve_overflows_rejects_unreachable_object
    (packed : list (option object_t)) (c : sink) (g : graph_t) (u : Z) :
  graph_t_new packed = Ok g →
  vec_length (objects_ g) < 2 ^ 31 →
  Z.of_nat (length (all_children (objects_ g))) < 2 ^ 32 - 1 →
  links_in_range (objects_ g) →
  acyclic (objects_ g) →
  0 <= u < vec_length (objects_ g) →
  ¬ rtc (edge (objects_ g)) (vec_length (objects_ g) - 1) u →
  hb_resolve_overflows packed c = Fatal GraphStructureError.
Proof.
  intros Hnew Hlen Hlinks Hrange Hac Hu Hunreach. destruct g as [objs].
  simpl in *. unfold hb_resolve_overflows. rewrite Hnew. simpl.
  unfold mbind at 1.
  by rewrite (sort_kahn_fails_unreachable objs u Hlen Hu Hunreach Hlinks
                Hrange (Hac (vec_length objs - 1))).
Qed.

Lemma hb_resolve_overflows_rejects_unreachable_object_witness :
  hb_resolve_overflows (map Some orphan_objects) (mk_sink [] 100)
  = Fatal GraphStructureError.
Proof.
  assert (reverse_topological orphan_objects) as Hrt
    by (by apply reverse_topological_from_sound).
  apply (hb_resolve_overflows_rejects_unreachable_object
           (map Some orphan_objects) (mk_sink [] 100)
           (mk_graph orphan_objects) 0).
  - reflexivity.
  - reflexivity.
  - reflexivity.
  - by apply reverse_topological_in_range.
  - by apply reverse_topological_acyclic.
  - vm_compute. split; [discriminate | reflexivity].
  - intros H. apply orphan_objects_reach in H. lia.
Defined.

(** ** The order in which the distance sort takes the objects *)

Lemma increasing_insert_sorted x s :
  increasing s → increasing (hb_set.insert_sorted x s).
Proof.
  induction s as [|y s IH]; intros Hs; simpl.
  - split; [|done]. intros z Hz. by apply elem_of_nil in Hz.
  - destruct Hs as [Hy Hs].
    destruct (Z.ltb_spec x y) as [Hlt|Hge].
    + split; [|by split]. intros z Hz.
      apply elem_of_cons in Hz as [->|Hz]; [done|].
      specialize (Hy z Hz). lia.
    + destruct (Z.eqb_spec x y) as [->|Hne]; [by split|].
      split; [|by apply IH]. intros z Hz.
      apply hb_set_elem_of_insert_sorted in Hz as [->|Hz]; [lia | by apply Hy].
Qed.

Lemma increasing_add x s : increasing s → increasing (hb_set.add x s).
Proof.
  intros Hs. unfold hb_set.add. destruct (x =? hb_set.INVALID); [done|].
  by apply increasing_insert_sorted.
Qed.

Lemma increasing_del x s : increasing s → increasing (hb_set.del x s).
Proof.
  induction s as [|y s IH]; intros Hs; [done|].
  destruct Hs as [Hy Hs].
  change (hb_set.del x (y :: s))
    with (if negb (y =? x) then y :: hb_set.del x s else hb_set.del x s).
  destruct (negb (y =? x)); [|by apply IH].
  split; [|by apply IH]. intros z Hz.
  apply hb_set_elem_of_del in Hz as [Hz _]. by apply Hy.
Qed.

Lemma increasing_after before x after y :
  increasing (before ++ x :: after) → y ∈ after → x < y.
Proof.
  induction before as [|z before IH]; simpl; intros [Hz Hs] Hy.
  - by apply Hz.
  - by apply IH.
Qed.

Lemma increasing_visit_children cs ec q :
  increasing q →
  increasing (snd (fold_left (visit_child hb_set.add) cs (ec, q))).
Proof.
  revert ec q. induction cs as [|c cs IH]; intros ec q Hq; simpl; [done|].
  destruct (_ =? 0); apply IH; [by apply increasing_add | done].
Qed.

Lemma nearest_first_snoc objs distance_to popped x :
  nearest_first objs distance_to popped →
  (∀ b, 0 <= b < vec_length objs → b ∉ popped ++ [x] →
        remaining objs popped b = 0 →
        dist_get distance_to x <= dist_get distance_to b
        ∧ (dist_get distance_to x = dist_get distance_to b → x < b)) →
  nearest_first objs distance_to (popped ++ [x]).
Proof.
  intros Hold Hnew before a after b Heq Hb Hnotin Hready.
  destruct after as [|z after _] using rev_ind.
  - apply (app_inj_tail popped before x a) in Heq as [-> ->].
    by apply Hnew.
  - change (before ++ a :: after ++ [z])
      with (before ++ (a :: after) ++ [z]) in Heq.
    rewrite app_assoc in Heq.
    apply app_inj_tail in Heq as [-> ->].
    by apply (Hold before a after b).
Qed.

Section nearest.

Context (objs : list object_t) (distance_to : list Z).
Hypothesis Hwf : well_formed objs.
Hypothesis Hlen : 1 <= vec_length objs.
Hypothesis Hnear :
  ∀ v, 0 <= v < vec_length objs → dist_get distance_to v < INT64_MAX.

Lemma nearest_round popped st :
  sort_inv objs popped st → sort_complete objs popped st →
  increasing (st_queue st) → nearest_first objs distance_to popped →
  st_queue st ≠ [] →
  ∃ x st',
    sort_round (closest_pick distance_to) hb_set.add objs st = Ok st'
    ∧ sort_inv objs (popped ++ [x]) st'
    ∧ sort_complete objs (popped ++ [x]) st'
    ∧ increasing (st_queue st')
    ∧ nearest_first objs distance_to (popped ++ [x]).
Proof.
  intros Hinv Hc Hinc Hnf Hne.
  pose proof (wf_length _ Hwf) as Hlt.
  destruct (sort_round_inv objs (conj Hlen Hlt) (wf_links _ Hwf)
              (wf_range _ Hwf) (wf_acyclic _ Hwf (vec_length objs - 1))
              (closest_pick distance_to) hb_set.add
              (closest_pick_spec (vec_length objs) distance_to
                 ltac:(lia) Hnear)
              (hb_set_add_push_spec (vec_length objs) ltac:(lia))
              popped st Hinv Hne)
    as (y & st' & Hround & _ & Hinv' & Hc').
  specialize (Hc' Hc).
  unfold sort_round, closest_pick in Hround.
  destruct (closest_object (st_queue st) distance_to) as [x| | |] eqn:Hpick;
    simpl in Hround; try done.
  injection Hround as <-.
  destruct (closest_object_first _ _ _ Hpick)
    as (_ & before & after & Hq & Hbefore & Hafter).
  assert (x ∈ st_queue st) as Hxq.
  { rewrite Hq. apply elem_of_app. right. by left. }
  assert (y = x) as ->.
  { destruct (decide (y = x)) as [|Hyx]; [done|]. exfalso.
    pose proof (inv_id_in _ _ _ Hinv' (length popped) y) as Hid.
    rewrite lookup_app_r, Nat.sub_diag in Hid by lia.
    specialize (Hid eq_refl). simpl in Hid.
    rewrite hb_map_get_set_ne in Hid by done.
    rewrite (inv_id_out _ _ _ Hinv) in Hid.
    - pose proof (sort_inv_length objs (conj Hlen Hlt) _ _ Hinv).
      unfold hb_map.INVALID in Hid. lia.
    - pose proof (sort_inv_popped_NoDup _ _ _ Hinv') as Hnd.
      apply NoDup_app in Hnd as (_ & Hdisj & _).
      intros Hy. apply (Hdisj y Hy). by left. }
  exists x. eexists.
  split; [unfold sort_round, closest_pick; rewrite Hpick; reflexivity|].
  split; [exact Hinv'|].
  split; [exact Hc'|]. split.
  - simpl. by apply increasing_visit_children, increasing_del.
  - apply nearest_first_snoc; [done|].
    intros b Hb Hnotin Hready.
    assert (b ∈ st_queue st) as Hbq.
    { apply Hc; [done | | done].
      intros Hin. apply Hnotin, elem_of_app. by left. }
    assert (b ≠ x) as Hbx.
    { intros ->. apply Hnotin, elem_of_app. right. by left. }
    rewrite Hq in Hbq, Hinc.
    apply elem_of_app in Hbq as [Hbq|Hbq].
    + specialize (Hbefore b Hbq). lia.
    + apply elem_of_cons in Hbq as [->|Hbq]; [done|].
      specialize (Hafter b Hbq). split; [lia|].
      intros _. by apply (increasing_after before x after).
Qed.

Lemma nearest_loop fuel popped st :
  sort_inv objs popped st → sort_complete objs popped st →
  increasing (st_queue st) → nearest_first objs distance_to popped →
  vec_length objs <= Z.of_nat (length popped) + Z.of_nat fuel →
  ∃ popped' st',
    sort_loop (closest_pick distance_to) hb_set.add fuel objs st = Ok st'
    ∧ st_queue st' = []
    ∧ sort_inv objs popped' st'
    ∧ sort_complete objs popped' st'
    ∧ nearest_first objs distance_to popped'.
Proof.
  pose proof (wf_length _ Hwf) as Hlt.
  revert popped st.
  induction fuel as [|fuel IH]; intros popped st Hinv Hc Hinc Hnf Hfuel.
  - pose proof (sort_inv_length objs (conj Hlen Hlt) _ _ Hinv) as Hlength.
    destruct (st_queue st) as [|x q] eqn:Hq.
    + exists popped, st. simpl. rewrite Hq. done.
    + simpl in Hlength. lia.
  - destruct (st_queue st) as [|x q] eqn:Hq.
    + exists popped, st. simpl. rewrite Hq. done.
    + rewrite <- Hq in Hinc.
      destruct (nearest_round popped st Hinv Hc Hinc Hnf)
        as (y & st' & Hround & Hinv' & Hc' & Hinc' & Hnf').
      { by rewrite Hq. }
      destruct (IH (popped ++ [y]) st' Hinv' Hc' Hinc' Hnf')
        as (popped' & st'' & Hloop & Hq' & Hinv'' & Hc'' & Hnf'').
      { rewrite length_app. simpl. lia. }
      exists popped', st''. simpl. rewrite Hq, Hround. simpl. done.
Qed.

End nearest.

(** X20: the distance sort takes the nearest ready object.  On an
    acyclic, root-connected graph of two objects or more (within the
    limits of the representation, payloads of 32-bit size), with the
    distances [compute_distances] gives: whenever an object [a] is
    placed nearer to the root than an object [b] although all
    parents of [b] are placed before [a], so that [b] was ready when
    [a] was taken, the distance of [a] is at most that of [b], and
    at the same distance [a] has the lower index in the graph
    sorted. *)
Theorem sort_shortest_distance_takes_nearest_ready (objs : list object_t) :
  well_formed objs → Forall payload_ok objs → 2 <= vec_length objs →
  ∃ objs' σ distance_to,
    compute_distances objs = Ok distance_to
    ∧ sort_shortest_distance (mk_graph objs) = Ok (tt, mk_graph objs')
    ∧ renumbering objs objs' σ
    ∧ ∀ a b,
        0 <= a < vec_length objs → 0 <= b < vec_length objs →
        σ b < σ a →
        (∀ p, edge objs p b → σ a < σ p) →
        dist_get distance_to a <= dist_get distance_to b
        ∧ (dist_get distance_to a = dist_get distance_to b → a < b).
Proof.
  intros Hwf Hpay Hlen2.
  pose proof (wf_length _ Hwf) as Hlt.
  assert (1 <= vec_length objs) as Hlen by lia.
  destruct (compute_distances_finishes objs Hwf Hpay Hlen2)
    as (d & Hd & _ & Hnear).
  destruct (nearest_loop objs d Hwf Hlen Hnear (length objs) []
              (sort_start objs))
    as (popped & st & Hrun & Hq & Hinv & Hc & Hnf).
  { apply sort_inv_initial; [lia | apply Hwf | apply Hwf]. }
  { apply sort_complete_initial; [apply Hwf | done]. }
  { simpl. split; [|done]. intros y Hy. by apply elem_of_nil in Hy. }
  { intros before a after b Heq. by destruct before. }
  { simpl. unfold vec_length. lia. }
  exists (reverse (map (fun v => renumber (hb_map.get (st_id_map st))
                                   (vec_get objs v)) popped)),
         (hb_map.get (st_id_map st)), d.
  split; [exact Hd|]. split; [|split].
  - rewrite sort_shortest_distance_unfold by lia. rewrite Hd. simpl.
    unfold sort_outcome. rewrite Hrun. simpl.
    rewrite (finish_new_id objs Hwf Hlen popped st Hinv Hc Hq). simpl.
    rewrite (finish_remap objs Hwf Hlen popped st Hinv Hc Hq). done.
  - by apply finish_renumbering.
  - intros a b Ha Hb Hab Hparents.
    pose proof (sort_inv_popped_NoDup _ _ _ Hinv) as Hnd.
    destruct (finish_index objs Hwf Hlen popped st Hinv Hc Hq a Ha)
      as (i & Hi & Hσa & _).
    destruct (finish_index objs Hwf Hlen popped st Hinv Hc Hq b Hb)
      as (j & Hj & Hσb & _).
    apply (Hnf (take i popped) a (drop (S i) popped) b).
    + symmetry. by apply take_drop_middle.
    + done.
    + rewrite <- (take_S_r _ _ _ Hi). intros Hin.
      apply elem_of_take in Hin as (k & Hk & Hki).
      pose proof (NoDup_lookup _ _ _ _ Hnd Hk Hj). lia.
    + assert (NoDup (take i popped)) as Hnd'.
      { eapply sublist_NoDup; [exact Hnd | apply sublist_take]. }
      assert (∀ p, p ∈ take i popped → 0 <= p < vec_length objs) as Hr'.
      { intros p Hp. apply elem_of_take in Hp as (k & Hk & _).
        apply (sort_inv_popped_range objs popped st p Hinv).
        by eapply list_elem_of_lookup_2. }
      pose proof (remaining_nonneg objs (take i popped) b Hnd' Hr').
      destruct (decide (remaining objs (take i popped) b = 0)) as [|Hpos];
        [done|]. exfalso.
      destruct (remaining_pos_parent objs (take i popped) b Hnd' Hr')
        as (p & Hp & Hedge); [lia|].
      pose proof (edge_parent_in_range _ _ _ Hedge) as Hpr.
      destruct (finish_index objs Hwf Hlen popped st Hinv Hc Hq p Hpr)
        as (k & Hk & Hσp & _).
      specialize (Hparents p Hedge).
      apply Hp, elem_of_take. exists k. split; [done | lia].
Qed.

Lemma sort_shortest_distance_takes_nearest_ready_witness :
  ∃ objs' σ distance_to,
    compute_distances forced_objects = Ok distance_to
    ∧ sort_shortest_distance (mk_graph forced_objects)
      = Ok (tt, mk_graph objs')
    ∧ renumbering forced_objects objs' σ
    ∧ ∀ a b,
        0 <= a < vec_length forced_objects →
        0 <= b < vec_length forced_objects →
        σ b < σ a →
        (∀ p, edge forced_objects p b → σ a < σ p) →
        dist_get distance_to a <= dist_get distance_to b
        ∧ (dist_get distance_to a = dist_get distance_to b → a < b).
Proof.
  apply (sort_shortest_distance_takes_nearest_ready forced_objects).
  - exact forced_objects_well_formed.
  - repeat constructor; simpl; lia.
  - vm_compute. discriminate.
Defined.

(** ** The order in which the Kahn sort takes the objects *)

Lemma fifo_visit_appends cs ec (q : list Z) :
  ∃ extra,
    snd (fold_left (visit_child fifo_push) cs (ec, q)) = q ++ extra
    ∧ ∀ c, c ∈ extra → c ∈ cs.
Proof.
  revert ec q. induction cs as [|c cs IH]; intros ec q; simpl.
  - exists []. split; [by rewrite app_nil_r|]. intros c Hc.
    by apply elem_of_nil in Hc.
  - destruct (_ =? 0).
    + destruct (IH (hb_map.set c (wrap_u32 (hb_map.get ec c - 1)) ec)
                  (fifo_push c q)) as (extra & -> & Hextra).
      exists (c :: extra). unfold fifo_push. split; [by rewrite <- app_assoc|].
      intros y Hy. apply elem_of_cons in Hy as [->|Hy]; [by left|].
      right. by apply Hextra.
    + destruct (IH (hb_map.set c (wrap_u32 (hb_map.get ec c - 1)) ec) q)
        as (extra & -> & Hextra).
      exists extra. split; [done|]. intros y Hy. right. by apply Hextra.
Qed.

Lemma sort_inv_parents_popped objs popped st a p :
  well_formed objs → sort_inv objs popped st →
  a ∈ popped ++ st_queue st → edge objs p a → p ∈ popped.
Proof.
  intros Hwf Hinv Ha Hedge.
  destruct (decide (a = vec_length objs - 1)) as [->|Hroot].
  { by apply well_formed_root_no_parent in Hedge. }
  destruct (decide (p ∈ popped)) as [|Hp]; [done|]. exfalso.
  pose proof (inv_ready _ _ _ Hinv a Ha Hroot) as Hzero.
  pose proof (remaining_unpopped_parent objs popped p a
                (sort_inv_popped_NoDup _ _ _ Hinv)
                (fun q => sort_inv_popped_range objs popped st q Hinv)
                Hp (edge_parent_in_range _ _ _ Hedge)) as Hle.
  assert (0 < occ a (children objs p)) by (by apply occ_pos). lia.
Qed.

Lemma sort_round_taken objs popped st st' x y v :
  1 <= vec_length objs < 2 ^ 31 →
  sort_inv objs popped st → sort_inv objs (popped ++ [y]) st' →
  st_id_map st' = hb_map.set x v (st_id_map st) → y = x.
Proof.
  intros Hlen Hinv Hinv' Hmap.
  destruct (decide (y = x)) as [|Hyx]; [done|]. exfalso.
  pose proof (inv_id_in _ _ _ Hinv' (length popped) y) as Hid.
  rewrite lookup_app_r, Nat.sub_diag in Hid by lia.
  specialize (Hid eq_refl). rewrite Hmap in Hid.
  rewrite hb_map_get_set_ne in Hid by done.
  rewrite (inv_id_out _ _ _ Hinv) in Hid.
  - pose proof (sort_inv_length objs Hlen _ _ Hinv).
    unfold hb_map.INVALID in Hid. lia.
  - pose proof (sort_inv_popped_NoDup _ _ _ Hinv') as Hnd.
    apply NoDup_app in Hnd as (_ & Hdisj & _).
    intros Hy. apply (Hdisj y Hy). by left.
Qed.

Lemma ready_before_snoc objs popped x a b :
  (∀ p, edge objs p a → p ∈ popped) →
  ready_before objs popped a b → ready_before objs (popped ++ [x]) a b.
Proof.
  intros Ha Hab k Hb p Hp.
  destruct (Nat.le_gt_cases k (length popped)) as [Hk|Hk].
  - rewrite take_app_le in * by done. by apply (Hab k).
  - rewrite take_ge by (rewrite length_app; simpl; lia).
    apply elem_of_app. left. by apply Ha.
Qed.

Section breadth_first.

Context (objs : list object_t).
Hypothesis Hwf : well_formed objs.
Hypothesis Hlen : 1 <= vec_length objs.

Lemma kahn_round popped st :
  sort_inv objs popped st → sort_complete objs popped st →
  ready_order objs popped (st_queue st) →
  st_queue st ≠ [] →
  ∃ x st',
    sort_round fifo_pick fifo_push objs st = Ok st'
    ∧ sort_inv objs (popped ++ [x]) st'
    ∧ sort_complete objs (popped ++ [x]) st'
    ∧ ready_order objs (popped ++ [x]) (st_queue st').
Proof.
  intros Hinv Hc Hro Hne.
  pose proof (wf_length _ Hwf) as Hlt.
  destruct (sort_round_inv objs (conj Hlen Hlt) (wf_links _ Hwf)
              (wf_range _ Hwf) (wf_acyclic _ Hwf (vec_length objs - 1))
              fifo_pick fifo_push
              (fifo_pick_spec _) (fifo_push_spec _) popped st Hinv Hne)
    as (y & st' & Hround & _ & Hinv' & Hc').
  specialize (Hc' Hc).
  destruct (st_queue st) as [|x q] eqn:Hq; [done|].
  unfold sort_round in Hround. rewrite Hq in Hround. simpl in Hround.
  injection Hround as <-.
  assert (y = x) as ->
    by (exact (sort_round_taken objs popped st _ x y _ (conj Hlen Hlt)
                 Hinv Hinv' eq_refl)).
  destruct (fifo_visit_appends (map objidx (links (vec_get objs x)))
              (st_edge_count st) q) as (extra & Hextra & Hchildren).
  exists x. eexists.
  split; [unfold sort_round; rewrite Hq; reflexivity|].
  split; [exact Hinv'|]. split; [exact Hc'|].
  simpl. rewrite Hextra.
  assert ((popped ++ [x]) ++ q ++ extra = (popped ++ x :: q) ++ extra) as HL
    by (by rewrite <- !app_assoc).
  intros i j a b Hi Hj Hij. rewrite HL in Hi, Hj.
  assert (∀ v, v ∈ (popped ++ x :: q) ++ extra →
               ∀ p, edge objs p v → p ∈ popped ++ [x]) as Hparents.
  { intros v Hv p Hp.
    apply (sort_inv_parents_popped objs _ _ v p Hwf Hinv'); [|done].
    simpl. by rewrite Hextra, HL. }
  destruct (Nat.lt_ge_cases j (length (popped ++ x :: q))) as [Hjl|Hjl].
  - rewrite lookup_app_l in Hi, Hj by lia.
    apply ready_before_snoc.
    + intros p Hp.
      apply (sort_inv_parents_popped objs popped st a p Hwf Hinv); [|done].
      rewrite Hq. by eapply list_elem_of_lookup_2.
    + by apply (Hro i j).
  - rewrite (lookup_app_r _ _ j) in Hj by done.
    apply list_elem_of_lookup_2 in Hj.
    assert (edge objs x b) as Hxb by (by apply Hchildren).
    intros k Hb p Hp.
    pose proof (Hb x Hxb) as Hx.
    apply elem_of_take in Hx as (k' & Hk' & Hlt').
    assert ((popped ++ [x]) !! length popped = Some x) as Hlast.
    { rewrite lookup_app_r, Nat.sub_diag by lia. done. }
    pose proof (NoDup_lookup _ _ _ _
                  (sort_inv_popped_NoDup _ _ _ Hinv') Hk' Hlast) as ->.
    rewrite take_ge by (rewrite length_app; simpl; lia).
    apply (Hparents a); [|done]. by eapply list_elem_of_lookup_2.
Qed.

Lemma kahn_loop fuel popped st :
  sort_inv objs popped st → sort_complete objs popped st →
  ready_order objs popped (st_queue st) →
  vec_length objs <= Z.of_nat (length popped) + Z.of_nat fuel →
  ∃ popped' st',
    sort_loop fifo_pick fifo_push fuel objs st = Ok st'
    ∧ st_queue st' = []
    ∧ sort_inv objs popped' st'
    ∧ sort_complete objs popped' st'
    ∧ ready_order objs popped' [].
Proof.
  pose proof (wf_length _ Hwf) as Hlt.
  revert popped st.
  induction fuel as [|fuel IH]; intros popped st Hinv Hc Hro Hfuel.
  - pose proof (sort_inv_length objs (conj Hlen Hlt) _ _ Hinv) as Hlength.
    destruct (st_queue st) as [|x q] eqn:Hq.
    + exists popped, st. simpl. rewrite Hq. done.
    + simpl in Hlength. lia.
  - destruct (st_queue st) as [|x q] eqn:Hq.
    + exists popped, st. simpl. rewrite Hq. done.
    + rewrite <- Hq in Hro.
      destruct (kahn_round popped st Hinv Hc Hro)
        as (y & st' & Hround & Hinv' & Hc' & Hro').
      { by rewrite Hq. }
      destruct (IH (popped ++ [y]) st' Hinv' Hc' Hro')
        as (popped' & st'' & Hloop & Hq' & Hinv'' & Hc'' & Hro'').
      { rewrite length_app. simpl. lia. }
      exists popped', st''. simpl. rewrite Hq, Hround. simpl. done.
Qed.

End breadth_first.

(** X21: the Kahn sort takes the objects in the order in which they
    become ready.  On an acyclic, root-connected graph of two objects
    or more (within the limits of the representation): when some
    parent of an object [a] is placed behind every parent of an
    object [b], so that [b] was ready before [a], then [b] is placed
    nearer to the root than [a]. *)
Theorem sort_kahn_takes_objects_in_ready_order (objs : list object_t) :
  well_formed objs → 2 <= vec_length objs →
  ∃ objs' σ,
    sort_kahn (mk_graph objs) = Ok (tt, mk_graph objs')
    ∧ renumbering objs objs' σ
    ∧ ∀ a b pa,
        0 <= a < vec_length objs → 0 <= b < vec_length objs →
        edge objs pa a →
        (∀ p, edge objs p b → σ pa < σ p) →
        σ a < σ b.
Proof.
  intros Hwf Hlen2.
  pose proof (wf_length _ Hwf) as Hlt.
  assert (1 <= vec_length objs) as Hlen by lia.
  destruct (kahn_loop objs Hwf Hlen (length objs) [] (sort_start objs))
    as (popped & st & Hrun & Hq & Hinv & Hc & Hro).
  { apply sort_inv_initial; [lia | apply Hwf | apply Hwf]. }
  { apply sort_complete_initial; [apply Hwf | done]. }
  { intros i j a b Hi Hj Hij. simpl in Hi, Hj.
    destruct i, j; simpl in *; try done; lia. }
  { simpl. unfold vec_length. lia. }
  exists (reverse (map (fun v => renumber (hb_map.get (st_id_map st))
                                   (vec_get objs v)) popped)),
         (hb_map.get (st_id_map st)).
  split; [|split].
  - rewrite sort_kahn_unfold by lia.
    unfold sort_outcome. rewrite Hrun. simpl.
    rewrite (finish_new_id objs Hwf Hlen popped st Hinv Hc Hq). simpl.
    rewrite (finish_remap objs Hwf Hlen popped st Hinv Hc Hq). done.
  - by apply finish_renumbering.
  - intros a b pa Ha Hb Hpa Hparents.
    pose proof (sort_inv_popped_NoDup _ _ _ Hinv) as Hnd.
    destruct (finish_index objs Hwf Hlen popped st Hinv Hc Hq a Ha)
      as (i & Hi & Hσa & _).
    destruct (finish_index objs Hwf Hlen popped st Hinv Hc Hq b Hb)
      as (j & Hj & Hσb & _).
    destruct (finish_index objs Hwf Hlen popped st Hinv Hc Hq pa
                (edge_parent_in_range _ _ _ Hpa))
      as (k & Hk & Hσpa & _).
    assert (∀ p, edge objs p b → p ∈ take k popped) as Hbk.
    { intros p Hp.
      destruct (finish_index objs Hwf Hlen popped st Hinv Hc Hq p
                  (edge_parent_in_range _ _ _ Hp))
        as (m & Hm & Hσp & _).
      specialize (Hparents p Hp).
      apply elem_of_take. exists m. split; [done | lia]. }
    assert (¬ (i < j)%nat) as Hnlt.
    { intros Hij.
      pose proof (Hro i j a b) as Hab. rewrite app_nil_r in Hab.
      specialize (Hab Hi Hj Hij k Hbk pa Hpa).
      apply elem_of_take in Hab as (m & Hm & Hmk).
      pose proof (NoDup_lookup _ _ _ _ Hnd Hm Hk). lia. }
    assert (i ≠ j) as Hne.
    { intros ->. assert (a = b) as -> by congruence.
      specialize (Hparents pa Hpa). lia. }
    lia.
Qed.

Lemma sort_kahn_takes_objects_in_ready_order_witness :
  ∃ objs' σ,
    sort_kahn (mk_graph detour_objects) = Ok (tt, mk_graph objs')
    ∧ renumbering detour_objects objs' σ
    ∧ ∀ a b pa,
        0 <= a < vec_length detour_objects →
        0 <= b < vec_length detour_objects →
        edge detour_objects pa a →
        (∀ p, edge detour_objects p b → σ pa < σ p) →
        σ a < σ b.
Proof.
  apply (sort_kahn_takes_objects_in_ready_order detour_objects).
  - exact detour_objects_well_formed.
  - vm_compute. discriminate.
Defined.

(** ** The scenarios of the specification, run *)

(** A single object of 7 bytes and no links is emitted as it is. *)
Example single_object_run :
  hb_resolve_overflows [None; Some (mk_object 0 7 [])] (mk_sink [] 100)
  = Ok (mk_sink [ start_serialize; push; allocate_size 7 true; memcpy 0 7;
                  pop_pack false; end_serialize ] 93).
Proof. reflexivity. Qed.

(** The chain root -> A -> B: the oracle reports no overflow on the
    imported order, and the driver emits B, A and the root, each link
    registered with the child index of the packed list. *)
Example chain_run :
  will_overflow (mk_graph chain_objects) = Ok (false, mk_graph chain_objects)
  ∧ hb_resolve_overflows chain_packed (mk_sink [] 100)
    = Ok (mk_sink
            [ start_serialize;
              push; allocate_size 10 true; memcpy 120 10; pop_pack false;
              push; allocate_size 10 true; memcpy 110 10;
              store_zero 0 2; add_link 0 2 false 1 Head 0; pop_pack false;
              push; allocate_size 10 true; memcpy 100 10;
              store_zero 0 2; add_link 0 2 false 2 Head 0; pop_pack false;
              end_serialize ] 70).
Proof. split; reflexivity. Qed.

(** The forced narrow overflow: the Kahn sort keeps the order in which
    the 80000-byte object lies between the root and the 4-byte object,
    the oracle reports an overflow, and the distance sort moves the
    4-byte object next to the root, after which the oracle reports
    none. *)
Example forced_overflow_run :
  sort_kahn (mk_graph forced_objects) = Ok (tt, mk_graph forced_objects)
  ∧ will_overflow (mk_graph forced_objects)
    = Ok (true, mk_graph forced_objects)
  ∧ sort_shortest_distance (mk_graph forced_objects)
    = Ok (tt, mk_graph [ mk_object 0 80000 []; mk_object 0 4 [];
                         mk_object 0 4 [ narrow_unsigned 0;
                                         narrow_unsigned 1 ] ])
  ∧ will_overflow (mk_graph [ mk_object 0 80000 []; mk_object 0 4 [];
                              mk_object 0 4 [ narrow_unsigned 0;
                                              narrow_unsigned 1 ] ])
    = Ok (false, mk_graph [ mk_object 0 80000 []; mk_object 0 4 [];
                            mk_object 0 4 [ narrow_unsigned 0;
                                            narrow_unsigned 1 ] ]).
Proof. repeat split; vm_compute; reflexivity. Qed.
